(** * LDAP search: entries, buffered search, streaming search, paged search

    A shallow embedding of [v3/search.go].  Pure helpers ([NewEntry], the
    attribute accessors) are Rocq functions; the connection, the objects
    reached through Go pointers and the consumer channel are explicit
    state; a Go panic is an outcome of its own. *)

From Stdlib Require Import ZArith Strings.Byte.
From stdpp Require Import gmap strings list sorting.

Local Open Scope Z_scope.

(** ** Entries *)

(** [EntryAttribute]: one attribute with its string and raw values. *)
Record EntryAttribute := mkEntryAttribute {
  Name : string;
  Values : list string;
  ByteValues : list (list byte)
}.

(** [Entry]: a distinguished name and the attributes in their order. *)
Record Entry := mkEntry {
  DN : string;
  Attributes : list EntryAttribute
}.

(** [NewEntryAttribute]: the raw values are the bytes of the strings. *)
Definition NewEntryAttribute (name : string) (values : list string) : EntryAttribute :=
  {| Name := name;
     Values := values;
     ByteValues := map String.list_byte_of_string values |}.

(** [sort.Strings]: ascending order of Go's [<] on strings, which compares
    byte by byte. *)
Definition sort_Strings (l : list string) : list string :=
  merge_sort String.le l.

(** [NewEntry].  A Go [range] over a map visits the keys in an unspecified
    order: [iter] is the order of this visit. *)
Definition NewEntry (iter : list string) (dn : string)
    (attributes : gmap string (list string)) : Entry :=
  let attributeNames := sort_Strings iter in
  let encodedAttributes :=
    map (fun attributeName =>
           NewEntryAttribute attributeName (default [] (attributes !! attributeName)))
        attributeNames in
  {| DN := dn; Attributes := encodedAttributes |}.

(** An order in which [range] may visit the keys of [m]: each key once. *)
Definition range_order (m : gmap string (list string)) (iter : list string) : Prop :=
  iter ≡ₚ (map_to_list m).*1.

(** [strings.EqualFold] belongs to Go's library: the accessors take it as
    the comparison [fold]. *)
Section Accessors.
Variable EqualFold : string -> string -> bool.

(** [GetAttributeValues]: the loop returns at the first attribute whose
    name is the argument. *)
Fixpoint GetAttributeValues_loop (attrs : list EntryAttribute) (attribute : string)
    : list string :=
  match attrs with
  | [] => []
  | attr :: rest =>
      if String.eqb (Name attr) attribute then Values attr
      else GetAttributeValues_loop rest attribute
  end.

Definition GetAttributeValues (e : Entry) (attribute : string) : list string :=
  GetAttributeValues_loop (Attributes e) attribute.

Fixpoint GetEqualFoldAttributeValues_loop (attrs : list EntryAttribute)
    (attribute : string) : list string :=
  match attrs with
  | [] => []
  | attr :: rest =>
      if EqualFold attribute (Name attr) then Values attr
      else GetEqualFoldAttributeValues_loop rest attribute
  end.

Definition GetEqualFoldAttributeValues (e : Entry) (attribute : string) : list string :=
  GetEqualFoldAttributeValues_loop (Attributes e) attribute.

Definition GetAttributeValue (e : Entry) (attribute : string) : string :=
  let values := GetAttributeValues e attribute in
  match values with
  | [] => ""
  | v :: _ => v
  end.

Definition GetEqualFoldAttributeValue (e : Entry) (attribute : string) : string :=
  let values := GetEqualFoldAttributeValues e attribute in
  match values with
  | [] => ""
  | v :: _ => v
  end.
End Accessors.

(** ASCII case folding, the part of [strings.EqualFold] that attribute
    names written in ASCII exercise. *)
Definition ascii_lower (a : Ascii.ascii) : Ascii.ascii :=
  let n := Ascii.N_of_ascii a in
  if ((65 <=? n) && (n <=? 90))%N then Ascii.ascii_of_N (n + 32) else a.

Fixpoint ascii_EqualFold (s t : string) : bool :=
  match s, t with
  | EmptyString, EmptyString => true
  | String a s', String b t' =>
      Ascii.eqb (ascii_lower a) (ascii_lower b) && ascii_EqualFold s' t'
  | _, _ => false
  end.

(** ** BER packets, errors, controls *)

(** The [Value] of a [ber.Packet] is an [interface{}]; the assertion
    [.(string)] panics on anything but a string. *)
Inductive PacketValue :=
| VNil
| VString (s : string)
| VInt (n : Z)
| VBool (b : bool).

#[warnings="-register-all"]
Inductive Packet := mkPacket {
  Tag : Z;
  Value : PacketValue;
  ByteValue : list byte;
  Children : list Packet
}.

(** Modelled from the spec: the application tags of section 3 (the
    constants are declared outside these sources). *)
Definition ApplicationSearchResultEntry : Z := 4.
Definition ApplicationSearchResultDone : Z := 5.
Definition ApplicationSearchResultReference : Z := 19.

(** Modelled from the spec: the error kinds of section 7 (their numeric
    codes are declared outside these sources); a server result code is a
    kind of its own. *)
Inductive ErrorKind :=
| ErrorNetwork
| ErrorDecoding
| ErrorEncoding
| ErrorFilterCompile
| ErrorFilterDecompile
| ErrorUsage
| ErrorUnknown
| ErrorResult (code : Z).

(** A [*ControlPaging] is an address in the store of paging controls. *)
Definition loc := nat.

Record ControlPaging := mkControlPaging {
  PagingSize : Z;          (* uint32 *)
  Cookie : list byte
}.

Definition Heap := list ControlPaging.

(** A [Control] value: a pointer to a paging control, or any other control,
    of which this code only reads [GetControlType]. *)
Inductive Control :=
| PControlPaging (p : loc)
| ControlString (ControlType : string) (Criticality : bool) (ControlValue : string).

(** Go errors: [NewError] with a kind, and the [fmt.Errorf] values of this
    file, one constructor per format. *)
Inductive error :=
| NewError (kind : ErrorKind) (err : string)
| ErrExpectedControlPaging (control : Control)
| ErrPagingSizeConflict (given requested : Z)
| ErrDecodeChildControl (cause : error).

(** Modelled from the spec: the paging OID of section 3. *)
Definition ControlTypePaging : string := "1.2.840.113556.1.4.319".

Definition GetControlType (c : Control) : string :=
  match c with
  | PControlPaging _ => ControlTypePaging
  | ControlString ty _ _ => ty
  end.

(** Modelled from the spec: [FindControl] (declared outside these sources)
    is the lookup of a control by its discriminating OID: the first control
    of the list with that type, [nil] when there is none. *)
Fixpoint FindControl (controls : list Control) (controlType : string) : option Control :=
  match controls with
  | [] => None
  | c :: rest =>
      if String.eqb (GetControlType c) controlType then Some c
      else FindControl rest controlType
  end.

(** Modelled from the spec: [NewControlPaging] (section 4.3: "allocates a
    paging control with the desired size and empty cookie"): a fresh object. *)
Definition NewControlPaging (h : Heap) (pagingSize : Z) : Heap * loc :=
  (h ++ [{| PagingSize := pagingSize; Cookie := [] |}], length h).

(** Modelled from the spec: [SetCookie] (section 4.3: "copies the
    server-returned cookie into the control"); a nil receiver panics. *)
Definition SetCookie (h : Heap) (p : loc) (cookie : list byte) : option Heap :=
  match h !! p with
  | None => None
  | Some c => Some (<[p := {| PagingSize := PagingSize c; Cookie := cookie |}]> h)
  end.

(** What a decoder of the control registry reads from a packet, before the
    control object is allocated. *)
Inductive DecodedControl :=
| DecPaging (c : ControlPaging)
| DecString (ControlType : string) (Criticality : bool) (ControlValue : string).

(** ** Requests, results, the connection *)

Record SearchRequest := mkSearchRequest {
  BaseDN : string;
  Scope : Z;
  DerefAliases : Z;
  SizeLimit : Z;
  TimeLimit : Z;
  TypesOnly : bool;
  Filter : string;
  ReqAttributes : list string;
  Controls : list Control
}.

Record SearchResult := mkSearchResult {
  Entries : list Entry;
  Referrals : list string;
  ResControls : list Control
}.

(** A control as written to the wire: the paging control with the size and
    cookie it holds when the request is encoded. *)
Inductive ControlWire :=
| WirePaging (size : Z) (cookie : list byte)
| WireString (ControlType : string) (Criticality : bool) (ControlValue : string).

(** The LDAPMessage [appendTo] builds: MessageID, the SearchRequest PDU
    (with the compiled filter) and, when the request has controls, the
    controls. *)
Record Envelope := mkEnvelope {
  envMessageID : Z;
  envBaseDN : string;
  envScope : Z;
  envDerefAliases : Z;
  envSizeLimit : Z;
  envTimeLimit : Z;
  envTypesOnly : bool;
  envFilter : Packet;
  envAttributes : list string;
  envControls : option (list ControlWire)
}.

(** What [ReadPacket] yields for one queued response. *)
Inductive PacketResponse :=
| GotPacket (packet : Packet)
| GotError (e : error).

(** What the transport and the server do with a request: the write fails,
    or the responses queued for its MessageID until the queue is closed. *)
Inductive Reply :=
| SendError (e : error)
| Responses (rs : list PacketResponse).

Record messageContext := mkMessageContext {
  id : Z;
  responses : list PacketResponse
}.

(** [Conn]: the MessageID counter, the search requests written so far
    (oldest first), the MessageIDs already finished, the debug flag. *)
Record Conn := mkConn {
  messageID : Z;
  sent : list Envelope;
  finished : list Z;
  Debug : bool
}.

Record World := mkWorld {
  conn : Conn;
  heap : Heap
}.

(** How a call ends: it returns, it panics, or (paging loop only) the
    bound on the number of pages ran out. *)
Inductive Res (A : Type) :=
| Ret (a : A)
| Panic
| OutOfFuel.
Arguments Ret {A} a.
Arguments Panic {A}.
Arguments OutOfFuel {A}.

(** Functions of this repository and of the BER library that [search.go]
    calls and that are declared outside these sources. *)
Class Codec := {
  CompileFilter : string -> error + Packet;
  GetLDAPError : Packet -> option error;
  decodeControlValue : Packet -> error + DecodedControl;
  addLDAPDescriptions : Packet -> option error
}.

(** The transport and the server: the reply to the last envelope of a
    history of written envelopes. *)
Class Network := {
  respond : list Envelope -> Reply
}.

(** ** Sending a request *)

Section Operations.
Context `{Codec} `{Network}.

(** Modelled from the spec: [nextMessageID] (section 3: "a monotonic
    MessageID counter"): hand out the counter and advance it. *)
Definition nextMessageID (l : Conn) : Conn * Z :=
  ({| messageID := messageID l + 1; sent := sent l;
      finished := finished l; Debug := Debug l |},
   messageID l).

(** Modelled from the spec: [encodeControls] (section 4.3: each control
    encodes its own request form): the paging control is read through its
    pointer when the request is encoded; a nil pointer panics. *)
Definition encodeControl (h : Heap) (c : Control) : option ControlWire :=
  match c with
  | PControlPaging p =>
      match h !! p with
      | Some cp => Some (WirePaging (PagingSize cp) (Cookie cp))
      | None => None
      end
  | ControlString ty crit val => Some (WireString ty crit val)
  end.

Definition encodeControls (h : Heap) (controls : list Control)
    : option (list ControlWire) :=
  mapM (encodeControl h) controls.

(** [appendTo]: the filter is compiled first, its error is returned; the
    controls are appended when there is at least one. *)
Definition appendTo (h : Heap) (req : SearchRequest) (msgID : Z)
    : Res (error + Envelope) :=
  match CompileFilter (Filter req) with
  | inl err => Ret (inl err)
  | inr filterPacket =>
      let envelope controls :=
        {| envMessageID := msgID;
           envBaseDN := BaseDN req;
           envScope := Scope req;
           envDerefAliases := DerefAliases req;
           envSizeLimit := SizeLimit req;
           envTimeLimit := TimeLimit req;
           envTypesOnly := TypesOnly req;
           envFilter := filterPacket;
           envAttributes := ReqAttributes req;
           envControls := controls |} in
      if (0 <? length (Controls req))%nat then
        match encodeControls h (Controls req) with
        | Some cs => Ret (inr (envelope (Some cs)))
        | None => Panic
        end
      else Ret (inr (envelope None))
  end.

(** Modelled from the spec: [sendMessage] (section 4.4, Submit): the
    envelope is written and the handle holds the inbound queue of its
    MessageID, or the write fails and nothing is written. *)
Definition sendMessage (l : Conn) (packet : Envelope) : Conn * (error + messageContext) :=
  match respond (sent l ++ [packet]) with
  | SendError e => (l, inl e)
  | Responses rs =>
      ({| messageID := messageID l; sent := sent l ++ [packet];
          finished := finished l; Debug := Debug l |},
       inr {| id := envMessageID packet; responses := rs |})
  end.

(** Modelled from the spec: [finishMessage] (section 4.4, Finish): the
    queue of the MessageID is removed.  The AbandonRequest that Finish
    writes for an operation without terminal response is not a search
    request: [sent] holds the search requests only, and leaves it out. *)
Definition finishMessage (l : Conn) (msgCtx : messageContext) : Conn :=
  {| messageID := messageID l; sent := sent l;
     finished := finished l ++ [id msgCtx]; Debug := Debug l |}.

(** Modelled from the spec: [doRequest] (declared outside these sources)
    is Submit for an operation: the steps [SearchWithChannel] writes out
    before its loop (MessageID, [appendTo], [sendMessage]). *)
Definition doRequest (w : World) (req : SearchRequest)
    : World * Res (error + messageContext) :=
  let '(l1, msgID) := nextMessageID (conn w) in
  match appendTo (heap w) req msgID with
  | Panic => ({| conn := l1; heap := heap w |}, Panic)
  | OutOfFuel => ({| conn := l1; heap := heap w |}, OutOfFuel)
  | Ret (inl err) => ({| conn := l1; heap := heap w |}, Ret (inl err))
  | Ret (inr packet) =>
      let '(l2, r) := sendMessage l1 packet in
      ({| conn := l2; heap := heap w |}, Ret r)
  end.

(** ** Decoding responses *)

(** [p.Value.(string)] *)
Definition string_value (p : Packet) : option string :=
  match Value p with
  | VString s => Some s
  | _ => None
  end.

(** One attribute of an entry: [child.Children[0]] is the name, the
    children of [child.Children[1]] are the values.  [None] is a panic. *)
Definition unpackAttribute (child : Packet) : option EntryAttribute :=
  name ← Children child !! 0%nat ≫= string_value;
  vals ← Children child !! 1%nat;
  values ← mapM string_value (Children vals);
  Some {| Name := name;
          Values := values;
          ByteValues := map ByteValue (Children vals) |}.

(** Modelled from the spec: [unpackAttributes] (declared outside these
    sources; section 4.5: "decode DN + attributes"), the decoding that
    [SearchWithChannel] writes inline. *)
Definition unpackAttributes (children : list Packet) : option (list EntryAttribute) :=
  mapM unpackAttribute children.

(** The entry of a SearchResultEntry PDU [op = packet.Children[1]]:
    [op.Children[0]] is the DN, [op.Children[1]] holds the attributes. *)
Definition decodeEntry (op : Packet) : option Entry :=
  dn ← Children op !! 0%nat ≫= string_value;
  attrs ← Children op !! 1%nat;
  attributes ← unpackAttributes (Children attrs);
  Some {| DN := dn; Attributes := attributes |}.

(** The referral of a SearchResultReference PDU: [op.Children[0]]. *)
Definition decodeReferral (op : Packet) : option string :=
  Children op !! 0%nat ≫= string_value.

(** Modelled from the spec: [DecodeControl] (section 4.3: the registry
    decoder yields a control): a decoded paging control is a new object. *)
Definition DecodeControl (h : Heap) (child : Packet) : Heap * (error + Control) :=
  match decodeControlValue child with
  | inl err => (h, inl err)
  | inr (DecPaging c) => (h ++ [c], inr (PControlPaging (length h)))
  | inr (DecString ty crit val) => (h, inr (ControlString ty crit val))
  end.

(** The loop over [packet.Children[2].Children]: the controls decoded so
    far, and the error of the first child that fails. *)
Fixpoint decodeControls (h : Heap) (children : list Packet) (controls : list Control)
    : Heap * list Control * option error :=
  match children with
  | [] => (h, controls, None)
  | child :: rest =>
      match DecodeControl h child with
      | (h1, inl err) => (h1, controls, Some (ErrDecodeChildControl err))
      | (h1, inr decodedChild) => decodeControls h1 rest (controls ++ [decodedChild])
      end
  end.

(** The part of reading a packet that can fail once the packet is there:
    with [Debug] set, [addLDAPDescriptions]. *)
Definition debugPacket (l : Conn) (packet : Packet) : option error :=
  if Debug l then addLDAPDescriptions packet else None.
End Operations.

(** ** Search, SearchWithChannel, SearchWithPaging *)

Section Search.
Context `{Codec} `{Network}.

Definition addEntry (result : SearchResult) (entry : Entry) : SearchResult :=
  {| Entries := Entries result ++ [entry];
     Referrals := Referrals result;
     ResControls := ResControls result |}.

Definition addReferral (result : SearchResult) (ref : string) : SearchResult :=
  {| Entries := Entries result;
     Referrals := Referrals result ++ [ref];
     ResControls := ResControls result |}.

Definition setControls (result : SearchResult) (controls : list Control) : SearchResult :=
  {| Entries := Entries result;
     Referrals := Referrals result;
     ResControls := controls |}.

(** The [for] loop of [Search] over the inbound queue of the request.
    [readPacket] fails when the queue is closed, when the response holds
    an error, or in [debugPacket]; every [return] carries [result]. *)
Fixpoint Search_loop (l : Conn) (h : Heap) (inbound : list PacketResponse)
    (result : SearchResult) : Heap * Res (SearchResult * option error) :=
  match inbound with
  | [] => (h, Ret (result, Some (NewError ErrorNetwork "ldap: response channel closed")))
  | GotError err :: _ => (h, Ret (result, Some err))
  | GotPacket packet :: rest =>
      match debugPacket l packet with
      | Some err => (h, Ret (result, Some err))
      | None =>
          match Children packet !! 1%nat with
          | None => (h, Panic)
          | Some op =>
              if Tag op =? 4 then
                match decodeEntry op with
                | None => (h, Panic)
                | Some entry => Search_loop l h rest (addEntry result entry)
                end
              else if Tag op =? 5 then
                match GetLDAPError packet with
                | Some err => (h, Ret (result, Some err))
                | None =>
                    if (length (Children packet) =? 3)%nat then
                      match Children packet !! 2%nat with
                      | None => (h, Panic)
                      | Some cs =>
                          let '(h1, controls, err) :=
                            decodeControls h (Children cs) (ResControls result) in
                          (h1, Ret (setControls result controls, err))
                      end
                    else (h, Ret (result, None))
                end
              else if Tag op =? 19 then
                match decodeReferral op with
                | None => (h, Panic)
                | Some ref => Search_loop l h rest (addReferral result ref)
                end
              else Search_loop l h rest result
          end
      end
  end.

Definition emptyResult : SearchResult :=
  {| Entries := []; Referrals := []; ResControls := [] |}.

(** [Search]: a failed [doRequest] returns no result; [finishMessage] is
    deferred and runs on every way out of the loop. *)
Definition Search (w : World) (searchRequest : SearchRequest)
    : World * Res (option SearchResult * option error) :=
  match doRequest w searchRequest with
  | (w1, Panic) => (w1, Panic)
  | (w1, OutOfFuel) => (w1, OutOfFuel)
  | (w1, Ret (inl err)) => (w1, Ret (None, Some err))
  | (w1, Ret (inr msgCtx)) =>
      let '(h2, r) := Search_loop (conn w1) (heap w1) (responses msgCtx) emptyResult in
      let w2 := {| conn := finishMessage (conn w1) msgCtx; heap := h2 |} in
      match r with
      | Ret (result, err) => (w2, Ret (Some result, err))
      | Panic => (w2, Panic)
      | OutOfFuel => (w2, OutOfFuel)
      end
  end.

(** *** The consumer channel *)

(** A [chan *SearchResult]: what was sent and not yet taken by the
    consumer, and whether the channel is closed. *)
Record Chan := mkChan {
  queue : list SearchResult;
  closed : bool
}.

(** [ch <- v]: a send on a closed channel panics ([None]). *)
Definition chan_send (ch : Chan) (v : SearchResult) : option Chan :=
  if closed ch then None
  else Some {| queue := queue ch ++ [v]; closed := false |}.

(** [close(ch)]: closing a closed channel panics ([None]). *)
Definition chan_close (ch : Chan) : option Chan :=
  if closed ch then None
  else Some {| queue := queue ch; closed := true |}.

(** The [for !foundSearchResultDone] loop of [SearchWithChannel]. *)
Fixpoint SearchWithChannel_loop (l : Conn) (h : Heap) (inbound : list PacketResponse)
    (ch : Chan) : Heap * Chan * Res (option error) :=
  match inbound with
  | [] => (h, ch, Ret (Some (NewError ErrorNetwork "ldap: response channel closed")))
  | GotError err :: _ => (h, ch, Ret (Some err))
  | GotPacket packet :: rest =>
      match debugPacket l packet with
      | Some err => (h, ch, Ret (Some err))
      | None =>
          match Children packet !! 1%nat with
          | None => (h, ch, Panic)
          | Some op =>
              if Tag op =? ApplicationSearchResultEntry then
                match decodeEntry op with
                | None => (h, ch, Panic)
                | Some entry =>
                    match chan_send ch {| Entries := [entry]; Referrals := [];
                                          ResControls := [] |} with
                    | None => (h, ch, Panic)
                    | Some ch1 => SearchWithChannel_loop l h rest ch1
                    end
                end
              else if Tag op =? ApplicationSearchResultDone then
                match GetLDAPError packet with
                | Some err => (h, ch, Ret (Some err))
                | None =>
                    if (length (Children packet) =? 3)%nat then
                      match Children packet !! 2%nat with
                      | None => (h, ch, Panic)
                      | Some cs =>
                          match decodeControls h (Children cs) [] with
                          | (h1, _, Some err) => (h1, ch, Ret (Some err))
                          | (h1, controls, None) =>
                              match chan_send ch {| Entries := []; Referrals := [];
                                                    ResControls := controls |} with
                              | None => (h1, ch, Panic)
                              | Some ch1 => (h1, ch1, Ret None)
                              end
                          end
                      end
                    else (h, ch, Ret None)
                end
              else if Tag op =? ApplicationSearchResultReference then
                match decodeReferral op with
                | None => (h, ch, Panic)
                | Some ref =>
                    match chan_send ch {| Entries := []; Referrals := [ref];
                                          ResControls := [] |} with
                    | None => (h, ch, Panic)
                    | Some ch1 => SearchWithChannel_loop l h rest ch1
                    end
                end
              else SearchWithChannel_loop l h rest ch
          end
      end
  end.

(** The body of [SearchWithChannel] after [defer close(ch)]. *)
Definition SearchWithChannel_body (w : World) (searchRequest : SearchRequest) (ch : Chan)
    : World * Chan * Res (option error) :=
  let '(l1, msgID) := nextMessageID (conn w) in
  match appendTo (heap w) searchRequest msgID with
  | Panic => ({| conn := l1; heap := heap w |}, ch, Panic)
  | OutOfFuel => ({| conn := l1; heap := heap w |}, ch, OutOfFuel)
  | Ret (inl err) => ({| conn := l1; heap := heap w |}, ch, Ret (Some err))
  | Ret (inr packet) =>
      match sendMessage l1 packet with
      | (l2, inl err) => ({| conn := l2; heap := heap w |}, ch, Ret (Some err))
      | (l2, inr msgCtx) =>
          let '(h3, ch3, r) := SearchWithChannel_loop l2 (heap w) (responses msgCtx) ch in
          ({| conn := finishMessage l2 msgCtx; heap := h3 |}, ch3, r)
      end
  end.

(** [SearchWithChannel]: a nil channel is [None]; [close(ch)] is deferred
    and runs on every way out of the body, a panic included. *)
Definition SearchWithChannel (w : World) (searchRequest : SearchRequest)
    (ch : option Chan) : World * option Chan * Res (option error) :=
  match ch with
  | None =>
      (w, None, Ret (Some (NewError ErrorUsage "ldap: SearchWithChannel got nil channel")))
  | Some c =>
      let '(w1, c1, r) := SearchWithChannel_body w searchRequest c in
      match chan_close c1 with
      | Some c2 => (w1, Some c2, r)
      | None => (w1, Some c1, Panic)
      end
  end.
End Search.

Section Paging.
Context `{Codec} `{Network}.

(** The first part of [SearchWithPaging]: find or add the paging control.
    [inl] is the early [return nil, err]; [inr] is the request (with the
    control appended when it had none), the store and [pagingControl]. *)
Definition pagingSetup (h : Heap) (searchRequest : SearchRequest) (pagingSize : Z)
    : Res (error + (Heap * SearchRequest * loc)) :=
  match FindControl (Controls searchRequest) ControlTypePaging with
  | None =>
      let '(h1, pagingControl) := NewControlPaging h pagingSize in
      Ret (inr (h1,
                {| BaseDN := BaseDN searchRequest;
                   Scope := Scope searchRequest;
                   DerefAliases := DerefAliases searchRequest;
                   SizeLimit := SizeLimit searchRequest;
                   TimeLimit := TimeLimit searchRequest;
                   TypesOnly := TypesOnly searchRequest;
                   Filter := Filter searchRequest;
                   ReqAttributes := ReqAttributes searchRequest;
                   Controls := Controls searchRequest ++ [PControlPaging pagingControl] |},
                pagingControl))
  | Some (PControlPaging castControl) =>
      match h !! castControl with
      | None => Panic
      | Some c =>
          if negb (PagingSize c =? pagingSize)
          then Ret (inl (ErrPagingSizeConflict (PagingSize c) pagingSize))
          else Ret (inr (h, searchRequest, castControl))
      end
  | Some control => Ret (inl (ErrExpectedControlPaging control))
  end.

Definition appendResult (searchResult result : SearchResult) : SearchResult :=
  {| Entries := Entries searchResult ++ Entries result;
     Referrals := Referrals searchResult ++ Referrals result;
     ResControls := ResControls searchResult ++ ResControls result |}.

(** How the [for] loop of [SearchWithPaging] is left: by a [return], or
    by a [break] with the value [pagingControl] has then. *)
Inductive LoopExit :=
| Returned (searchResult : SearchResult) (err : error)
| Broke (pagingControl : option loc) (searchResult : SearchResult).

(** The [for] loop of [SearchWithPaging]; [fuel] bounds the number of
    pages, since a server may hand out cookies for ever. *)
Fixpoint SearchWithPaging_loop (fuel : nat) (w : World) (searchRequest : SearchRequest)
    (pagingControl : loc) (searchResult : SearchResult) : World * Res LoopExit :=
  match fuel with
  | O => (w, OutOfFuel)
  | S fuel' =>
      match Search w searchRequest with
      | (w1, Panic) => (w1, Panic)
      | (w1, OutOfFuel) => (w1, OutOfFuel)
      | (w1, Ret (_, Some err)) => (w1, Ret (Returned searchResult err))
      | (w1, Ret (None, None)) =>
          (w1, Ret (Returned searchResult
                      (NewError ErrorNetwork "ldap: packet not received")))
      | (w1, Ret (Some result, None)) =>
          let searchResult' := appendResult searchResult result in
          match FindControl (ResControls result) ControlTypePaging with
          | None => (w1, Ret (Broke None searchResult'))
          | Some (PControlPaging pagingResult) =>
              match heap w1 !! pagingResult with
              | None => (w1, Panic)
              | Some c =>
                  let cookie := Cookie c in
                  if (length cookie =? 0)%nat then (w1, Ret (Broke None searchResult'))
                  else
                    match SetCookie (heap w1) pagingControl cookie with
                    | None => (w1, Panic)
                    | Some h2 =>
                        SearchWithPaging_loop fuel' {| conn := conn w1; heap := h2 |}
                          searchRequest pagingControl searchResult'
                    end
              end
          | Some _ => (w1, Panic)
          end
      end
  end.

(** [pagingControl.PagingSize = 0] *)
Definition setPagingSize (h : Heap) (p : loc) (size : Z) : option Heap :=
  match h !! p with
  | None => None
  | Some c => Some (<[p := {| PagingSize := size; Cookie := Cookie c |}]> h)
  end.

(** What follows the loop: the abandon page when [pagingControl] is not
    nil. *)
Definition SearchWithPaging_abandon (w : World) (searchRequest : SearchRequest)
    (pagingControl : option loc) (searchResult : SearchResult)
    : World * Res (option SearchResult * option error) :=
  match pagingControl with
  | None => (w, Ret (Some searchResult, None))
  | Some p =>
      match setPagingSize (heap w) p 0 with
      | None => (w, Panic)
      | Some h1 =>
          match Search {| conn := conn w; heap := h1 |} searchRequest with
          | (w2, Ret (_, Some err)) => (w2, Ret (Some searchResult, Some err))
          | (w2, Ret (_, None)) => (w2, Ret (Some searchResult, None))
          | (w2, Panic) => (w2, Panic)
          | (w2, OutOfFuel) => (w2, OutOfFuel)
          end
      end
  end.

(** [SearchWithPaging].  The request is reached through a pointer: the
    request as the call leaves it is returned with the world. *)
Definition SearchWithPaging (fuel : nat) (w : World) (searchRequest : SearchRequest)
    (pagingSize : Z)
    : World * SearchRequest * Res (option SearchResult * option error) :=
  match pagingSetup (heap w) searchRequest pagingSize with
  | Panic => (w, searchRequest, Panic)
  | OutOfFuel => (w, searchRequest, OutOfFuel)
  | Ret (inl err) => (w, searchRequest, Ret (None, Some err))
  | Ret (inr (h1, searchRequest1, pagingControl)) =>
      match SearchWithPaging_loop fuel {| conn := conn w; heap := h1 |}
              searchRequest1 pagingControl emptyResult with
      | (w2, Panic) => (w2, searchRequest1, Panic)
      | (w2, OutOfFuel) => (w2, searchRequest1, OutOfFuel)
      | (w2, Ret (Returned searchResult err)) =>
          (w2, searchRequest1, Ret (Some searchResult, Some err))
      | (w2, Ret (Broke pagingControl' searchResult)) =>
          let '(w3, r) :=
            SearchWithPaging_abandon w2 searchRequest1 pagingControl' searchResult in
          (w3, searchRequest1, r)
      end
  end.
End Paging.

(** ** Vocabulary of the statements *)

Section Vocabulary.
Context `{Codec} `{Network}.

(** The operation PDU of an inbound envelope, [packet.Children[1]]. *)
Definition operation (packet : Packet) : option Packet := Children packet !! 1%nat.

(** The entry a PDU carries, when it is a SearchResultEntry. *)
Definition receivedEntry (packet : Packet) : option Entry :=
  op ← operation packet;
  if Tag op =? ApplicationSearchResultEntry then decodeEntry op else None.

(** The entries of the SearchResultEntry PDUs of a sequence, in the order
    of arrival. *)
Definition receivedEntries (pdus : list Packet) : list Entry :=
  omap receivedEntry pdus.

(** The referral a PDU delivers, when it is a SearchResultReference: its
    first URL. *)
Definition deliveredReferral (packet : Packet) : option string :=
  op ← operation packet;
  if Tag op =? ApplicationSearchResultReference then decodeReferral op else None.

Definition deliveredReferrals (pdus : list Packet) : list string :=
  omap deliveredReferral pdus.

(** The URLs a SearchResultReference PDU carries, all of them. *)
Definition carriedURLs (packet : Packet) : list string :=
  match operation packet with
  | Some op =>
      if Tag op =? ApplicationSearchResultReference
      then omap string_value (Children op) else []
  | None => []
  end.

(** The record [SearchWithChannel] sends for a PDU that is not the
    SearchResultDone: one entry, or one referral, or nothing. *)
Definition streamedRecord (packet : Packet) : option SearchResult :=
  op ← operation packet;
  if Tag op =? ApplicationSearchResultEntry then
    entry ← decodeEntry op;
    Some {| Entries := [entry]; Referrals := []; ResControls := [] |}
  else if Tag op =? ApplicationSearchResultReference then
    ref ← decodeReferral op;
    Some {| Entries := []; Referrals := [ref]; ResControls := [] |}
  else None.

(** A PDU that is read without error, is not the SearchResultDone, and is
    well formed for its tag: an entry with a DN and attributes, a
    reference with a first URL. *)
Definition intermediatePDU (l : Conn) (packet : Packet) : bool :=
  match debugPacket l packet, operation packet with
  | None, Some op =>
      if Tag op =? ApplicationSearchResultEntry then bool_decide (is_Some (decodeEntry op))
      else if Tag op =? ApplicationSearchResultReference
           then bool_decide (is_Some (decodeReferral op))
      else negb (Tag op =? ApplicationSearchResultDone)
  | _, _ => false
  end.

(** A PDU that is read without error and is the SearchResultDone. *)
Definition searchDonePDU (l : Conn) (packet : Packet) : bool :=
  match debugPacket l packet, operation packet with
  | None, Some op => Tag op =? ApplicationSearchResultDone
  | _, _ => false
  end.

(** Where the loop over the inbound queue stops: the queue is closed, the
    response is an error, or the PDU is not an intermediate one. *)
Definition endsStream (l : Conn) (inbound : list PacketResponse) : bool :=
  match inbound with
  | [] => true
  | GotError _ :: _ => true
  | GotPacket packet :: _ => negb (intermediatePDU l packet)
  end.

(** The result of the buffered search after one more PDU that is not the
    SearchResultDone. *)
Definition absorbed (result : SearchResult) (packet : Packet) : SearchResult :=
  match streamedRecord packet with
  | Some r => appendResult result r
  | None => result
  end.

(** The paging cookie of a page: empty when the result has no paging
    control. *)
Definition returnedCookie (h : Heap) (result : SearchResult) : option (list byte) :=
  match FindControl (ResControls result) ControlTypePaging with
  | None => Some []
  | Some (PControlPaging p) => Cookie <$> h !! p
  | Some _ => None
  end.

(** Paging as section 4.5 words it: the same request is issued page after
    page, the results accumulate, each returned cookie is copied into the
    control; the run ends at the first page whose search fails, or whose
    cookie is empty.  [PagedRun req pc w acc w' exit]: from world [w] with
    [acc] accumulated, the run ends in world [w'] with [exit]. *)
Inductive PagedRun (req : SearchRequest) (pc : loc)
    : World -> SearchResult -> World -> LoopExit -> Prop :=
| run_fails w acc w1 r err :
    Search w req = (w1, Ret (r, Some err)) ->
    PagedRun req pc w acc w1 (Returned acc err)
| run_last w acc w1 result :
    Search w req = (w1, Ret (Some result, None)) ->
    returnedCookie (heap w1) result = Some [] ->
    PagedRun req pc w acc w1 (Broke None (appendResult acc result))
| run_next w acc w1 result cookie h2 w' exit :
    Search w req = (w1, Ret (Some result, None)) ->
    returnedCookie (heap w1) result = Some cookie ->
    cookie <> [] ->
    SetCookie (heap w1) pc cookie = Some h2 ->
    PagedRun req pc {| conn := conn w1; heap := h2 |} (appendResult acc result) w' exit ->
    PagedRun req pc w acc w' exit.
End Vocabulary.

(** ** The raw accessors of an entry *)

Section RawAccessors.
Variable EqualFold : string -> string -> bool.

(** [GetRawAttributeValues]: as [GetAttributeValues], on [ByteValues]. *)
Fixpoint GetRawAttributeValues_loop (attrs : list EntryAttribute) (attribute : string)
    : list (list byte) :=
  match attrs with
  | [] => []
  | attr :: rest =>
      if String.eqb (Name attr) attribute then ByteValues attr
      else GetRawAttributeValues_loop rest attribute
  end.

Definition GetRawAttributeValues (e : Entry) (attribute : string) : list (list byte) :=
  GetRawAttributeValues_loop (Attributes e) attribute.

(** [GetEqualFoldRawAttributeValues] calls [strings.EqualFold(attr.Name,
    attribute)], the arguments in the other order than
    [GetEqualFoldAttributeValues]. *)
Fixpoint GetEqualFoldRawAttributeValues_loop (attrs : list EntryAttribute)
    (attribute : string) : list (list byte) :=
  match attrs with
  | [] => []
  | attr :: rest =>
      if EqualFold (Name attr) attribute then ByteValues attr
      else GetEqualFoldRawAttributeValues_loop rest attribute
  end.

Definition GetEqualFoldRawAttributeValues (e : Entry) (attribute : string)
    : list (list byte) :=
  GetEqualFoldRawAttributeValues_loop (Attributes e) attribute.

Definition GetRawAttributeValue (e : Entry) (attribute : string) : list byte :=
  let values := GetRawAttributeValues e attribute in
  match values with
  | [] => []
  | v :: _ => v
  end.

Definition GetEqualFoldRawAttributeValue (e : Entry) (attribute : string) : list byte :=
  let values := GetEqualFoldRawAttributeValues e attribute in
  match values with
  | [] => []
  | v :: _ => v
  end.
End RawAccessors.

(** ** Unmarshal: filling the fields of a struct from an entry *)

(** [strings.Split(s, sep)] for a separator of one byte: the pieces of [s]
    between the separators, at least one piece. *)
Fixpoint Split (sep : Ascii.ascii) (s : string) : list string :=
  match s with
  | EmptyString => [EmptyString]
  | String c rest =>
      if Ascii.eqb c sep then EmptyString :: Split sep rest
      else
        match Split sep rest with
        | [] => [String c EmptyString]
        | piece :: pieces => String c piece :: pieces
        end
  end.

(** The cases of the type switch on [fv.Interface()]: the dynamic type of
    the value is [[]string], [string], [[]byte], [int], [int64], or
    anything else (a nil interface included). *)
Inductive DynamicType :=
| DynStrings
| DynString
| DynBytes
| DynInt
| DynInt64
| DynOther.

(** What [Unmarshal] reads of a field through [reflect]: the type and the
    value together.  [FVNamedString] is a named type of kind string
    ([SetString] accepts it, the type switch does not); [FVInterface] is a
    field of an interface type ([interface{}], say) with the dynamic type
    of the value it holds: [fv.Interface()] is this value, the kind of
    [fv] is [Interface]; [FVOther] is any other type, its value is never
    read. *)
Inductive FieldValue :=
| FVString (s : string)
| FVStrings (l : list string)
| FVBytes (b : list byte)
| FVInt (n : Z)
| FVInt64 (n : Z)
| FVNamedString (type : string) (s : string)
| FVInterface (type : string) (dynamic : DynamicType)
| FVOther (type : string).

(** A field of the struct: [reflect.StructField] (name, package path, the
    value of the [ldap] key of the tag when the tag has one) and the
    [reflect.Value] of the field. *)
Record StructField := mkStructField {
  FieldName : string;
  PkgPath : string;
  TagLookup : option string;
  FieldVal : FieldValue
}.

(** The argument [i interface{}] of [Unmarshal], as [reflect] sees it: not
    a pointer (with its kind), a pointer to a struct, a pointer to
    something else (with the kind of the target). *)
Inductive UnmarshalTarget :=
| NotPointer (kind : string)
| PointerToStruct (fields : list StructField)
| PointerToOther (kind : string).

(** The errors of [Unmarshal], one constructor per [fmt.Errorf] format. *)
Inductive UnmarshalError :=
| ErrExpectedPointer (kind : string)
| ErrExpectedStruct (kind : string)
| ErrParseInt (value : string)
| ErrFieldType (type : string).

(** [decoderTagName] *)
Definition decoderTagName : string := "ldap".

(** [readTag]: without the [ldap] key, the name of the field; with it, the
    first piece of its value, and whether it has exactly two pieces of
    which the second is [omitempty]. *)
Definition readTag (f : StructField) : string * bool :=
  match TagLookup f with
  | None => (FieldName f, false)
  | Some val =>
      let opts := Split (Ascii.ascii_of_nat 44) val in   (* the comma *)
      let omit :=
        if (length opts =? 2)%nat
        then String.eqb (nth 1 opts EmptyString) "omitempty"
        else false in
      (nth 0 opts EmptyString, omit)
  end.

Definition setFieldVal (f : StructField) (v : FieldValue) : StructField :=
  {| FieldName := FieldName f; PkgPath := PkgPath f; TagLookup := TagLookup f;
     FieldVal := v |}.

(** The type of a field as [%v] prints it. *)
Definition typeName (v : FieldValue) : string :=
  match v with
  | FVString _ => "string"
  | FVStrings _ => "[]string"
  | FVBytes _ => "[]uint8"
  | FVInt _ => "int"
  | FVInt64 _ => "int64"
  | FVNamedString type _ => type
  | FVInterface type _ => type
  | FVOther type => type
  end.

(** The dynamic type of [fv.Interface()], on which [Unmarshal] switches:
    the type of the field, or, for a field of an interface type, the type
    of the value it holds. *)
Definition dynamicType (v : FieldValue) : DynamicType :=
  match v with
  | FVString _ => DynString
  | FVStrings _ => DynStrings
  | FVBytes _ => DynBytes
  | FVInt _ => DynInt
  | FVInt64 _ => DynInt64
  | FVNamedString _ _ => DynOther
  | FVInterface _ dynamic => dynamic
  | FVOther _ => DynOther
  end.

Section Unmarshal.
(** [strconv.ParseInt(s, 10, 64)]: the integer, or no integer when [s] is
    not a decimal integer of 64 bits. *)
Variable ParseInt : string -> option Z.

(** What one turn of the loop does to a field: it is left as it is
    ([continue]), it is set, the call returns an error, or [reflect]
    panics.  [SetString] panics on a field that is not of kind string;
    [reflect.Append], [SetBytes] and [SetInt] panic on a field of kind
    [Interface], whatever it holds. *)
Definition Unmarshal_field (e : Entry) (f : StructField)
    : Res (UnmarshalError + StructField) :=
  if negb (String.eqb (PkgPath f) "") then Ret (inr f)
  else
    let '(fieldTag, _) := readTag f in
    if String.eqb fieldTag "dn" then
      match FieldVal f with
      | FVString _ => Ret (inr (setFieldVal f (FVString (DN e))))
      | FVNamedString type _ => Ret (inr (setFieldVal f (FVNamedString type (DN e))))
      | _ => Panic
      end
    else
      let values := GetAttributeValues e fieldTag in
      match values with
      | [] => Ret (inr f)
      | first :: _ =>
          match dynamicType (FieldVal f) with
          | DynStrings =>
              match FieldVal f with
              | FVStrings l => Ret (inr (setFieldVal f (FVStrings (l ++ values))))
              | _ => Panic
              end
          | DynString =>
              match FieldVal f with
              | FVString _ => Ret (inr (setFieldVal f (FVString first)))
              | _ => Panic
              end
          | DynBytes =>
              match FieldVal f with
              | FVBytes _ =>
                  Ret (inr (setFieldVal f (FVBytes (String.list_byte_of_string first))))
              | _ => Panic
              end
          | DynInt | DynInt64 =>
              match ParseInt first with
              | None => Ret (inl (ErrParseInt first))
              | Some intVal =>
                  match FieldVal f with
                  | FVInt _ => Ret (inr (setFieldVal f (FVInt intVal)))
                  | FVInt64 _ => Ret (inr (setFieldVal f (FVInt64 intVal)))
                  | _ => Panic
                  end
              end
          | DynOther => Ret (inl (ErrFieldType (typeName (FieldVal f))))
          end
      end.

(** The loop over the fields: the struct is written in place, so the
    fields set before an error or a panic stay set. *)
Fixpoint Unmarshal_fields (e : Entry) (fields : list StructField)
    : list StructField * Res (option UnmarshalError) :=
  match fields with
  | [] => ([], Ret None)
  | f :: rest =>
      match Unmarshal_field e f with
      | Ret (inr f') =>
          let '(rest', r) := Unmarshal_fields e rest in (f' :: rest', r)
      | Ret (inl err) => (f :: rest, Ret (Some err))
      | Panic => (f :: rest, Panic)
      | OutOfFuel => (f :: rest, OutOfFuel)
      end
  end.

(** [Unmarshal]: the target as the call leaves it, and the error. *)
Definition Unmarshal (e : Entry) (i : UnmarshalTarget)
    : UnmarshalTarget * Res (option UnmarshalError) :=
  match i with
  | NotPointer kind => (i, Ret (Some (ErrExpectedPointer kind)))
  | PointerToOther kind => (i, Ret (Some (ErrExpectedStruct kind)))
  | PointerToStruct fields =>
      let '(fields', r) := Unmarshal_fields e fields in
      (PointerToStruct fields', r)
  end.
End Unmarshal.

(** [NewSearchRequest] *)
Definition NewSearchRequest (BaseDN : string) (Scope DerefAliases SizeLimit TimeLimit : Z)
    (TypesOnly : bool) (Filter : string) (Attributes : list string)
    (Controls : list Control) : SearchRequest :=
  {| BaseDN := BaseDN; Scope := Scope; DerefAliases := DerefAliases;
     SizeLimit := SizeLimit; TimeLimit := TimeLimit; TypesOnly := TypesOnly;
     Filter := Filter; ReqAttributes := Attributes; Controls := Controls |}.

(** ** Paging by hand, as the example does it *)

(** The scope and alias choices of [search.go]. *)
Definition ScopeBaseObject : Z := 0.
Definition ScopeSingleLevel : Z := 1.
Definition ScopeWholeSubtree : Z := 2.
Definition NeverDerefAliases : Z := 0.
Definition DerefInSearching : Z := 1.
Definition DerefFindingBaseObj : Z := 2.
Definition DerefAlways : Z := 3.

Section ManualPaging.
Context `{Codec} `{Network}.

(** How [ExampleControlPaging_manualPaging] ends: [log.Fatalf] on the error
    of a search, or the end of the loop; [pages] are the responses the
    example has in hand, one after the other ("do something with the
    response entries"). *)
Inductive ManualExit :=
| Fatal (pages : list SearchResult) (err : error)
| Finished (pages : list SearchResult).

(** The [for] loop of the example: a new request around the same controls
    for each page; the loop goes on while the response holds a
    [*ControlPaging] with a cookie that is not empty. *)
Fixpoint manualPaging_loop (fuel : nat) (w : World) (searchBase filter : string)
    (attributes : list string) (controls : list Control) (pagingControl : loc)
    (pages : list SearchResult) : World * Res ManualExit :=
  match fuel with
  | O => (w, OutOfFuel)
  | S fuel' =>
      let request :=
        NewSearchRequest searchBase ScopeWholeSubtree DerefAlways 0 0 false filter
          attributes controls in
      match Search w request with
      | (w1, Panic) => (w1, Panic)
      | (w1, OutOfFuel) => (w1, OutOfFuel)
      | (w1, Ret (_, Some err)) => (w1, Ret (Fatal pages err))
      | (w1, Ret (None, None)) => (w1, Panic)
      | (w1, Ret (Some response, None)) =>
          let pages' := pages ++ [response] in
          match FindControl (ResControls response) ControlTypePaging with
          | Some (PControlPaging ctrl) =>
              match heap w1 !! ctrl with
              | None => (w1, Panic)
              | Some c =>
                  if negb (length (Cookie c) =? 0)%nat then
                    match SetCookie (heap w1) pagingControl (Cookie c) with
                    | None => (w1, Panic)
                    | Some h2 =>
                        manualPaging_loop fuel' {| conn := conn w1; heap := h2 |}
                          searchBase filter attributes controls pagingControl pages'
                    end
                  else (w1, Ret (Finished pages'))
              end
          | _ => (w1, Ret (Finished pages'))
          end
      end
  end.

(** [ExampleControlPaging_manualPaging], on a connection that is open. *)
Definition manualPaging (fuel : nat) (w : World) : World * Res ManualExit :=
  let pageSize := 32 in
  let searchBase := "dc=example,dc=com" in
  let filter := "(objectClass=group)" in
  let '(h1, pagingControl) := NewControlPaging (heap w) pageSize in
  let attributes := [] in
  let controls := [PControlPaging pagingControl] in
  manualPaging_loop fuel {| conn := conn w; heap := h1 |} searchBase filter attributes
    controls pagingControl [].
End ManualPaging.

(** ** More vocabulary *)

(** The records of a stream, or the pages of a paged search, put together
    in their order. *)
Definition collect (records : list SearchResult) : SearchResult :=
  foldl appendResult emptyResult records.

(** An entry whose attributes have as many raw values as values. *)
Definition aligned (e : Entry) : Prop :=
  Forall (fun a => length (ByteValues a) = length (Values a)) (Attributes e).

Section MoreVocabulary.
Context `{Codec}.

(** A PDU that is read without error and whose operation is none of
    SearchResultEntry, SearchResultDone, SearchResultReference (an
    IntermediateResponse, say). *)
Definition ignoredPDU (l : Conn) (packet : Packet) : bool :=
  match debugPacket l packet, operation packet with
  | None, Some op =>
      negb (Tag op =? ApplicationSearchResultEntry) &&
      negb (Tag op =? ApplicationSearchResultDone) &&
      negb (Tag op =? ApplicationSearchResultReference)
  | _, _ => false
  end.

(** The inbound queue without the responses that are ignored PDUs. *)
Definition withoutIgnored (l : Conn) (inbound : list PacketResponse)
    : list PacketResponse :=
  List.filter (fun r => match r with
                        | GotPacket packet => negb (ignoredPDU l packet)
                        | GotError _ => true
                        end) inbound.
End MoreVocabulary.

(** Whether the byte [c] occurs in [s]. *)
Fixpoint occurs (c : Ascii.ascii) (s : string) : bool :=
  match s with
  | EmptyString => false
  | String a rest => Ascii.eqb a c || occurs c rest
  end.

(** The comma that separates the options of a struct tag. *)
Definition comma : Ascii.ascii := Ascii.ascii_of_nat 44.

(** The types [Unmarshal] fills: those of the cases of its type switch. *)
Definition supportedType (v : FieldValue) : bool :=
  match v with
  | FVString _ | FVStrings _ | FVBytes _ | FVInt _ | FVInt64 _ => true
  | FVNamedString _ _ | FVInterface _ _ | FVOther _ => false
  end.

(** The types of kind string, which [SetString] accepts. *)
Definition stringKind (v : FieldValue) : bool :=
  match v with
  | FVString _ | FVNamedString _ _ => true
  | _ => false
  end.

(** A record that holds one entry and nothing else, or one referral and
    nothing else. *)
Definition itemRecord (rec : SearchResult) : Prop :=
  (exists entry, rec = {| Entries := [entry]; Referrals := []; ResControls := [] |}) \/
  (exists ref, rec = {| Entries := []; Referrals := [ref]; ResControls := [] |}).

(** A record that holds controls only. *)
Definition controlsRecord (rec : SearchResult) : Prop :=
  exists controls, rec = {| Entries := []; Referrals := []; ResControls := controls |}.

(** An envelope that carries a paging control of the given size. *)
Definition carriesPagingSize (size : Z) (env : Envelope) : Prop :=
  exists cs cookie, envControls env = Some cs /\ WirePaging size cookie ∈ cs.

(** An envelope that carries a paging control with the given cookie. *)
Definition carriesCookie (cookie : list byte) (env : Envelope) : Prop :=
  exists cs size, envControls env = Some cs /\ WirePaging size cookie ∈ cs.

(** The result a loop exit of [SearchWithPaging] holds. *)
Definition exitResult (exit : LoopExit) : SearchResult :=
  match exit with
  | Returned searchResult _ => searchResult
  | Broke _ searchResult => searchResult
  end.

(** The same exit with another result. *)
Definition mapExit (f : SearchResult -> SearchResult) (exit : LoopExit) : LoopExit :=
  match exit with
  | Returned searchResult err => Returned (f searchResult) err
  | Broke pagingControl searchResult => Broke pagingControl (f searchResult)
  end.

(** ** Vocabulary of the statements on whole calls *)

(** The record [SearchWithChannel] sends for a referral. *)
Definition referralRecord (ref : string) : SearchResult :=
  {| Entries := []; Referrals := [ref]; ResControls := [] |}.

(** The record [SearchWithChannel] sends for the controls of the
    SearchResultDone. *)
Definition controlsOnly (controls : list Control) : SearchResult :=
  {| Entries := []; Referrals := []; ResControls := controls |}.

(** A record that holds a referral. *)
Definition hasReferral (rec : SearchResult) : bool :=
  negb (length (Referrals rec) =? 0)%nat.

(** The first URL of each SearchResultReference PDU of a sequence that
    carries a URL, in the order of arrival. *)
Definition firstURLs (pdus : list Packet) : list string :=
  omap (fun packet => head (carriedURLs packet)) pdus.

(** The type of a control on the wire. *)
Definition wireControlType (c : ControlWire) : string :=
  match c with
  | WirePaging _ _ => ControlTypePaging
  | WireString ty _ _ => ty
  end.

(** The control of an envelope that answers to the paging OID: the first
    one of this type, as [FindControl] looks controls up. *)
Definition pagingControlOf (env : Envelope) : option ControlWire :=
  cs ← envControls env;
  List.find (fun c => String.eqb (wireControlType c) ControlTypePaging) cs.

(** An envelope whose paging control has the given size. *)
Definition requestsPagingSize (size : Z) (env : Envelope) : Prop :=
  exists cookie, pagingControlOf env = Some (WirePaging size cookie).

(** An envelope that carries no paging control of another size. *)
Definition onlyPagingSize (size : Z) (env : Envelope) : Prop :=
  forall cs size' cookie,
    envControls env = Some cs -> WirePaging size' cookie ∈ cs -> size' = size.

Section CallVocabulary.
Context `{Codec} `{Network}.

(** Where the loop over the inbound queue returns: the queue is closed,
    the response is an error, reading the packet fails, or the PDU is the
    SearchResultDone. *)
Definition returnsAt (l : Conn) (inbound : list PacketResponse) : bool :=
  match inbound with
  | [] => true
  | GotError _ :: _ => true
  | GotPacket packet :: _ =>
      bool_decide (is_Some (debugPacket l packet)) || searchDonePDU l packet
  end.




(** The inbound queue starts with a SearchResultDone that reports success
    and has a third child whose controls all decode: from the store [h]
    they decode to [controls] and leave the store [h1]. *)
Definition doneDecodes (l : Conn) (h : Heap) (inbound : list PacketResponse)
    (h1 : Heap) (controls : list Control) : Prop :=
  exists done rest cs,
    inbound = GotPacket done :: rest /\
    searchDonePDU l done = true /\
    GetLDAPError done = None /\
    length (Children done) = 3%nat /\
    Children done !! 2%nat = Some cs /\
    decodeControls h (Children cs) [] = (h1, controls, None).

End CallVocabulary.

(** ** A scripted server, for the examples *)

Module Fixture.
Definition str (s : string) : Packet :=
  {| Tag := 4; Value := VString s; ByteValue := String.list_byte_of_string s;
     Children := [] |}.

Definition int (n : Z) : Packet :=
  {| Tag := 2; Value := VInt n; ByteValue := []; Children := [] |}.

Definition seq (tag : Z) (children : list Packet) : Packet :=
  {| Tag := tag; Value := VNil; ByteValue := []; Children := children |}.

Definition attributePDU (name : string) (values : list string) : Packet :=
  seq 16 [str name; seq 17 (str <$> values)].

(** LDAPMessage envelopes as the server writes them. *)
Definition entryPDU (dn : string) (attrs : list Packet) : Packet :=
  seq 16 [int 1; seq 4 [str dn; seq 16 attrs]].

Definition referencePDU (urls : list string) : Packet :=
  seq 16 [int 1; seq 19 (str <$> urls)].

Definition donePDU (code : Z) : Packet :=
  seq 16 [int 1; seq 5 [int code; str ""; str ""]].

Definition pagingPDU (size : Z) (cookie : string) : Packet :=
  seq 16 [str ControlTypePaging; seq 16 [int size; str cookie]].

Definition doneWithControls (code : Z) (controls : list Packet) : Packet :=
  seq 16 [int 1; seq 5 [int code; str ""; str ""]; seq 0 controls].

(** Result code 0 is success, any other code an error. *)
Definition getLDAPError (packet : Packet) : option error :=
  match Children packet !! 1%nat ≫= (fun op => Children op !! 0%nat) with
  | Some {| Value := VInt 0 |} => None
  | Some {| Value := VInt code |} => Some (NewError (ErrorResult code) "")
  | _ => Some (NewError ErrorNetwork "Invalid packet format")
  end.

Definition decodeValue (child : Packet) : error + DecodedControl :=
  match Children child with
  | [{| Value := VString oid |}; {| Children := [ {| Value := VInt size |}; cookie ] |}] =>
      if String.eqb oid ControlTypePaging
      then inr (DecPaging {| PagingSize := size; Cookie := ByteValue cookie |})
      else inr (DecString oid false "")
  | {| Value := VString oid |} :: _ => inr (DecString oid false "")
  | _ => inl (NewError ErrorDecoding "invalid control")
  end.

Definition codec : Codec :=
  {| CompileFilter := fun filter =>
       if String.eqb filter "" then inl (NewError ErrorFilterCompile "ldap: filter is empty")
       else inr (str filter);
     GetLDAPError := getLDAPError;
     decodeControlValue := decodeValue;
     addLDAPDescriptions := fun _ => None |}.

(** A server that answers every request with the same responses. *)
Definition always (rs : list PacketResponse) : Network :=
  {| respond := fun _ => Responses rs |}.

(** A server that answers the n-th request with the n-th reply of a
    script, and fails the write when the script is over. *)
Definition scripted (script : list Reply) : Network :=
  {| respond := fun history =>
       default (SendError (NewError ErrorNetwork "ldap: connection closed"))
               (script !! pred (length history)) |}.

Definition conn0 : Conn :=
  {| messageID := 1; sent := []; finished := []; Debug := false |}.

Definition world0 : World := {| conn := conn0; heap := [] |}.

Definition request (controls : list Control) : SearchRequest :=
  {| BaseDN := "dc=x"; Scope := 2; DerefAliases := 0; SizeLimit := 0; TimeLimit := 0;
     TypesOnly := false; Filter := "(objectClass=*)"; ReqAttributes := [];
     Controls := controls |}.

Definition entryA : Packet := entryPDU "cn=a,dc=x" [attributePDU "cn" ["a"]].
Definition entryB : Packet := entryPDU "cn=b,dc=x" [attributePDU "cn" ["b"]].
Definition entryC : Packet := entryPDU "cn=c,dc=x" [attributePDU "cn" ["c"]].

Definition openChan : Chan := {| queue := []; closed := false |}.

(** A reference PDU that carries two URLs. *)
Definition twoURLs : Packet := referencePDU ["ldap://a.example/"; "ldap://b.example/"].

Definition readError : error := NewError ErrorNetwork "ldap: connection reset".

(** Two pages: the first ends with the cookie [k1]; in the second, an
    entry arrives and then reading fails. *)
Definition failingSecondPage : Network :=
  scripted
    [Responses [GotPacket entryA; GotPacket entryB;
                GotPacket (doneWithControls 0 [pagingPDU 0 "k1"])];
     Responses [GotPacket entryC; GotError readError]].

(** Two pages, the second ends with an empty cookie (scenario 4 of the
    specification). *)
Definition twoPages : Network :=
  scripted
    [Responses [GotPacket entryA; GotPacket entryB;
                GotPacket (doneWithControls 0 [pagingPDU 0 "k1"])];
     Responses [GotPacket entryC; GotPacket (doneWithControls 0 [pagingPDU 0 ""])]].

(** The world and the request once the paging control of size 2 is in
    place. *)
Definition pagedWorld : World :=
  {| conn := conn0; heap := [{| PagingSize := 2; Cookie := [] |}] |}.

Definition pagedRequest : SearchRequest := request [PControlPaging 0%nat].

Definition otherSizeWorld : World :=
  {| conn := conn0; heap := [{| PagingSize := 5; Cookie := [] |}] |}.

Definition entryWithAttributes : Entry :=
  {| DN := "cn=a,dc=x";
     Attributes :=
       [NewEntryAttribute "cn" ["a"; "alias"]; NewEntryAttribute "mail" ["a@x"]] |}.

Definition attributeMap : gmap string (list string) :=
  <["sn" := ["s"]]> (<["cn" := ["a"]]> (<["mail" := ["a@x"]]> ∅)).



(** An entry, a reference with two URLs, and the SearchResultDone with a
    paging control. *)
Definition entryReferenceDone : Network :=
  always
    [GotPacket entryA; GotPacket twoURLs;
     GotPacket (doneWithControls 0 [pagingPDU 0 ""])].

(** An entry and a reference, then reading fails. *)
Definition entryReferenceError : Network :=
  always [GotPacket entryA; GotPacket twoURLs; GotError readError].
End Fixture.

(** ** Sample values for the further properties *)

Module Sample.
(** Decimal integers of 64 bits, with an optional sign. *)
Fixpoint digits (acc : Z) (s : string) : option Z :=
  match s with
  | EmptyString => Some acc
  | String c rest =>
      let n := Z.of_N (Ascii.N_of_ascii c) in
      if (48 <=? n) && (n <=? 57) then digits (10 * acc + (n - 48)) rest else None
  end.

Definition inInt64 (n : Z) : option Z :=
  if (- 2 ^ 63 <=? n) && (n <? 2 ^ 63) then Some n else None.

Definition parseInt (s : string) : option Z :=
  match s with
  | EmptyString => None
  | String c rest =>
      if Ascii.eqb c (Ascii.ascii_of_nat 45) then        (* the minus sign *)
        match rest with
        | EmptyString => None
        | _ => digits 0 rest ≫= (fun n => inInt64 (- n))
        end
      else if Ascii.eqb c (Ascii.ascii_of_nat 43) then   (* the plus sign *)
        match rest with
        | EmptyString => None
        | _ => digits 0 rest ≫= inInt64
        end
      else digits 0 s ≫= inInt64
  end.

Definition field (name tag : string) (v : FieldValue) : StructField :=
  {| FieldName := name; PkgPath := ""; TagLookup := Some tag; FieldVal := v |}.

(** The fields of the struct of the documentation of [Unmarshal]. *)
Definition fieldDN : StructField := field "DN" "dn" (FVString "").
Definition fieldUPN : StructField :=
  field "UserPrincipalName" "userPrincipalName" (FVString "").
Definition fieldMemberOf : StructField := field "MemberOf" "memberOf" (FVStrings []).
Definition fieldID : StructField := field "ID" "id,omitempty" (FVInt 0).
Definition fieldLongID : StructField := field "LongID" "longId" (FVInt64 0).
Definition fieldData : StructField := field "Data" "data" (FVBytes []).
Definition fieldUAC : StructField :=
  field "UserAccountControl" "userPrincipalName" (FVOther "uint32").
Definition fieldCount : StructField := field "Count" "dn" (FVInt 0).
(** A field of type [interface{}] that holds a string. *)
Definition fieldAny : StructField :=
  field "Any" "userPrincipalName" (FVInterface "interface {}" DynString).
(** A field of type [interface{}] that holds an [int]. *)
Definition fieldAnyInt : StructField :=
  field "AnyInt" "id" (FVInterface "interface {}" DynInt).

Definition user : Entry :=
  {| DN := "cn=u,dc=x";
     Attributes :=
       [NewEntryAttribute "userPrincipalName" ["u@x"];
        NewEntryAttribute "memberOf" ["g1"; "g2"];
        NewEntryAttribute "id" ["7"];
        NewEntryAttribute "data" ["raw"]] |}.

(** An entry whose [id] is not an integer. *)
Definition badUser : Entry :=
  {| DN := "cn=u,dc=x";
     Attributes :=
       [NewEntryAttribute "userPrincipalName" ["u@x"]; NewEntryAttribute "id" ["x7"]] |}.

Definition nobody : Entry := {| DN := "cn=n,dc=x"; Attributes := [] |}.

(** A request whose filter the codec of the examples refuses. *)
Definition emptyFilter : SearchRequest :=
  NewSearchRequest "dc=x" ScopeWholeSubtree NeverDerefAliases 0 0 false "" [] [].

Definition closedChan : Chan := {| queue := []; closed := true |}.

(** An IntermediateResponse. *)
Definition intermediate : Packet :=
  Fixture.seq 16 [Fixture.int 1; Fixture.seq 25 []].

Definition streamOfThree : Network :=
  Fixture.always
    [GotPacket Fixture.entryA; GotPacket intermediate; GotPacket Fixture.twoURLs;
     GotPacket (Fixture.doneWithControls 0 [Fixture.pagingPDU 0 ""])].
End Sample.

(** * Properties *)

(** ** Entries built by the client *)

Lemma sort_Strings_perm (l : list string) : sort_Strings l ≡ₚ l.
Proof. apply merge_sort_Permutation. Qed.

Lemma sort_Strings_sorted (l : list string) : StronglySorted String.le (sort_Strings l).
Proof. apply StronglySorted_merge_sort; apply _. Qed.

(** The sorted list only depends on which names are sorted. *)
Lemma sort_Strings_order_irrelevant (l1 l2 : list string) :
  l1 ≡ₚ l2 -> sort_Strings l1 = sort_Strings l2.
Proof.
  intros Hp. apply (StronglySorted_unique String.le); try apply sort_Strings_sorted.
  now rewrite !sort_Strings_perm.
Qed.

Lemma NewEntry_names (iter : list string) dn (attributes : gmap string (list string)) :
  Name <$> Attributes (NewEntry iter dn attributes) = sort_Strings iter.
Proof.
  unfold NewEntry; simpl. generalize (sort_Strings iter) as names.
  induction names as [|k names IH]; simpl; [reflexivity|]. now f_equal.
Qed.

(** C8. [NewEntry] emits one attribute per key of the map, with the values
    of that key, in ascending order of the attribute names; whatever the
    order in which the map is iterated, the entry is the same. *)
Theorem NewEntry_sorted_deterministic (dn : string)
    (attributes : gmap string (list string)) (iter1 iter2 : list string) :
  range_order attributes iter1 ->
  range_order attributes iter2 ->
  let e := NewEntry iter1 dn attributes in
  DN e = dn /\
  StronglySorted String.le (Name <$> Attributes e) /\
  Name <$> Attributes e ≡ₚ (map_to_list attributes).*1 /\
  Forall (fun a => attributes !! Name a = Some (Values a) /\
                   ByteValues a = String.list_byte_of_string <$> Values a)
         (Attributes e) /\
  NewEntry iter2 dn attributes = e.
Proof.
  intros H1 H2 e. unfold range_order in *.
  split; [reflexivity|].
  split; [subst e; rewrite NewEntry_names; apply sort_Strings_sorted|].
  split; [subst e; now rewrite NewEntry_names, sort_Strings_perm|].
  split.
  - assert (Hin : Forall (fun k => is_Some (attributes !! k)) (sort_Strings iter1)).
    { apply Forall_forall. intros k Hk. rewrite sort_Strings_perm, H1 in Hk.
      apply list_elem_of_fmap in Hk as [[k' v] [-> Hkv]].
      apply elem_of_map_to_list in Hkv. simpl. eauto. }
    subst e. unfold NewEntry; simpl. revert Hin.
    generalize (sort_Strings iter1) as names.
    induction names as [|k names IH]; intros Hin; simpl; [constructor|].
    inversion Hin as [|? ? [v Hv] Hrest]; subst. constructor; [|now apply IH].
    simpl. rewrite Hv. simpl. split; reflexivity.
  - subst e. unfold NewEntry.
    rewrite (sort_Strings_order_irrelevant iter2 iter1); [reflexivity|].
    now rewrite H1, H2.
Qed.

(** ** Reading attributes of an entry *)

Lemma GetAttributeValues_loop_first (pre : list EntryAttribute) attr post attribute :
  Name attr = attribute ->
  Forall (fun a => Name a <> attribute) pre ->
  GetAttributeValues_loop (pre ++ attr :: post) attribute = Values attr.
Proof.
  intros Hn Hpre. induction Hpre as [|a pre Ha _ IH]; simpl.
  - apply String.eqb_eq in Hn. now rewrite Hn.
  - apply String.eqb_neq in Ha. now rewrite Ha.
Qed.

Lemma GetAttributeValues_loop_none (attrs : list EntryAttribute) attribute :
  Forall (fun a => Name a <> attribute) attrs ->
  GetAttributeValues_loop attrs attribute = [].
Proof.
  induction 1 as [|a attrs Ha _ IH]; simpl; [reflexivity|].
  apply String.eqb_neq in Ha. now rewrite Ha.
Qed.

Lemma GetEqualFoldAttributeValues_loop_first EqualFold
    (pre : list EntryAttribute) attr post attribute :
  EqualFold attribute (Name attr) = true ->
  Forall (fun a => EqualFold attribute (Name a) = false) pre ->
  GetEqualFoldAttributeValues_loop EqualFold (pre ++ attr :: post) attribute = Values attr.
Proof.
  intros Hn Hpre. induction Hpre as [|a pre Ha _ IH]; simpl.
  - now rewrite Hn.
  - now rewrite Ha.
Qed.

Lemma GetEqualFoldAttributeValues_loop_none EqualFold (attrs : list EntryAttribute) attribute :
  Forall (fun a => EqualFold attribute (Name a) = false) attrs ->
  GetEqualFoldAttributeValues_loop EqualFold attrs attribute = [].
Proof.
  induction 1 as [|a attrs Ha _ IH]; simpl; [reflexivity|]. now rewrite Ha.
Qed.

(** C10. [GetAttributeValues] returns the values of the first attribute
    whose name is the argument, character for character, and the empty list
    when no name is; [GetAttributeValue] returns the first of these values
    or the empty string.  Names are compared up to case only by the
    [EqualFold] accessors, which return the values of the first attribute
    that [EqualFold] accepts. *)
Theorem GetAttributeValues_exact_first_match
    (EqualFold : string -> string -> bool) (e : Entry) (attribute : string) :
  (forall pre attr post,
      Attributes e = pre ++ attr :: post ->
      Name attr = attribute ->
      Forall (fun a => Name a <> attribute) pre ->
      GetAttributeValues e attribute = Values attr /\
      GetAttributeValue e attribute = List.hd "" (Values attr)) /\
  (Forall (fun a => Name a <> attribute) (Attributes e) ->
      GetAttributeValues e attribute = [] /\
      GetAttributeValue e attribute = "") /\
  (forall pre attr post,
      Attributes e = pre ++ attr :: post ->
      EqualFold attribute (Name attr) = true ->
      Forall (fun a => EqualFold attribute (Name a) = false) pre ->
      GetEqualFoldAttributeValues EqualFold e attribute = Values attr /\
      GetEqualFoldAttributeValue EqualFold e attribute = List.hd "" (Values attr)) /\
  (Forall (fun a => EqualFold attribute (Name a) = false) (Attributes e) ->
      GetEqualFoldAttributeValues EqualFold e attribute = [] /\
      GetEqualFoldAttributeValue EqualFold e attribute = "").
Proof.
  repeat split.
  - unfold GetAttributeValues. rewrite H. now apply GetAttributeValues_loop_first.
  - unfold GetAttributeValue, GetAttributeValues. rewrite H.
    rewrite GetAttributeValues_loop_first by assumption. now destruct (Values attr).
  - unfold GetAttributeValues. now apply GetAttributeValues_loop_none.
  - unfold GetAttributeValue, GetAttributeValues.
    now rewrite GetAttributeValues_loop_none.
  - unfold GetEqualFoldAttributeValues. rewrite H.
    now apply GetEqualFoldAttributeValues_loop_first.
  - unfold GetEqualFoldAttributeValue, GetEqualFoldAttributeValues. rewrite H.
    rewrite GetEqualFoldAttributeValues_loop_first by assumption.
    now destruct (Values attr).
  - unfold GetEqualFoldAttributeValues. now apply GetEqualFoldAttributeValues_loop_none.
  - unfold GetEqualFoldAttributeValue, GetEqualFoldAttributeValues.
    now rewrite GetEqualFoldAttributeValues_loop_none.
Qed.

(** ** The buffered search *)

Section SearchFacts.
Context `{Codec} `{Network}.

Lemma addEntry_appendResult result entry :
  addEntry result entry =
  appendResult result {| Entries := [entry]; Referrals := []; ResControls := [] |}.
Proof. unfold addEntry, appendResult; simpl. now rewrite !app_nil_r. Qed.

Lemma addReferral_appendResult result ref :
  addReferral result ref =
  appendResult result {| Entries := []; Referrals := [ref]; ResControls := [] |}.
Proof. unfold addReferral, appendResult; simpl. now rewrite !app_nil_r. Qed.

(** One PDU that is not the SearchResultDone: the loop goes on with the
    result that has absorbed it. *)
Lemma Search_loop_intermediate l h packet rest result :
  intermediatePDU l packet = true ->
  Search_loop l h (GotPacket packet :: rest) result =
  Search_loop l h rest (absorbed result packet).
Proof.
  unfold intermediatePDU, absorbed, streamedRecord, operation.
  unfold ApplicationSearchResultEntry, ApplicationSearchResultReference,
    ApplicationSearchResultDone.
  intros Hok. simpl.
  destruct (debugPacket l packet); [discriminate|].
  destruct (Children packet !! 1%nat) as [op|]; [simpl|discriminate].
  destruct (Tag op =? 4) eqn:E4.
  { destruct (decodeEntry op) as [entry|]; simpl.
    - now rewrite addEntry_appendResult.
    - now apply bool_decide_eq_true, is_Some_None in Hok. }
  assert (E5 : (Tag op =? 5) = false).
  { destruct (Tag op =? 19) eqn:E19.
    - apply Z.eqb_eq in E19. rewrite E19. reflexivity.
    - now apply negb_true_iff in Hok. }
  rewrite E5.
  destruct (Tag op =? 19) eqn:E19; [|reflexivity].
  destruct (decodeReferral op) as [ref|]; simpl.
  - now rewrite addReferral_appendResult.
  - now apply bool_decide_eq_true, is_Some_None in Hok.
Qed.

Lemma Search_loop_prefix l h pdus rest result :
  forallb (intermediatePDU l) pdus = true ->
  Search_loop l h ((GotPacket <$> pdus) ++ rest) result =
  Search_loop l h rest (foldl absorbed result pdus).
Proof.
  revert result. induction pdus as [|p pdus IH]; intros result Hok; [reflexivity|].
  apply andb_true_iff in Hok as [Hp Hps].
  change ((GotPacket <$> p :: pdus) ++ rest)
    with (GotPacket p :: ((GotPacket <$> pdus) ++ rest)).
  rewrite Search_loop_intermediate by assumption. now apply IH.
Qed.

Lemma absorbed_Entries result packet :
  Entries (absorbed result packet) = Entries result ++ option_list (receivedEntry packet).
Proof.
  unfold absorbed, streamedRecord, receivedEntry.
  destruct (operation packet) as [op|]; simpl; [|now rewrite app_nil_r].
  destruct (Tag op =? ApplicationSearchResultEntry).
  - destruct (decodeEntry op); simpl; [reflexivity|now rewrite app_nil_r].
  - destruct (Tag op =? ApplicationSearchResultReference); simpl;
      [|now rewrite app_nil_r].
    destruct (decodeReferral op); simpl; now rewrite app_nil_r.
Qed.

Lemma foldl_absorbed_Entries pdus result :
  Entries (foldl absorbed result pdus) = Entries result ++ receivedEntries pdus.
Proof.
  revert result. induction pdus as [|p pdus IH]; intros result; simpl.
  - now rewrite app_nil_r.
  - rewrite IH, absorbed_Entries, <- app_assoc. f_equal.
    unfold receivedEntries. simpl. now destruct (receivedEntry p).
Qed.

Lemma absorbed_Referrals result packet :
  Referrals (absorbed result packet) =
  Referrals result ++ option_list (deliveredReferral packet).
Proof.
  unfold absorbed, streamedRecord, deliveredReferral.
  destruct (operation packet) as [op|]; simpl; [|now rewrite app_nil_r].
  destruct (Tag op =? ApplicationSearchResultEntry) eqn:E4.
  - apply Z.eqb_eq in E4. rewrite E4. simpl.
    destruct (decodeEntry op); simpl; now rewrite app_nil_r.
  - destruct (Tag op =? ApplicationSearchResultReference); simpl;
      [|now rewrite app_nil_r].
    destruct (decodeReferral op); simpl; [reflexivity|now rewrite app_nil_r].
Qed.

Lemma foldl_absorbed_Referrals pdus result :
  Referrals (foldl absorbed result pdus) = Referrals result ++ deliveredReferrals pdus.
Proof.
  revert result. induction pdus as [|p pdus IH]; intros result; simpl.
  - now rewrite app_nil_r.
  - rewrite IH, absorbed_Referrals, <- app_assoc. f_equal.
    unfold deliveredReferrals. simpl. now destruct (deliveredReferral p).
Qed.



(** The SearchResultDone ends the loop: the entries and referrals of the
    result are those accumulated so far. *)
Lemma Search_loop_done l h packet rest result :
  searchDonePDU l packet = true ->
  exists h' result' err,
    Search_loop l h (GotPacket packet :: rest) result = (h', Ret (result', err)) /\
    Entries result' = Entries result /\
    Referrals result' = Referrals result.
Proof.
  unfold searchDonePDU, operation, ApplicationSearchResultDone. intros Hok. simpl.
  destruct (debugPacket l packet); [discriminate|].
  destruct (Children packet !! 1%nat) as [op|] eqn:Hop; [|discriminate].
  apply Z.eqb_eq in Hok. rewrite Hok. simpl.
  destruct (GetLDAPError packet) as [err|]; [now eauto 6|].
  destruct (length (Children packet) =? 3)%nat eqn:Hlen; [|now eauto 6].
  apply Nat.eqb_eq in Hlen.
  destruct (Children packet !! 2%nat) as [cs|] eqn:Hcs.
  - destruct (decodeControls h (Children cs) (ResControls result)) as [[h1 controls] err].
    now eauto 6.
  - apply lookup_ge_None in Hcs. lia.
Qed.

(** Where the loop returns at a response that is not an intermediate PDU,
    the entries and referrals are those it had. *)
Lemma Search_loop_stop l h inbound result h' result' err :
  endsStream l inbound = true ->
  Search_loop l h inbound result = (h', Ret (result', err)) ->
  Entries result' = Entries result /\ Referrals result' = Referrals result.
Proof.
  destruct inbound as [|[packet|e] rest]; simpl.
  - intros _ [= <- <- <-]. now split.
  - intros Hend Hloop. apply negb_true_iff in Hend.
    destruct (searchDonePDU l packet) eqn:Hdone.
    + destruct (Search_loop_done l h packet rest result Hdone)
        as (h2 & r2 & e2 & Heq & HE & HR).
      simpl in Heq. rewrite Heq in Hloop. injection Hloop as <- <- <-. now split.
    + revert Hend Hdone Hloop.
      unfold intermediatePDU, searchDonePDU, operation.
      unfold ApplicationSearchResultEntry, ApplicationSearchResultReference,
        ApplicationSearchResultDone.
      destruct (debugPacket l packet); [intros _ _ [= <- <- <-]; now split|].
      destruct (Children packet !! 1%nat) as [op|]; [|discriminate].
      destruct (Tag op =? 4).
      { destruct (decodeEntry op); [|discriminate].
        intros Hb. now apply bool_decide_eq_false in Hb as []. }
      intros Hb Hd. rewrite Hd in *.
      destruct (Tag op =? 19); [|simpl in Hb; discriminate].
      destruct (decodeReferral op); [|discriminate].
      now apply bool_decide_eq_false in Hb as [].
  - intros _ [= <- <- <-]. now split.
Qed.

(** Every return of the loop: the responses split into the PDUs that were
    absorbed and the response at which the loop stopped. *)
Lemma Search_loop_returns l h inbound result h' result' err :
  Search_loop l h inbound result = (h', Ret (result', err)) ->
  exists pdus tail,
    inbound = (GotPacket <$> pdus) ++ tail /\
    forallb (intermediatePDU l) pdus = true /\
    endsStream l tail = true /\
    Search_loop l h tail (foldl absorbed result pdus) = (h', Ret (result', err)).
Proof.
  revert result. induction inbound as [|[packet|e] rest IH]; intros result Hloop.
  - now exists [], [].
  - destruct (intermediatePDU l packet) eqn:Hp.
    + rewrite Search_loop_intermediate in Hloop by assumption.
      apply IH in Hloop as (pdus & tail & -> & Hall & Hend & Hloop).
      exists (packet :: pdus), tail. simpl. rewrite Hp. now repeat split.
    + exists [], (GotPacket packet :: rest). simpl. rewrite Hp. now repeat split.
  - now exists [], (GotError e :: rest).
Qed.

(** [Search] never returns neither a result nor an error. *)
Lemma Search_result_or_error w req w1 :
  Search w req <> (w1, Ret (None, None)).
Proof.
  unfold Search. destruct (doRequest w req) as [w' [[err|msgCtx]| |]]; try congruence.
  destruct (Search_loop _ _ _ _) as [h2 [[result err]| |]]; congruence.
Qed.



(** Where the queue is closed, the response is an error, reading fails or
    the PDU is the SearchResultDone, the loop returns, with the entries and
    the referrals it had. *)
Lemma Search_loop_returnsAt l h inbound result :
  returnsAt l inbound = true ->
  exists h' result' err,
    Search_loop l h inbound result = (h', Ret (result', err)) /\
    Entries result' = Entries result /\
    Referrals result' = Referrals result.
Proof.
  destruct inbound as [|[packet|e] rest]; simpl.
  - intros _. now eauto 6.
  - intros [Hdbg|Hdone]%orb_true_iff.
    + apply bool_decide_eq_true in Hdbg as [e Hdbg]. rewrite Hdbg. now eauto 6.
    + apply (Search_loop_done l h packet rest result Hdone).
  - intros _. now eauto 6.
Qed.

Lemma returnsAt_endsStream l inbound :
  returnsAt l inbound = true -> endsStream l inbound = true.
Proof.
  destruct inbound as [|[packet|e] rest]; simpl; try reflexivity.
  unfold intermediatePDU, searchDonePDU.
  destruct (debugPacket l packet); [reflexivity|].
  rewrite bool_decide_eq_false_2 by (intros [x Hx]; discriminate). simpl.
  destruct (operation packet) as [op|]; [|reflexivity].
  unfold ApplicationSearchResultEntry, ApplicationSearchResultReference,
    ApplicationSearchResultDone.
  intros Htag. apply Z.eqb_eq in Htag. now rewrite Htag.
Qed.

(** The referral a well-formed PDU delivers is the first of the URLs it
    carries. *)
Lemma deliveredReferral_first l packet :
  intermediatePDU l packet = true ->
  deliveredReferral packet = head (carriedURLs packet).
Proof.
  unfold intermediatePDU, deliveredReferral, carriedURLs.
  destruct (debugPacket l packet); [discriminate|].
  destruct (operation packet) as [op|]; [simpl|discriminate].
  destruct (Tag op =? ApplicationSearchResultEntry) eqn:E4.
  { apply Z.eqb_eq in E4. rewrite E4. reflexivity. }
  destruct (Tag op =? ApplicationSearchResultReference); [|reflexivity].
  unfold decodeReferral. destruct (Children op) as [|first more]; [reflexivity|].
  simpl. now destruct (string_value first).
Qed.

Lemma deliveredReferrals_first l pdus :
  forallb (intermediatePDU l) pdus = true ->
  deliveredReferrals pdus = firstURLs pdus.
Proof.
  unfold deliveredReferrals, firstURLs.
  induction pdus as [|p pdus IH]; [reflexivity|]. simpl.
  intros [Hp Hps]%andb_true_iff.
  rewrite (deliveredReferral_first l p Hp).
  destruct (head (carriedURLs p)); [f_equal|]; exact (IH Hps).
Qed.

(** C6. When the inbound PDUs of a search are read without error and end
    in the SearchResultDone, [Search] returns a result whose entries are
    those decoded from the SearchResultEntry PDUs, one per PDU, in the
    order of arrival. *)
Theorem Search_returns_received_entries w req w1 msgCtx pdus done :
  doRequest w req = (w1, Ret (inr msgCtx)) ->
  responses msgCtx = GotPacket <$> (pdus ++ [done]) ->
  forallb (intermediatePDU (conn w1)) pdus = true ->
  searchDonePDU (conn w1) done = true ->
  exists w2 result err,
    Search w req = (w2, Ret (Some result, err)) /\
    Entries result = receivedEntries pdus.
Proof.
  intros Hreq Hresp Hpdus Hdone. unfold Search. rewrite Hreq, Hresp, fmap_app.
  rewrite Search_loop_prefix by assumption. simpl.
  destruct (Search_loop_done (conn w1) (heap w1) done []
              (foldl absorbed emptyResult pdus) Hdone)
    as (h2 & result & err & Hloop & HE & _).
  simpl in Hloop. rewrite Hloop.
  eexists _, result, err. split; [reflexivity|].
  now rewrite HE, foldl_absorbed_Entries.
Qed.

End SearchFacts.

(** ** The streaming search *)

Section ChannelFacts.
Context `{Codec} `{Network}.

(** One PDU that is not the SearchResultDone, on an open channel: its
    record, if it has one, is sent and the loop goes on. *)
Lemma SearchWithChannel_loop_intermediate l h packet rest ch :
  closed ch = false ->
  intermediatePDU l packet = true ->
  SearchWithChannel_loop l h (GotPacket packet :: rest) ch =
  SearchWithChannel_loop l h rest
    {| queue := queue ch ++ option_list (streamedRecord packet); closed := false |}.
Proof.
  unfold intermediatePDU, streamedRecord, operation. intros Hopen Hok. simpl.
  destruct (debugPacket l packet); [discriminate|].
  destruct (Children packet !! 1%nat) as [op|]; [simpl|discriminate].
  destruct (Tag op =? ApplicationSearchResultEntry) eqn:E4.
  { destruct (decodeEntry op) as [entry|]; simpl.
    - unfold chan_send. now rewrite Hopen.
    - now apply bool_decide_eq_true, is_Some_None in Hok. }
  assert (E5 : (Tag op =? ApplicationSearchResultDone) = false).
  { destruct (Tag op =? ApplicationSearchResultReference) eqn:E19.
    - apply Z.eqb_eq in E19. rewrite E19. reflexivity.
    - now apply negb_true_iff in Hok. }
  rewrite E5.
  destruct (Tag op =? ApplicationSearchResultReference) eqn:E19.
  - destruct (decodeReferral op) as [ref|]; simpl.
    + unfold chan_send. now rewrite Hopen.
    + now apply bool_decide_eq_true, is_Some_None in Hok.
  - simpl. rewrite app_nil_r. destruct ch as [q c]. simpl in *. now subst.
Qed.

Lemma SearchWithChannel_loop_prefix l h pdus rest ch :
  closed ch = false ->
  forallb (intermediatePDU l) pdus = true ->
  SearchWithChannel_loop l h ((GotPacket <$> pdus) ++ rest) ch =
  SearchWithChannel_loop l h rest
    {| queue := queue ch ++ omap streamedRecord pdus; closed := false |}.
Proof.
  revert ch. induction pdus as [|p pdus IH]; intros ch Hopen Hok.
  - simpl. rewrite app_nil_r. destruct ch as [q c]. simpl in *. now subst.
  - apply andb_true_iff in Hok as [Hp Hps].
    change ((GotPacket <$> p :: pdus) ++ rest)
      with (GotPacket p :: ((GotPacket <$> pdus) ++ rest)).
    rewrite SearchWithChannel_loop_intermediate by assumption.
    rewrite IH by (simpl; auto). simpl. rewrite <- app_assoc.
    now destruct (streamedRecord p).
Qed.

(** The loop only adds to the queue of the channel. *)
Lemma SearchWithChannel_loop_queue l h inbound ch h' ch' r :
  SearchWithChannel_loop l h inbound ch = (h', ch', r) ->
  exists pushed, queue ch' = queue ch ++ pushed.
Proof.
  assert (Hsend : forall c v c', chan_send c v = Some c' -> queue c' = queue c ++ [v]).
  { intros c v c'. unfold chan_send. destruct (closed c); [discriminate|].
    now intros [= <-]. }
  assert (Hrefl : forall c : Chan, exists pushed, queue c = queue c ++ pushed).
  { intros c. exists []. now rewrite app_nil_r. }
  revert ch. induction inbound as [|[packet|e] rest IH]; intros ch; simpl.
  - intros [= <- <- <-]. apply Hrefl.
  - destruct (debugPacket l packet); [intros [= <- <- <-]; apply Hrefl|].
    destruct (Children packet !! 1%nat) as [op|]; [|intros [= <- <- <-]; apply Hrefl].
    destruct (Tag op =? ApplicationSearchResultEntry).
    { destruct (decodeEntry op) as [entry|]; [|intros [= <- <- <-]; apply Hrefl].
      destruct (chan_send ch _) as [ch1|] eqn:Hs; [|intros [= <- <- <-]; apply Hrefl].
      intros Hloop. apply IH in Hloop as [pushed ->]. apply Hsend in Hs as ->.
      rewrite <- app_assoc. eauto. }
    destruct (Tag op =? ApplicationSearchResultDone).
    { destruct (GetLDAPError packet); [intros [= <- <- <-]; apply Hrefl|].
      destruct (length (Children packet) =? 3)%nat; [|intros [= <- <- <-]; apply Hrefl].
      destruct (Children packet !! 2%nat) as [cs|]; [|intros [= <- <- <-]; apply Hrefl].
      destruct (decodeControls h (Children cs) []) as [[h1 controls] [e|]];
        [intros [= <- <- <-]; apply Hrefl|].
      destruct (chan_send ch _) as [ch1|] eqn:Hs; intros [= <- <- <-]; [|apply Hrefl].
      apply Hsend in Hs as ->. eauto. }
    destruct (Tag op =? ApplicationSearchResultReference); [|apply IH].
    destruct (decodeReferral op) as [ref|]; [|intros [= <- <- <-]; apply Hrefl].
    destruct (chan_send ch _) as [ch1|] eqn:Hs; [|intros [= <- <- <-]; apply Hrefl].
    intros Hloop. apply IH in Hloop as [pushed ->]. apply Hsend in Hs as ->.
    rewrite <- app_assoc. eauto.
  - intros [= <- <- <-]. apply Hrefl.
Qed.

(** Once the request is sent, what is left of the body is the loop over
    the inbound queue and the deferred [finishMessage]. *)
Lemma SearchWithChannel_body_sent w req c w1 msgCtx :
  doRequest w req = (w1, Ret (inr msgCtx)) ->
  SearchWithChannel_body w req c =
  let '(h3, ch3, r) :=
    SearchWithChannel_loop (conn w1) (heap w1) (responses msgCtx) c in
  ({| conn := finishMessage (conn w1) msgCtx; heap := h3 |}, ch3, r).
Proof.
  unfold doRequest, SearchWithChannel_body.
  destruct (nextMessageID (conn w)) as [l1 msgID].
  destruct (appendTo (heap w) req msgID) as [[e|packet]| |]; try discriminate.
  destruct (sendMessage l1 packet) as [l2 [e|m]]; [discriminate|].
  now intros [= <- <-].
Qed.

(** What [doneDecodes] says of the first packet of the queue. *)
Lemma doneDecodes_inv l h packet rest h1 controls :
  doneDecodes l h (GotPacket packet :: rest) h1 controls ->
  debugPacket l packet = None /\
  exists op cs,
    Children packet !! 1%nat = Some op /\
    Tag op = ApplicationSearchResultDone /\
    GetLDAPError packet = None /\
    length (Children packet) = 3%nat /\
    Children packet !! 2%nat = Some cs /\
    decodeControls h (Children cs) [] = (h1, controls, None).
Proof.
  intros (done & rest' & cs & [= <- <-] & Hdone & Herr & Hlen & Hcs & Hdec).
  revert Hdone. unfold searchDonePDU, operation.
  destruct (debugPacket l packet); [discriminate|].
  destruct (Children packet !! 1%nat) as [op|]; [|discriminate].
  intros Htag%Z.eqb_eq. split; [reflexivity|]. now exists op, cs.
Qed.

(** At a response that is not an intermediate PDU the loop ends, on an
    open channel: nothing more is sent, unless the response is the
    SearchResultDone that reports success with controls that all decode;
    then one record with these controls is sent and the loop returns
    nil. *)
Lemma SearchWithChannel_loop_stop l h inbound ch h' ch' r :
  closed ch = false ->
  endsStream l inbound = true ->
  SearchWithChannel_loop l h inbound ch = (h', ch', r) ->
  (ch' = ch /\ forall h1 controls, ~ doneDecodes l h inbound h1 controls) \/
  (exists controls,
     doneDecodes l h inbound h' controls /\
     ch' = {| queue := queue ch ++ [controlsOnly controls]; closed := false |} /\
     r = Ret None).
Proof.
  intros Hopen. destruct inbound as [|[packet|e] rest].
  - intros _ [= <- <- <-]. left. split; [reflexivity|].
    intros h1 controls (done & rest' & cs & Hnil & _). discriminate.
  - intros Hend. apply negb_true_iff in Hend. revert Hend.
    unfold intermediatePDU, operation. simpl.
    destruct (debugPacket l packet) as [e|] eqn:Hdbg.
    { intros _ [= <- <- <-]. left. split; [reflexivity|].
      intros h1 controls [Hd _]%doneDecodes_inv. congruence. }
    destruct (Children packet !! 1%nat) as [op|] eqn:Hop.
    2:{ intros _ [= <- <- <-]. left. split; [reflexivity|].
        intros h1 controls (_ & op & cs & Hop' & _)%doneDecodes_inv. congruence. }
    assert (Hnot : Tag op <> ApplicationSearchResultDone ->
              forall h1 controls, ~ doneDecodes l h (GotPacket packet :: rest) h1 controls).
    { intros Hne h1 controls (_ & op' & cs & Hop' & Htag & _)%doneDecodes_inv. congruence. }
    destruct (Tag op =? ApplicationSearchResultEntry) eqn:E4.
    { apply Z.eqb_eq in E4.
      destruct (decodeEntry op) as [entry|].
      - intros Hb. now apply bool_decide_eq_false in Hb as [].
      - intros _ [= <- <- <-]. left. split; [reflexivity|].
        apply Hnot. rewrite E4. discriminate. }
    destruct (Tag op =? ApplicationSearchResultDone) eqn:E5.
    { intros _.
      destruct (GetLDAPError packet) as [e|] eqn:Herr.
      { intros [= <- <- <-]. left. split; [reflexivity|].
        intros h1 controls (_ & op' & cs & _ & _ & Herr' & _)%doneDecodes_inv. congruence. }
      destruct (length (Children packet) =? 3)%nat eqn:Hlen.
      2:{ intros [= <- <- <-]. left. split; [reflexivity|]. apply Nat.eqb_neq in Hlen.
          intros h1 controls (_ & op' & cs & _ & _ & _ & Hlen' & _)%doneDecodes_inv.
          congruence. }
      destruct (Children packet !! 2%nat) as [cs|] eqn:Hcs.
      2:{ intros [= <- <- <-]. left. split; [reflexivity|].
          intros h1 controls (_ & op' & cs & _ & _ & _ & _ & Hcs' & _)%doneDecodes_inv.
          congruence. }
      destruct (decodeControls h (Children cs) []) as [[h1 controls] [e|]] eqn:Hdec.
      { intros [= <- <- <-]. left. split; [reflexivity|].
        intros h2 controls2 (_ & op' & cs' & _ & _ & _ & _ & Hcs' & Hdec')%doneDecodes_inv.
        congruence. }
      unfold chan_send. rewrite Hopen. intros [= <- <- <-]. right.
      exists controls. split; [|now split].
      exists packet, rest, cs. apply Nat.eqb_eq in Hlen.
      unfold searchDonePDU, operation. rewrite Hdbg, Hop. now repeat split. }
    destruct (Tag op =? ApplicationSearchResultReference) eqn:E19; [|discriminate].
    destruct (decodeReferral op) as [ref|].
    + intros Hb. now apply bool_decide_eq_false in Hb as [].
    + intros _ [= <- <- <-]. left. split; [reflexivity|].
      apply Hnot. now apply Z.eqb_neq in E5.
  - intros _ [= <- <- <-]. left. split; [reflexivity|].
    intros h1 controls (done & rest' & cs & Hnil & _). discriminate.
Qed.

(** The whole call on an open channel, once the request is sent: the
    records of the PDUs before the response at which the stream ends are
    sent in their order, then the record of the controls if there is one,
    and the channel is closed. *)
Lemma SearchWithChannel_stream w req c w1 msgCtx pdus tail :
  closed c = false ->
  doRequest w req = (w1, Ret (inr msgCtx)) ->
  responses msgCtx = (GotPacket <$> pdus) ++ tail ->
  forallb (intermediatePDU (conn w1)) pdus = true ->
  endsStream (conn w1) tail = true ->
  exists w' last r,
    SearchWithChannel w req (Some c) =
      (w', Some {| queue := queue c ++ omap streamedRecord pdus ++ last;
                   closed := true |}, r) /\
    ((last = [] /\
      forall h1 controls, ~ doneDecodes (conn w1) (heap w1) tail h1 controls) \/
     (exists controls,
        doneDecodes (conn w1) (heap w1) tail (heap w') controls /\
        last = [controlsOnly controls] /\
        r = Ret None)).
Proof.
  intros Hopen Hreq Hresp Hpdus Hend. unfold SearchWithChannel.
  rewrite (SearchWithChannel_body_sent _ _ _ _ _ Hreq), Hresp.
  rewrite SearchWithChannel_loop_prefix by assumption.
  destruct (SearchWithChannel_loop (conn w1) (heap w1) tail _) as [[h3 ch3] r] eqn:Hloop.
  apply SearchWithChannel_loop_stop in Hloop; [|reflexivity|assumption].
  destruct Hloop as [[-> Hnone]|(controls & Hdone & -> & ->)]; simpl.
  - eexists _, [], r. rewrite app_nil_r. split; [reflexivity|]. now left.
  - eexists _, [controlsOnly controls], (Ret None). rewrite <- app_assoc.
    split; [reflexivity|]. right. now exists controls.
Qed.

(** C7. With a channel that is not nil, [SearchWithChannel] leaves the
    channel closed however it ends (return of nil, return of an error,
    panic).  On an open channel, once the request is sent, the call sends
    the record of each PDU read before the response at which the stream
    ends (the entry of a SearchResultEntry, the referral of a
    SearchResultReference), in the order of arrival, whatever this
    response is: the queue of the channel the call leaves holds these
    records, followed by the record of the controls when the stream ends
    with a SearchResultDone that reports success and whose controls all
    decode, and by nothing otherwise. *)
Theorem SearchWithChannel_streams_and_closes w req c :
  (exists w' c' r,
      SearchWithChannel w req (Some c) = (w', Some c', r) /\
      closed c' = true) /\
  (forall w1 msgCtx pdus tail,
      closed c = false ->
      doRequest w req = (w1, Ret (inr msgCtx)) ->
      responses msgCtx = (GotPacket <$> pdus) ++ tail ->
      forallb (intermediatePDU (conn w1)) pdus = true ->
      endsStream (conn w1) tail = true ->
      exists w' last r,
        SearchWithChannel w req (Some c) =
          (w', Some {| queue := queue c ++ omap streamedRecord pdus ++ last;
                       closed := true |}, r) /\
        ((last = [] /\
          forall h1 controls, ~ doneDecodes (conn w1) (heap w1) tail h1 controls) \/
         (exists controls,
            doneDecodes (conn w1) (heap w1) tail (heap w') controls /\
            last = [controlsOnly controls] /\
            r = Ret None))).
Proof.
  split; [|intros; eapply SearchWithChannel_stream; eassumption].
  unfold SearchWithChannel.
  destruct (SearchWithChannel_body w req c) as [[w1 c1] r].
  unfold chan_close. destruct (closed c1) eqn:Hc.
  - now exists w1, c1, Panic.
  - now eexists w1, _, r.
Qed.

(** The records with a referral among those sent for well-formed PDUs:
    one for each referral delivered. *)
Lemma streamed_referrals pdus :
  List.filter hasReferral (omap streamedRecord pdus) =
  referralRecord <$> deliveredReferrals pdus.
Proof.
  unfold deliveredReferrals.
  induction pdus as [|p pdus IH]; [reflexivity|]. simpl.
  unfold streamedRecord, deliveredReferral.
  destruct (operation p) as [op|]; simpl; [|exact IH].
  destruct (Tag op =? ApplicationSearchResultEntry) eqn:E4.
  { apply Z.eqb_eq in E4. rewrite E4. simpl.
    destruct (decodeEntry op); simpl; exact IH. }
  destruct (Tag op =? ApplicationSearchResultReference); [|exact IH].
  destruct (decodeReferral op) as [ref|]; simpl; [|exact IH].
  f_equal. exact IH.
Qed.

(** C2 (amended). A SearchResultReference PDU delivers its first URL and
    only this one, however many URLs it carries.  For a search whose
    request is sent and whose PDUs are well formed up to the response at
    which the stream ends: the referrals of the result [Search] returns
    are the first URLs of the reference PDUs, one for each, in the order
    of arrival; and the records with a referral that [SearchWithChannel]
    sends on an open channel are one for each reference PDU, with its
    first URL, in the order of arrival. *)
Theorem reference_delivers_first_url w req w1 msgCtx pdus tail :
  doRequest w req = (w1, Ret (inr msgCtx)) ->
  responses msgCtx = (GotPacket <$> pdus) ++ tail ->
  forallb (intermediatePDU (conn w1)) pdus = true ->
  endsStream (conn w1) tail = true ->
  (returnsAt (conn w1) tail = true ->
   exists w2 result err,
     Search w req = (w2, Ret (Some result, err)) /\
     Referrals result = firstURLs pdus) /\
  (forall c,
     closed c = false ->
     exists w2 pushed r,
       SearchWithChannel w req (Some c) =
         (w2, Some {| queue := queue c ++ pushed; closed := true |}, r) /\
       List.filter hasReferral pushed = referralRecord <$> firstURLs pdus).
Proof.
  intros Hreq Hresp Hpdus Hend. split.
  - intros Hret. unfold Search. rewrite Hreq, Hresp.
    rewrite Search_loop_prefix by assumption.
    destruct (Search_loop_returnsAt (conn w1) (heap w1) tail
                (foldl absorbed emptyResult pdus) Hret)
      as (h2 & result & err & Hloop & _ & HR).
    rewrite Hloop. eexists _, result, err. split; [reflexivity|].
    rewrite HR, foldl_absorbed_Referrals. simpl.
    now apply deliveredReferrals_first with (l := conn w1).
  - intros c Hopen.
    destruct (SearchWithChannel_stream w req c w1 msgCtx pdus tail
                Hopen Hreq Hresp Hpdus Hend) as (w2 & last & r & Hrun & Hlast).
    exists w2, (omap streamedRecord pdus ++ last), r. split; [exact Hrun|].
    rewrite List.filter_app, streamed_referrals.
    rewrite (deliveredReferrals_first (conn w1)) by assumption.
    destruct Hlast as [[-> _]|(controls & _ & -> & _)]; simpl; now rewrite app_nil_r.
Qed.

(** C9. With a nil channel, [SearchWithChannel] returns an error of kind
    Usage and leaves the connection as it was: no MessageID is taken and
    nothing is written.  (With a channel, the MessageID is taken first.) *)
Theorem SearchWithChannel_nil_channel w req :
  (exists w' text,
      SearchWithChannel w req None = (w', None, Ret (Some (NewError ErrorUsage text))) /\
      messageID (conn w') = messageID (conn w) /\
      sent (conn w') = sent (conn w) /\
      w' = w) /\
  (forall c w' c' r,
      SearchWithChannel w req (Some c) = (w', c', r) ->
      messageID (conn w') = messageID (conn w) + 1).
Proof.
  split; [now eexists w, _|].
  intros c w' c' r. unfold SearchWithChannel, SearchWithChannel_body, nextMessageID.
  assert (Hsend : forall l p l2 r2, sendMessage l p = (l2, r2) -> messageID l2 = messageID l).
  { intros l p l2 r2. unfold sendMessage. destruct (respond _); now intros [= <- <-]. }
  destruct (appendTo (heap w) req (messageID (conn w))) as [[e|packet]| |];
    try (destruct (chan_close c); now intros [= <- <- <-]).
  destruct (sendMessage _ packet) as [l2 [e|msgCtx]] eqn:Hs; apply Hsend in Hs.
  - destruct (chan_close c); now intros [= <- <- <-].
  - destruct (SearchWithChannel_loop _ _ _ _) as [[h3 ch3] r3].
    destruct (chan_close ch3); now intros [= <- <- <-].
Qed.
End ChannelFacts.

(** ** The paged search *)

Section PagingFacts.
Context `{Codec} `{Network}.

(** The loop is only left by [break] with [pagingControl] set to nil. *)
Lemma SearchWithPaging_loop_break_nil fuel w req pc acc w' pc' sr :
  SearchWithPaging_loop fuel w req pc acc = (w', Ret (Broke pc' sr)) -> pc' = None.
Proof.
  revert w acc. induction fuel as [|fuel IH]; intros w acc; simpl; [discriminate|].
  destruct (Search w req) as [w1 [[[result|] [err|]]| |]]; try discriminate.
  destruct (FindControl (ResControls result) ControlTypePaging) as [[p|ty crit val]|];
    try discriminate; [|now intros [= _ <- _]].
  destruct (heap w1 !! p) as [c|]; [|discriminate].
  destruct (length (Cookie c) =? 0)%nat; [now intros [= _ <- _]|].
  destruct (SetCookie (heap w1) pc (Cookie c)); [apply IH|discriminate].
Qed.

(** Every return of the loop is a run of pages that ends at a failing
    page or at an empty cookie. *)
Lemma SearchWithPaging_loop_sound fuel w req pc acc w' exit :
  SearchWithPaging_loop fuel w req pc acc = (w', Ret exit) ->
  PagedRun req pc w acc w' exit.
Proof.
  revert w acc. induction fuel as [|fuel IH]; intros w acc; simpl; [discriminate|].
  destruct (Search w req) as [w1 [[[result|] [err|]]| |]] eqn:HS; try discriminate.
  - intros [= <- <-]. eapply run_fails, HS.
  - destruct (FindControl (ResControls result) ControlTypePaging)
      as [[p|ty crit val]|] eqn:HF; try discriminate.
    + destruct (heap w1 !! p) as [c|] eqn:Hp; [|discriminate].
      destruct (length (Cookie c) =? 0)%nat eqn:Hlen.
      * intros [= <- <-]. apply run_last with (1 := HS).
        unfold returnedCookie. rewrite HF, Hp. simpl.
        now destruct (Cookie c).
      * destruct (SetCookie (heap w1) pc (Cookie c)) as [h2|] eqn:Hset; [|discriminate].
        intros Hloop. apply run_next with (1 := HS) (cookie := Cookie c) (h2 := h2).
        -- unfold returnedCookie. now rewrite HF, Hp.
        -- intros E. now rewrite E in Hlen.
        -- assumption.
        -- now apply IH.
    + intros [= <- <-]. apply run_last with (1 := HS).
      unfold returnedCookie. now rewrite HF.
  - intros [= <- <-]. eapply run_fails, HS.
  - now apply Search_result_or_error in HS.
Qed.

(** Every such run is a return of the loop, given pages enough. *)
Lemma SearchWithPaging_loop_complete w req pc acc w' exit :
  PagedRun req pc w acc w' exit ->
  exists n, forall fuel, (n <= fuel)%nat ->
    SearchWithPaging_loop fuel w req pc acc = (w', Ret exit).
Proof.
  induction 1 as [w acc w1 r err HS|w acc w1 result HS Hc
                 |w acc w1 result cookie h2 w' exit HS Hc Hne Hset _ [n IH]].
  - exists 1%nat. intros [|fuel] Hle; [lia|]. simpl. rewrite HS. now destruct r.
  - exists 1%nat. intros [|fuel] Hle; [lia|]. simpl. rewrite HS.
    revert Hc. unfold returnedCookie.
    destruct (FindControl (ResControls result) ControlTypePaging) as [[p|ty crit val]|];
      [|discriminate|reflexivity].
    destruct (heap w1 !! p) as [c|]; [|discriminate].
    simpl. intros [= ->]. reflexivity.
  - exists (S n). intros [|fuel] Hle; [lia|]. simpl. rewrite HS.
    revert Hc. unfold returnedCookie.
    destruct (FindControl (ResControls result) ControlTypePaging) as [[p|ty crit val]|];
      [|discriminate|intros [= <-]; congruence].
    destruct (heap w1 !! p) as [c|]; [|discriminate].
    simpl. intros [= ->].
    destruct cookie as [|b cookie]; [congruence|]. simpl.
    rewrite Hset. apply IH. lia.
Qed.

(** C3 (amended). The paging loop returns exactly when, after finitely
    many pages each answered with a non-empty cookie, a page's search
    fails or is answered with an empty cookie (or no paging control).
    After a page answered with an empty cookie no request is issued: the
    loop is left in the world that page's search left, and what follows
    the loop leaves it as it is. *)
Theorem paging_run_characterised w req pc acc :
  (forall w' exit,
      (exists fuel, SearchWithPaging_loop fuel w req pc acc = (w', Ret exit)) <->
      PagedRun req pc w acc w' exit) /\
  (forall fuel w1 result,
      Search w req = (w1, Ret (Some result, None)) ->
      returnedCookie (heap w1) result = Some [] ->
      SearchWithPaging_loop (S fuel) w req pc acc =
        (w1, Ret (Broke None (appendResult acc result))) /\
      SearchWithPaging_abandon w1 req None (appendResult acc result) =
        (w1, Ret (Some (appendResult acc result), None))) /\
  (forall fuel w1 result cookie h2,
      Search w req = (w1, Ret (Some result, None)) ->
      returnedCookie (heap w1) result = Some cookie ->
      cookie <> [] ->
      SetCookie (heap w1) pc cookie = Some h2 ->
      SearchWithPaging_loop (S fuel) w req pc acc =
      SearchWithPaging_loop fuel {| conn := conn w1; heap := h2 |} req pc
        (appendResult acc result)).
Proof.
  split; [|split].
  - intros w' exit. split.
    + intros [fuel Hloop]. eapply SearchWithPaging_loop_sound, Hloop.
    + intros Hrun. apply SearchWithPaging_loop_complete in Hrun as [n Hn].
      exists n. now apply Hn.
  - intros fuel w1 result HS Hc. split; [|reflexivity].
    simpl. rewrite HS. revert Hc. unfold returnedCookie.
    destruct (FindControl (ResControls result) ControlTypePaging) as [[p|ty crit val]|];
      [|discriminate|reflexivity].
    destruct (heap w1 !! p) as [c|]; [|discriminate].
    simpl. now intros [= ->].
  - intros fuel w1 result cookie h2 HS Hc Hne Hset. simpl. rewrite HS.
    revert Hc. unfold returnedCookie.
    destruct (FindControl (ResControls result) ControlTypePaging) as [[p|ty crit val]|];
      [|discriminate|intros [= <-]; congruence].
    destruct (heap w1 !! p) as [c|]; [|discriminate].
    simpl. intros [= ->].
    destruct cookie as [|b cookie]; [congruence|]. simpl. now rewrite Hset.
Qed.

(** C4. A request whose paging control is not a [*ControlPaging], or is
    one of another size than the call asks for, is refused with an error
    and the world is left as it was (no query).  With a paging control of
    the size asked for, the request and the store are used as they are.
    With no paging control, a new one with the size asked for and an
    empty cookie is appended to the controls of the request. *)
Theorem SearchWithPaging_checks_paging_control fuel w req pagingSize :
  (forall ty crit val,
      FindControl (Controls req) ControlTypePaging = Some (ControlString ty crit val) ->
      SearchWithPaging fuel w req pagingSize =
      (w, req, Ret (None, Some (ErrExpectedControlPaging (ControlString ty crit val))))) /\
  (forall p c,
      FindControl (Controls req) ControlTypePaging = Some (PControlPaging p) ->
      heap w !! p = Some c ->
      PagingSize c <> pagingSize ->
      SearchWithPaging fuel w req pagingSize =
      (w, req, Ret (None, Some (ErrPagingSizeConflict (PagingSize c) pagingSize)))) /\
  (forall p c,
      FindControl (Controls req) ControlTypePaging = Some (PControlPaging p) ->
      heap w !! p = Some c ->
      PagingSize c = pagingSize ->
      pagingSetup (heap w) req pagingSize = Ret (inr (heap w, req, p)) /\
      exists w' r, SearchWithPaging fuel w req pagingSize = (w', req, r)) /\
  (FindControl (Controls req) ControlTypePaging = None ->
      let p := length (heap w) in
      let req1 :=
        {| BaseDN := BaseDN req; Scope := Scope req; DerefAliases := DerefAliases req;
           SizeLimit := SizeLimit req; TimeLimit := TimeLimit req;
           TypesOnly := TypesOnly req; Filter := Filter req;
           ReqAttributes := ReqAttributes req;
           Controls := Controls req ++ [PControlPaging p] |} in
      pagingSetup (heap w) req pagingSize =
        Ret (inr (heap w ++ [{| PagingSize := pagingSize; Cookie := [] |}], req1, p)) /\
      exists w' r, SearchWithPaging fuel w req pagingSize = (w', req1, r)).
Proof.
  assert (Hrun : forall h1 req1 p,
             pagingSetup (heap w) req pagingSize = Ret (inr (h1, req1, p)) ->
             exists w' r, SearchWithPaging fuel w req pagingSize = (w', req1, r)).
  { intros h1 req1 p Hs. unfold SearchWithPaging. rewrite Hs.
    destruct (SearchWithPaging_loop _ _ _ _ _) as [w2 [[sr err|pc' sr]| |]]; eauto.
    destruct (SearchWithPaging_abandon _ _ _ _); eauto. }
  split; [|split; [|split]].
  - intros ty crit val HF. unfold SearchWithPaging, pagingSetup. now rewrite HF.
  - intros p c HF Hp Hne. unfold SearchWithPaging, pagingSetup. rewrite HF, Hp.
    apply Z.eqb_neq in Hne. now rewrite Hne.
  - intros p c HF Hp Heq.
    assert (Hs : pagingSetup (heap w) req pagingSize = Ret (inr (heap w, req, p))).
    { unfold pagingSetup. rewrite HF, Hp. apply Z.eqb_eq in Heq. now rewrite Heq. }
    split; [assumption|]. eapply Hrun, Hs.
  - intros HF p req1.
    assert (Hs : pagingSetup (heap w) req pagingSize =
                 Ret (inr (heap w ++ [{| PagingSize := pagingSize; Cookie := [] |}],
                           req1, p))).
    { unfold pagingSetup. now rewrite HF. }
    split; [assumption|]. eapply Hrun, Hs.
Qed.


End PagingFacts.

(** ** The statements at work on the scripted server *)

(** Three keys visited in two different orders give the same entry. *)
Lemma NewEntry_sorted_deterministic_witness :
  range_order Fixture.attributeMap ["sn"; "mail"; "cn"] /\
  range_order Fixture.attributeMap ["mail"; "cn"; "sn"] /\
  Name <$> Attributes (NewEntry ["sn"; "mail"; "cn"] "cn=a,dc=x" Fixture.attributeMap)
    ≡ₚ (map_to_list Fixture.attributeMap).*1 /\
  NewEntry ["mail"; "cn"; "sn"] "cn=a,dc=x" Fixture.attributeMap =
  NewEntry ["sn"; "mail"; "cn"] "cn=a,dc=x" Fixture.attributeMap.
Proof.
  assert (H1 : range_order Fixture.attributeMap ["sn"; "mail"; "cn"]).
  { unfold range_order. vm_compute. solve_Permutation. }
  assert (H2 : range_order Fixture.attributeMap ["mail"; "cn"; "sn"]).
  { unfold range_order. vm_compute. solve_Permutation. }
  destruct (NewEntry_sorted_deterministic "cn=a,dc=x" Fixture.attributeMap
              ["sn"; "mail"; "cn"] ["mail"; "cn"; "sn"] H1 H2)
    as (_ & _ & Hperm & _ & Heq).
  exact (conj H1 (conj H2 (conj Hperm Heq))).
Defined.

(** The name [CN] does not find the attribute [cn], except up to case. *)
Lemma GetAttributeValues_exact_first_match_witness :
  GetAttributeValues Fixture.entryWithAttributes "cn" = ["a"; "alias"] /\
  GetAttributeValue Fixture.entryWithAttributes "cn" = "a" /\
  GetAttributeValues Fixture.entryWithAttributes "CN" = [] /\
  GetAttributeValue Fixture.entryWithAttributes "CN" = "" /\
  GetEqualFoldAttributeValues ascii_EqualFold Fixture.entryWithAttributes "CN"
    = ["a"; "alias"].
Proof.
  destruct (GetAttributeValues_exact_first_match ascii_EqualFold
              Fixture.entryWithAttributes "cn") as (Hcn & _).
  destruct (GetAttributeValues_exact_first_match ascii_EqualFold
              Fixture.entryWithAttributes "CN") as (_ & HCN & Hfold & _).
  destruct (Hcn [] (NewEntryAttribute "cn" ["a"; "alias"])
              [NewEntryAttribute "mail" ["a@x"]] eq_refl eq_refl ltac:(constructor))
    as [Hvs Hv].
  destruct HCN as [Hnone Hempty].
  { repeat constructor; discriminate. }
  destruct (Hfold [] (NewEntryAttribute "cn" ["a"; "alias"])
              [NewEntryAttribute "mail" ["a@x"]] eq_refl eq_refl ltac:(constructor))
    as [Hfvs _].
  exact (conj Hvs (conj Hv (conj Hnone (conj Hempty Hfvs)))).
Defined.

(** Scenario 3 of the specification: two entries, then the
    SearchResultDone. *)
Lemma Search_returns_received_entries_witness :
  exists w2 result err,
    @Search Fixture.codec
      (Fixture.always [GotPacket Fixture.entryA; GotPacket Fixture.entryB;
                       GotPacket (Fixture.donePDU 0)])
      Fixture.world0 (Fixture.request []) = (w2, Ret (Some result, err)) /\
    Entries result = @receivedEntries [Fixture.entryA; Fixture.entryB].
Proof.
  eapply (@Search_returns_received_entries Fixture.codec
            (Fixture.always [GotPacket Fixture.entryA; GotPacket Fixture.entryB;
                             GotPacket (Fixture.donePDU 0)])
            Fixture.world0 (Fixture.request []));
    reflexivity.
Defined.



(** An entry, an IntermediateResponse, a reference PDU with two URLs and
    the SearchResultDone: the first URL is the one referral of the result,
    and of the records sent. *)
Lemma reference_delivers_first_url_witness :
  (exists w2 result err,
      @Search Fixture.codec Sample.streamOfThree Fixture.world0 (Fixture.request []) =
        (w2, Ret (Some result, err)) /\
      Referrals result = ["ldap://a.example/"]) /\
  (exists w2 pushed r,
      @SearchWithChannel Fixture.codec Sample.streamOfThree Fixture.world0
        (Fixture.request []) (Some Fixture.openChan) =
        (w2, Some {| queue := queue Fixture.openChan ++ pushed; closed := true |}, r) /\
      List.filter hasReferral pushed = [referralRecord "ldap://a.example/"]).
Proof.
  destruct (@reference_delivers_first_url Fixture.codec Sample.streamOfThree
              Fixture.world0 (Fixture.request []) _ _
              [Fixture.entryA; Sample.intermediate; Fixture.twoURLs]
              [GotPacket (Fixture.doneWithControls 0 [Fixture.pagingPDU 0 ""])]
              eq_refl eq_refl eq_refl eq_refl) as [HS HC].
  exact (conj (HS eq_refl) (HC Fixture.openChan eq_refl)).
Defined.

(** C2, as stated, fails.  The reference PDU carries two URLs; the result
    of [Search] has one referral, and [SearchWithChannel] sends one record
    with one referral. *)
Lemma reference_with_two_urls_delivers_one :
  carriedURLs Fixture.twoURLs = ["ldap://a.example/"; "ldap://b.example/"] /\
  (exists w result,
      @Search Fixture.codec
        (Fixture.always [GotPacket Fixture.twoURLs; GotPacket (Fixture.donePDU 0)])
        Fixture.world0 (Fixture.request []) = (w, Ret (Some result, None)) /\
      Referrals result = ["ldap://a.example/"] /\
      Referrals result <> carriedURLs Fixture.twoURLs) /\
  (exists w ch,
      @SearchWithChannel Fixture.codec
        (Fixture.always [GotPacket Fixture.twoURLs; GotPacket (Fixture.donePDU 0)])
        Fixture.world0 (Fixture.request []) (Some Fixture.openChan) =
        (w, Some ch, Ret None) /\
      queue ch = [{| Entries := []; Referrals := ["ldap://a.example/"];
                     ResControls := [] |}] /\
      closed ch = true).
Proof.
  split; [reflexivity|]. split.
  - eexists _, _. split; [vm_compute; reflexivity|].
    split; [reflexivity|]. vm_compute. discriminate.
  - eexists _, _. split; [vm_compute; reflexivity|]. split; reflexivity.
Qed.

(** An entry, a reference and the SearchResultDone with a control: three
    records are sent in this order and the channel is closed.  An entry, a
    reference and a read error: the two records are sent, and the channel
    is closed. *)
Lemma SearchWithChannel_streams_and_closes_witness :
  (exists w' controls,
      @SearchWithChannel Fixture.codec Fixture.entryReferenceDone
        Fixture.world0 (Fixture.request []) (Some Fixture.openChan) =
        (w', Some {| queue := omap streamedRecord [Fixture.entryA; Fixture.twoURLs] ++
                              [controlsOnly controls];
                     closed := true |}, Ret None)) /\
  (exists w' r,
      @SearchWithChannel Fixture.codec Fixture.entryReferenceError
        Fixture.world0 (Fixture.request []) (Some Fixture.openChan) =
        (w', Some {| queue := omap streamedRecord [Fixture.entryA; Fixture.twoURLs];
                     closed := true |}, r)).
Proof.
  split.
  - destruct (proj2 (@SearchWithChannel_streams_and_closes Fixture.codec
                       Fixture.entryReferenceDone Fixture.world0 (Fixture.request [])
                       Fixture.openChan)
                _ _ [Fixture.entryA; Fixture.twoURLs]
                [GotPacket (Fixture.doneWithControls 0 [Fixture.pagingPDU 0 ""])]
                eq_refl eq_refl eq_refl eq_refl eq_refl)
      as (w' & last & r & Hrun & [[_ Hnone]|(controls & _ & -> & ->)]).
    + exfalso.
      apply (Hnone [{| PagingSize := 0; Cookie := [] |}] [PControlPaging 0%nat]).
      exists (Fixture.doneWithControls 0 [Fixture.pagingPDU 0 ""]), [],
        (Fixture.seq 0 [Fixture.pagingPDU 0 ""]).
      repeat split.
    + now exists w', controls.
  - destruct (proj2 (@SearchWithChannel_streams_and_closes Fixture.codec
                       Fixture.entryReferenceError Fixture.world0 (Fixture.request [])
                       Fixture.openChan)
                _ _ [Fixture.entryA; Fixture.twoURLs] [GotError Fixture.readError]
                eq_refl eq_refl eq_refl eq_refl eq_refl)
      as (w' & last & r & Hrun & [[-> _]|(controls & Hdone & _)]).
    + exists w', r. rewrite app_nil_r in Hrun. exact Hrun.
    + destruct Hdone as (done & rest & cs & Hnil & _). discriminate Hnil.
Defined.

(** A nil channel leaves the MessageID counter at 1; a channel moves it
    to 2. *)
Lemma SearchWithChannel_nil_channel_witness :
  (exists w' text,
      @SearchWithChannel Fixture.codec (Fixture.always []) Fixture.world0
        (Fixture.request []) None =
        (w', None, Ret (Some (NewError ErrorUsage text))) /\
      messageID (conn w') = messageID (conn Fixture.world0) /\
      sent (conn w') = sent (conn Fixture.world0) /\
      w' = Fixture.world0) /\
  messageID
    (conn (@SearchWithChannel Fixture.codec (Fixture.always []) Fixture.world0
             (Fixture.request []) (Some Fixture.openChan)).1.1) =
  messageID (conn Fixture.world0) + 1.
Proof.
  destruct (@SearchWithChannel_nil_channel Fixture.codec (Fixture.always [])
              Fixture.world0 (Fixture.request [])) as [Hnil Hid].
  exact (conj Hnil (Hid Fixture.openChan _ _ _ eq_refl)).
Defined.

(** Scenario 4 of the specification: two pages, the second with an empty
    cookie; the loop returns after two requests. *)
Lemma paging_run_characterised_witness :
  exists w' sr,
    PagedRun (H0 := Fixture.twoPages) (H := Fixture.codec)
      Fixture.pagedRequest 0%nat Fixture.pagedWorld emptyResult w' (Broke None sr) /\
    length (sent (conn w')) = 2%nat /\
    length (Entries sr) = 3%nat.
Proof.
  destruct (@paging_run_characterised Fixture.codec Fixture.twoPages
              Fixture.pagedWorld Fixture.pagedRequest 0%nat emptyResult) as [Hiff _].
  eexists _, _. split.
  - apply Hiff. exists 3%nat. vm_compute. reflexivity.
  - split; reflexivity.
Defined.

(** C3, as stated, fails.  The inbound queue of the first page is closed
    before any PDU: the loop ends and [SearchWithPaging] returns, with a
    network error, though the server returned no SearchResultDone. *)
Lemma paging_ends_without_search_done :
  (forall history, @respond (Fixture.always []) history = Responses []) /\
  exists w' req',
    @SearchWithPaging Fixture.codec (Fixture.always []) 1
      Fixture.world0 (Fixture.request []) 2 =
    (w', req',
     Ret (Some emptyResult, Some (NewError ErrorNetwork "ldap: response channel closed"))).
Proof.
  split; [reflexivity|]. eexists _, _. vm_compute. reflexivity.
Qed.

(** The four cases of the paging control of the request. *)
Lemma SearchWithPaging_checks_paging_control_witness :
  @SearchWithPaging Fixture.codec Fixture.twoPages 5 Fixture.world0
    (Fixture.request [ControlString ControlTypePaging false ""]) 2 =
    (Fixture.world0, Fixture.request [ControlString ControlTypePaging false ""],
     Ret (None, Some (ErrExpectedControlPaging (ControlString ControlTypePaging false "")))) /\
  @SearchWithPaging Fixture.codec Fixture.twoPages 5 Fixture.otherSizeWorld
    Fixture.pagedRequest 2 =
    (Fixture.otherSizeWorld, Fixture.pagedRequest,
     Ret (None, Some (ErrPagingSizeConflict 5 2))) /\
  pagingSetup (heap Fixture.pagedWorld) Fixture.pagedRequest 2 =
    Ret (inr (heap Fixture.pagedWorld, Fixture.pagedRequest, 0%nat)) /\
  pagingSetup (heap Fixture.world0) (Fixture.request []) 2 =
    Ret (inr (heap Fixture.pagedWorld, Fixture.pagedRequest, 0%nat)).
Proof.
  destruct (@SearchWithPaging_checks_paging_control Fixture.codec Fixture.twoPages 5
              Fixture.world0 (Fixture.request [ControlString ControlTypePaging false ""]) 2)
    as (Hother & _).
  destruct (@SearchWithPaging_checks_paging_control Fixture.codec Fixture.twoPages 5
              Fixture.otherSizeWorld Fixture.pagedRequest 2) as (_ & Hsize & _).
  destruct (@SearchWithPaging_checks_paging_control Fixture.codec Fixture.twoPages 5
              Fixture.pagedWorld Fixture.pagedRequest 2) as (_ & _ & Hsame & _).
  destruct (@SearchWithPaging_checks_paging_control Fixture.codec Fixture.twoPages 5
              Fixture.world0 (Fixture.request []) 2) as (_ & _ & _ & Hnone).
  refine (conj (Hother _ _ _ eq_refl) (conj _ (conj _ _))).
  - refine (Hsize 0%nat _ eq_refl eq_refl _). discriminate.
  - exact (proj1 (Hsame 0%nat _ eq_refl eq_refl eq_refl)).
  - exact (proj1 (Hnone eq_refl)).
Defined.

(** C1 (the code departs from the claim).  The first page ends with the
    cookie [k1]; the search of the second page fails.  [SearchWithPaging]
    returns with the error having written two requests, both with the paging
    size 2: no request with size 0 and the cookie [k1] is written.  On every
    run, the loop is left by [break] with [pagingControl] nil, so what
    follows the loop writes nothing. *)
Theorem SearchWithPaging_failing_page_no_abandon :
  (exists w' req' sr,
      @SearchWithPaging Fixture.codec Fixture.failingSecondPage 5
        Fixture.world0 (Fixture.request []) 2 =
        (w', req', Ret (Some sr, Some Fixture.readError)) /\
      envControls <$> sent (conn w') =
        [Some [WirePaging 2 []];
         Some [WirePaging 2 (String.list_byte_of_string "k1")]]) /\
  (forall (C : Codec) (N : Network) fuel w req pc acc w' pc' sr,
      SearchWithPaging_loop fuel w req pc acc = (w', Ret (Broke pc' sr)) ->
      SearchWithPaging_abandon w' req pc' sr = (w', Ret (Some sr, None))).
Proof.
  split.
  - eexists _, _, _. split; vm_compute; reflexivity.
  - intros C N fuel w req pc acc w' pc' sr Hloop.
    apply SearchWithPaging_loop_break_nil in Hloop as ->. reflexivity.
Qed.

(** * Further properties *)

(** ** Entries: building and reading *)

Lemma GetAttributeValues_loop_map (g : string -> list string) (names : list string)
    (attribute : string) :
  GetAttributeValues_loop (map (fun k => NewEntryAttribute k (g k)) names) attribute =
  if decide (attribute ∈ names) then g attribute else [].
Proof.
  induction names as [|k names IH]; simpl; [reflexivity|].
  destruct (String.eqb_spec k attribute) as [->|Hne].
  - rewrite decide_True by constructor. reflexivity.
  - rewrite IH. destruct (decide (attribute ∈ names)) as [Hin|Hnin].
    + rewrite decide_True by now constructor. reflexivity.
    + rewrite decide_False; [reflexivity|].
      intros [?|?]%elem_of_cons; congruence.
Qed.

Lemma GetRawAttributeValues_loop_map (g : string -> list string) (names : list string)
    (attribute : string) :
  GetRawAttributeValues_loop (map (fun k => NewEntryAttribute k (g k)) names) attribute =
  if decide (attribute ∈ names) then String.list_byte_of_string <$> g attribute else [].
Proof.
  induction names as [|k names IH]; simpl; [reflexivity|].
  destruct (String.eqb_spec k attribute) as [->|Hne].
  - rewrite decide_True by constructor. reflexivity.
  - rewrite IH. destruct (decide (attribute ∈ names)) as [Hin|Hnin].
    + rewrite decide_True by now constructor. reflexivity.
    + rewrite decide_False; [reflexivity|].
      intros [?|?]%elem_of_cons; congruence.
Qed.

(** X1. Reading an attribute of an entry built by [NewEntry] gives the
    values the map has for this name (none when the map has no such key),
    the raw values are their bytes, and the single-value accessor gives the
    first of them. *)
Theorem NewEntry_lookup (dn : string) (attributes : gmap string (list string))
    (iter : list string) (attribute : string) :
  range_order attributes iter ->
  let e := NewEntry iter dn attributes in
  let values := default [] (attributes !! attribute) in
  GetAttributeValues e attribute = values /\
  GetRawAttributeValues e attribute = String.list_byte_of_string <$> values /\
  GetAttributeValue e attribute = List.hd "" values /\
  GetRawAttributeValue e attribute = List.hd [] (String.list_byte_of_string <$> values).
Proof.
  intros Hiter e values.
  assert (Hkeys : attribute ∈ sort_Strings iter <-> is_Some (attributes !! attribute)).
  { rewrite sort_Strings_perm, Hiter. split.
    - intros [[k v] [-> Hkv]]%list_elem_of_fmap.
      apply elem_of_map_to_list in Hkv. simpl. eauto.
    - intros [v Hv]. apply list_elem_of_fmap. exists (attribute, v).
      split; [reflexivity|]. now apply elem_of_map_to_list. }
  assert (HV : GetAttributeValues e attribute = values).
  { unfold GetAttributeValues, e, NewEntry. simpl.
    rewrite (GetAttributeValues_loop_map (fun k => default [] (attributes !! k))).
    destruct (decide (attribute ∈ sort_Strings iter)) as [Hin|Hnin]; [reflexivity|].
    subst values. destruct (attributes !! attribute) eqn:E; [|reflexivity].
    exfalso. apply Hnin, Hkeys. eauto. }
  assert (HR : GetRawAttributeValues e attribute = String.list_byte_of_string <$> values).
  { unfold GetRawAttributeValues, e, NewEntry. simpl.
    rewrite (GetRawAttributeValues_loop_map (fun k => default [] (attributes !! k))).
    destruct (decide (attribute ∈ sort_Strings iter)) as [Hin|Hnin]; [reflexivity|].
    subst values. destruct (attributes !! attribute) eqn:E; [|reflexivity].
    exfalso. apply Hnin, Hkeys. eauto. }
  split; [exact HV|]. split; [exact HR|]. split.
  - unfold GetAttributeValue. rewrite HV. now destruct values.
  - unfold GetRawAttributeValue. rewrite HR. now destruct values.
Qed.

Lemma accessors_same_length (attrs : list EntryAttribute) (attribute : string) :
  Forall (fun a => length (ByteValues a) = length (Values a)) attrs ->
  length (GetRawAttributeValues_loop attrs attribute) =
  length (GetAttributeValues_loop attrs attribute).
Proof.
  induction 1 as [|a attrs Ha _ IH]; simpl; [reflexivity|].
  now destruct (String.eqb (Name a) attribute).
Qed.

Lemma unpackAttribute_aligned child attr :
  unpackAttribute child = Some attr -> length (ByteValues attr) = length (Values attr).
Proof.
  unfold unpackAttribute. intros Hu.
  destruct (Children child !! 0%nat ≫= string_value) as [name|]; [simpl in Hu|discriminate].
  destruct (Children child !! 1%nat) as [vals|]; [simpl in Hu|discriminate].
  destruct (mapM string_value (Children vals)) as [values|] eqn:Hm; [simpl in Hu|discriminate].
  injection Hu as <-. simpl. rewrite length_map.
  apply mapM_Some_1 in Hm. now apply Forall2_length in Hm.
Qed.

Lemma decodeEntry_aligned op e : decodeEntry op = Some e -> aligned e.
Proof.
  unfold decodeEntry, unpackAttributes, aligned. intros Hd.
  destruct (Children op !! 0%nat ≫= string_value) as [dn|]; [simpl in Hd|discriminate].
  destruct (Children op !! 1%nat) as [attrs|]; [simpl in Hd|discriminate].
  destruct (mapM unpackAttribute (Children attrs)) as [attributes|] eqn:Hm;
    [simpl in Hd|discriminate].
  injection Hd as <-. simpl. apply mapM_Some_1 in Hm.
  induction Hm as [|child attr ? ? Hc _ IH]; constructor; [|assumption].
  now apply unpackAttribute_aligned in Hc.
Qed.

Lemma NewEntry_aligned iter dn (attributes : gmap string (list string)) :
  aligned (NewEntry iter dn attributes).
Proof.
  unfold aligned, NewEntry. simpl. apply Forall_forall.
  intros a [k [-> _]]%list_elem_of_fmap. simpl. apply length_map.
Qed.

Section DeliveredEntries.
Context `{Codec} `{Network}.

Lemma receivedEntries_aligned pdus : Forall aligned (receivedEntries pdus).
Proof.
  unfold receivedEntries. induction pdus as [|p pdus IH]; simpl; [constructor|].
  destruct (receivedEntry p) as [e|] eqn:He; [|assumption].
  constructor; [|assumption].
  unfold receivedEntry in He. destruct (operation p) as [op|]; [simpl in He|discriminate].
  destruct (Tag op =? ApplicationSearchResultEntry); [|discriminate].
  now apply decodeEntry_aligned in He.
Qed.

Lemma Search_loop_aligned l h inbound result h' result' err :
  Search_loop l h inbound result = (h', Ret (result', err)) ->
  Forall aligned (Entries result) ->
  Forall aligned (Entries result').
Proof.
  intros Hloop Hres.
  apply Search_loop_returns in Hloop as (pdus & tail & _ & _ & Hend & Hloop).
  destruct (Search_loop_stop _ _ _ _ _ _ _ Hend Hloop) as [-> _].
  rewrite foldl_absorbed_Entries. apply Forall_app. split; [assumption|].
  apply receivedEntries_aligned.
Qed.

(** What the streaming loop sends: records whose entries are aligned. *)
Lemma SearchWithChannel_loop_aligned l h inbound ch h' ch' r :
  SearchWithChannel_loop l h inbound ch = (h', ch', r) ->
  exists pushed,
    queue ch' = queue ch ++ pushed /\
    Forall (fun rec => Forall aligned (Entries rec)) pushed.
Proof.
  assert (Hsend : forall c v c', chan_send c v = Some c' -> queue c' = queue c ++ [v]).
  { intros c v c'. unfold chan_send. destruct (closed c); [discriminate|].
    now intros [= <-]. }
  assert (Hrefl : forall c : Chan, exists pushed,
             queue c = queue c ++ pushed /\
             Forall (fun rec => Forall aligned (Entries rec)) pushed).
  { intros c. exists []. rewrite app_nil_r. split; [reflexivity|constructor]. }
  revert ch. induction inbound as [|[packet|e] rest IH]; intros ch; simpl.
  - intros [= <- <- <-]. apply Hrefl.
  - destruct (debugPacket l packet); [intros [= <- <- <-]; apply Hrefl|].
    destruct (Children packet !! 1%nat) as [op|]; [|intros [= <- <- <-]; apply Hrefl].
    destruct (Tag op =? ApplicationSearchResultEntry).
    { destruct (decodeEntry op) as [entry|] eqn:Hentry; [|intros [= <- <- <-]; apply Hrefl].
      destruct (chan_send ch _) as [ch1|] eqn:Hs; [|intros [= <- <- <-]; apply Hrefl].
      intros Hloop. apply IH in Hloop as (pushed & -> & Hall). apply Hsend in Hs as ->.
      rewrite <- app_assoc. eexists. split; [reflexivity|].
      constructor; [|assumption]. simpl. constructor; [|constructor].
      now apply decodeEntry_aligned in Hentry. }
    destruct (Tag op =? ApplicationSearchResultDone).
    { destruct (GetLDAPError packet); [intros [= <- <- <-]; apply Hrefl|].
      destruct (length (Children packet) =? 3)%nat; [|intros [= <- <- <-]; apply Hrefl].
      destruct (Children packet !! 2%nat) as [cs|]; [|intros [= <- <- <-]; apply Hrefl].
      destruct (decodeControls h (Children cs) []) as [[h1 controls] [e|]];
        [intros [= <- <- <-]; apply Hrefl|].
      destruct (chan_send ch _) as [ch1|] eqn:Hs; intros [= <- <- <-]; [|apply Hrefl].
      apply Hsend in Hs as ->. eexists. split; [reflexivity|].
      repeat constructor. }
    destruct (Tag op =? ApplicationSearchResultReference); [|apply IH].
    destruct (decodeReferral op) as [ref|]; [|intros [= <- <- <-]; apply Hrefl].
    destruct (chan_send ch _) as [ch1|] eqn:Hs; [|intros [= <- <- <-]; apply Hrefl].
    intros Hloop. apply IH in Hloop as (pushed & -> & Hall). apply Hsend in Hs as ->.
    rewrite <- app_assoc. eexists. split; [reflexivity|].
    constructor; [|assumption]. constructor.
  - intros [= <- <- <-]. apply Hrefl.
Qed.

(** X2. In every entry that [NewEntry] builds, that [Search] returns or
    that [SearchWithChannel] sends, an attribute has as many raw values as
    values: [GetRawAttributeValues] and [GetAttributeValues] return lists
    of the same length for every name. *)
Theorem delivered_entries_aligned :
  (forall iter dn (attributes : gmap string (list string)) attribute,
      length (GetRawAttributeValues (NewEntry iter dn attributes) attribute) =
      length (GetAttributeValues (NewEntry iter dn attributes) attribute)) /\
  (forall w req w' result err entry attribute,
      Search w req = (w', Ret (Some result, err)) ->
      entry ∈ Entries result ->
      length (GetRawAttributeValues entry attribute) =
      length (GetAttributeValues entry attribute)) /\
  (forall w req c w' c' r rec entry attribute,
      SearchWithChannel w req (Some c) = (w', Some c', r) ->
      queue c = [] ->
      rec ∈ queue c' ->
      entry ∈ Entries rec ->
      length (GetRawAttributeValues entry attribute) =
      length (GetAttributeValues entry attribute)).
Proof.
  split; [|split].
  - intros. apply accessors_same_length, NewEntry_aligned.
  - intros w req w' result err entry attribute HS Hin.
    apply accessors_same_length.
    enough (Hall : Forall aligned (Entries result)).
    { rewrite Forall_forall in Hall. now apply Hall. }
    revert HS. unfold Search.
    destruct (doRequest w req) as [w1 [[e|msgCtx]| |]]; try discriminate.
    destruct (Search_loop _ _ _ _) as [h2 [[res e]| |]] eqn:Hloop; try discriminate.
    intros [= _ <- _]. eapply Search_loop_aligned; [exact Hloop|constructor].
  - intros w req c w' c' r rec entry attribute HS Hq Hrec Hin.
    apply accessors_same_length.
    enough (Hall : Forall (fun rec => Forall aligned (Entries rec)) (queue c')).
    { rewrite Forall_forall in Hall. specialize (Hall _ Hrec).
      rewrite Forall_forall in Hall. now apply Hall. }
    assert (Hbody : forall w1 c1 r1,
               SearchWithChannel_body w req c = (w1, c1, r1) ->
               Forall (fun rec => Forall aligned (Entries rec)) (queue c1)).
    { intros w1 c1 r1. unfold SearchWithChannel_body.
      destruct (nextMessageID (conn w)) as [l1 msgID].
      destruct (appendTo (heap w) req msgID) as [[e|packet]| |];
        try (intros [= _ <- _]; rewrite Hq; constructor).
      destruct (sendMessage l1 packet) as [l2 [e|msgCtx]];
        try (intros [= _ <- _]; rewrite Hq; constructor).
      destruct (SearchWithChannel_loop l2 (heap w) (responses msgCtx) c)
        as [[h3 ch3] r3] eqn:Hloop.
      intros [= _ <- _].
      apply SearchWithChannel_loop_aligned in Hloop as (pushed & -> & Hall).
      now rewrite Hq. }
    revert HS. unfold SearchWithChannel.
    destruct (SearchWithChannel_body w req c) as [[w1 c1] r1] eqn:Hb.
    specialize (Hbody _ _ _ eq_refl). unfold chan_close.
    destruct (closed c1); intros [= _ <- _]; assumption.
Qed.
End DeliveredEntries.

(** X3. When the only attributes of an entry that [EqualFold] matches with
    the argument are those of exactly this name, the four [EqualFold]
    accessors return what the exact accessors return. *)
Theorem EqualFold_accessors_agree (EqualFold : string -> string -> bool)
    (e : Entry) (attribute : string) :
  (forall s, EqualFold s s = true) ->
  (forall s t, EqualFold s t = EqualFold t s) ->
  Forall (fun a => EqualFold attribute (Name a) = true -> Name a = attribute)
         (Attributes e) ->
  GetEqualFoldAttributeValues EqualFold e attribute = GetAttributeValues e attribute /\
  GetEqualFoldAttributeValue EqualFold e attribute = GetAttributeValue e attribute /\
  GetEqualFoldRawAttributeValues EqualFold e attribute = GetRawAttributeValues e attribute /\
  GetEqualFoldRawAttributeValue EqualFold e attribute = GetRawAttributeValue e attribute.
Proof.
  intros Hrefl Hsym Hall.
  assert (Hstep : Forall (fun a => EqualFold attribute (Name a) =
                                   String.eqb (Name a) attribute) (Attributes e)).
  { eapply Forall_impl; [exact Hall|]. intros a Ha. simpl in Ha.
    destruct (String.eqb_spec (Name a) attribute) as [->|Hne]; [apply Hrefl|].
    destruct (EqualFold attribute (Name a)) eqn:E; [|reflexivity].
    exfalso. now apply Hne, Ha. }
  assert (HV : GetEqualFoldAttributeValues EqualFold e attribute =
               GetAttributeValues e attribute).
  { unfold GetEqualFoldAttributeValues, GetAttributeValues.
    revert Hstep. generalize (Attributes e) as attrs.
    induction 1 as [|a attrs Ha _ IH]; simpl; [reflexivity|].
    rewrite Ha, IH. reflexivity. }
  assert (HR : GetEqualFoldRawAttributeValues EqualFold e attribute =
               GetRawAttributeValues e attribute).
  { unfold GetEqualFoldRawAttributeValues, GetRawAttributeValues.
    revert Hstep. generalize (Attributes e) as attrs.
    induction 1 as [|a attrs Ha _ IH]; simpl; [reflexivity|].
    rewrite Hsym, Ha, IH. reflexivity. }
  split; [exact HV|]. split.
  - unfold GetEqualFoldAttributeValue, GetAttributeValue. now rewrite HV.
  - split; [exact HR|].
    unfold GetEqualFoldRawAttributeValue, GetRawAttributeValue. now rewrite HR.
Qed.

(** ** Struct tags and Unmarshal *)

Lemma append_String a s t : String.append (String a s) t = String a (String.append s t).
Proof. reflexivity. Qed.

Lemma Split_nonempty sep s : Split sep s <> [].
Proof.
  destruct s as [|c s]; simpl; [discriminate|].
  destruct (Ascii.eqb c sep); [discriminate|].
  destruct (Split sep s); discriminate.
Qed.

(** A string without the separator is one piece. *)
Lemma Split_sepfree sep p : occurs sep p = false -> Split sep p = [p].
Proof.
  induction p as [|c p IH]; simpl; [reflexivity|].
  intros [Hc Hp]%orb_false_iff. rewrite Hc, IH by assumption. reflexivity.
Qed.

(** The first piece ends at the first separator. *)
Lemma Split_app sep p t :
  occurs sep p = false ->
  Split sep (String.append p (String sep t)) = p :: Split sep t.
Proof.
  induction p as [|c p IH]; simpl.
  - intros _. now rewrite Ascii.eqb_refl.
  - intros [Hc Hp]%orb_false_iff. rewrite Hc, IH by assumption. reflexivity.
Qed.

Lemma Split_head sep s :
  exists p ps,
    Split sep s = p :: ps /\ occurs sep p = false /\
    ((ps = [] /\ s = p) \/
     (exists t, s = String.append p (String sep t) /\ Split sep t = ps)).
Proof.
  induction s as [|c s (p & ps & Hsplit & Hfree & Hrest)]; simpl.
  - exists "", []. repeat split. now left.
  - destruct (Ascii.eqb c sep) eqn:Hc.
    + apply Ascii.eqb_eq in Hc as ->. exists "", (Split sep s). repeat split.
      right. exists s. now split.
    + rewrite Hsplit. exists (String c p), ps. split; [reflexivity|].
      split; [simpl; now rewrite Hc|].
      destruct Hrest as [[-> ->]|(t & -> & Ht)]; [now left|].
      right. exists t. now split.
Qed.

(** X4. [readTag] returns the name of the field when the tag has no [ldap]
    key.  Otherwise it returns the part of the value before its first comma
    (the whole value when it has none), and the flag is set exactly when the
    value is this part followed by [,omitempty]. *)
Theorem readTag_first_piece (f : StructField) :
  (TagLookup f = None -> readTag f = (FieldName f, false)) /\
  (forall val,
      TagLookup f = Some val ->
      occurs comma (readTag f).1 = false /\
      (val = (readTag f).1 \/
       exists rest, val = String.append (readTag f).1 (String comma rest)) /\
      ((readTag f).2 = true <-> val = String.append (readTag f).1 ",omitempty")).
Proof.
  unfold readTag. split; [now intros ->|]. intros val ->. simpl.
  fold comma.
  destruct (Split_head comma val) as (p & ps & Hsplit & Hfree & Hrest).
  rewrite Hsplit. simpl. split; [assumption|]. split.
  - destruct Hrest as [[_ ->]|(t & -> & _)]; [now left|right; now exists t].
  - destruct Hrest as [[-> ->]|(t & -> & Ht)]; simpl.
    + split; [discriminate|]. intros Heq.
      apply (f_equal (Split comma)) in Heq.
      change (String.append p ",omitempty")
        with (String.append p (String comma "omitempty")) in Heq.
      rewrite Split_app, Split_sepfree in Heq by assumption. discriminate.
    + destruct (Split_head comma t) as (q & qs & Hq & Hqfree & Hqrest).
      rewrite Hq in Ht. subst ps. simpl.
      destruct qs as [|q2 qs]; simpl.
      * destruct Hqrest as [[_ ->]|(t' & _ & Ht')];
          [|now apply Split_nonempty in Ht'].
        split.
        -- intros ->%String.eqb_eq. reflexivity.
        -- intros Heq. apply (f_equal (Split comma)) in Heq.
           change (String.append p ",omitempty")
             with (String.append p (String comma "omitempty")) in Heq.
           rewrite !Split_app, Hq in Heq by assumption.
           rewrite Split_sepfree in Heq by reflexivity.
           injection Heq as ->. reflexivity.
      * split; [discriminate|]. intros Heq.
        apply (f_equal (Split comma)) in Heq.
        change (String.append p ",omitempty")
          with (String.append p (String comma "omitempty")) in Heq.
        rewrite !Split_app, Hq in Heq by assumption.
        rewrite Split_sepfree in Heq by reflexivity. discriminate.
Qed.

Section UnmarshalFacts.
Variable ParseInt : string -> option Z.

Lemma readTag_setFieldVal f v : readTag (setFieldVal f v) = readTag f.
Proof. reflexivity. Qed.

(** X5. A field that is not exported, or whose attribute the entry does not
    have (or has without a value), is left as it is whatever its type, and
    [Unmarshal] returns no error for it: a struct with only such fields
    comes back unchanged. *)
Theorem Unmarshal_absent_attributes (e : Entry) (fields : list StructField) :
  Forall (fun f => PkgPath f <> "" \/
                   ((readTag f).1 <> "dn" /\ GetAttributeValues e (readTag f).1 = []))
         fields ->
  Unmarshal ParseInt e (PointerToStruct fields) = (PointerToStruct fields, Ret None).
Proof.
  intros Hall. unfold Unmarshal.
  enough (Hf : Unmarshal_fields ParseInt e fields = (fields, Ret None)) by now rewrite Hf.
  induction Hall as [|f fields Hf _ IH]; simpl; [reflexivity|].
  assert (Hsame : Unmarshal_field ParseInt e f = Ret (inr f)).
  { unfold Unmarshal_field. destruct Hf as [Hpkg|[Hdn Hvals]].
    - apply String.eqb_neq in Hpkg. now rewrite Hpkg.
    - destruct (negb (String.eqb (PkgPath f) "")); [reflexivity|].
      destruct (readTag f) as [fieldTag omit]. simpl in *.
      apply String.eqb_neq in Hdn. now rewrite Hdn, Hvals. }
  now rewrite Hsame, IH.
Qed.

Lemma Unmarshal_field_again (e : Entry) (f f1 : StructField) :
  Unmarshal_field ParseInt e f = Ret (inr f1) ->
  exists f2,
    Unmarshal_field ParseInt e f1 = Ret (inr f2) /\
    ((forall l, FieldVal f1 <> FVStrings l) -> f2 = f1) /\
    (forall l, FieldVal f1 = FVStrings l -> PkgPath f1 = "" ->
               FieldVal f2 = FVStrings (l ++ GetAttributeValues e (readTag f1).1)).
Proof.
  unfold Unmarshal_field.
  destruct (negb (String.eqb (PkgPath f) "")) eqn:Hpkg.
  { intros [= <-]. rewrite Hpkg. exists f. repeat split.
    intros l _ Hexp. rewrite Hexp in Hpkg. discriminate. }
  destruct (readTag f) as [fieldTag omit] eqn:Htag.
  destruct (String.eqb fieldTag "dn") eqn:Hdn.
  { destruct (FieldVal f) eqn:Hv; try discriminate; intros [= <-];
      simpl; rewrite Hpkg, readTag_setFieldVal, Htag, Hdn; simpl;
      (eexists; split; [reflexivity|]); split; [reflexivity|discriminate|reflexivity|discriminate]. }
  destruct (GetAttributeValues e fieldTag) as [|first values] eqn:Hvals.
  { intros [= <-]. rewrite Hpkg, Htag, Hdn, Hvals. exists f. repeat split.
    intros l Hl _. simpl. now rewrite Hvals, app_nil_r. }
  destruct (FieldVal f) as [s|l|b|n|n|ty s|ty d|ty] eqn:Hv; simpl; try discriminate;
    try (destruct d; simpl; try discriminate; destruct (ParseInt first); discriminate).
  - intros [= <-]. simpl. rewrite Hpkg, readTag_setFieldVal, Htag, Hdn, Hvals. simpl.
    eexists; split; [reflexivity|]. split; [reflexivity|discriminate].
  - intros [= <-]. simpl. rewrite Hpkg, readTag_setFieldVal, Htag, Hdn, Hvals. simpl.
    eexists; split; [reflexivity|]. split.
    + intros Hno. now specialize (Hno (l ++ first :: values)).
    + intros l' [= <-] _. simpl. now rewrite Hvals.
  - intros [= <-]. simpl. rewrite Hpkg, readTag_setFieldVal, Htag, Hdn, Hvals. simpl.
    eexists; split; [reflexivity|]. split; [reflexivity|discriminate].
  - destruct (ParseInt first) as [intVal|] eqn:Hparse; [|discriminate].
    intros [= <-]. simpl. rewrite Hpkg, readTag_setFieldVal, Htag, Hdn, Hvals. simpl.
    rewrite Hparse. eexists; split; [reflexivity|]. split; [reflexivity|discriminate].
  - destruct (ParseInt first) as [intVal|] eqn:Hparse; [|discriminate].
    intros [= <-]. simpl. rewrite Hpkg, readTag_setFieldVal, Htag, Hdn, Hvals. simpl.
    rewrite Hparse. eexists; split; [reflexivity|]. split; [reflexivity|discriminate].
Qed.

(** X6. After an [Unmarshal] that returned no error, a second [Unmarshal]
    of the same entry into the same struct returns no error either; it
    leaves every field that is not a [[]string] as it is, and appends the
    values of the attribute once more to every exported [[]string] field. *)
Theorem Unmarshal_twice_appends (e : Entry) (fields fields1 : list StructField) :
  Unmarshal ParseInt e (PointerToStruct fields) = (PointerToStruct fields1, Ret None) ->
  exists fields2,
    Unmarshal ParseInt e (PointerToStruct fields1) = (PointerToStruct fields2, Ret None) /\
    Forall2 (fun f1 f2 =>
               ((forall l, FieldVal f1 <> FVStrings l) -> f2 = f1) /\
               (forall l, FieldVal f1 = FVStrings l -> PkgPath f1 = "" ->
                  FieldVal f2 = FVStrings (l ++ GetAttributeValues e (readTag f1).1)))
            fields1 fields2.
Proof.
  unfold Unmarshal.
  destruct (Unmarshal_fields ParseInt e fields) as [fs r] eqn:Hrun.
  intros [= -> ->].
  enough (Hgoal : exists fields2,
             Unmarshal_fields ParseInt e fields1 = (fields2, Ret None) /\
             Forall2 (fun f1 f2 =>
               ((forall l, FieldVal f1 <> FVStrings l) -> f2 = f1) /\
               (forall l, FieldVal f1 = FVStrings l -> PkgPath f1 = "" ->
                  FieldVal f2 = FVStrings (l ++ GetAttributeValues e (readTag f1).1)))
               fields1 fields2).
  { destruct Hgoal as (fields2 & Hrun2 & Hall). exists fields2. now rewrite Hrun2. }
  revert fields1 Hrun. induction fields as [|f fields IH]; intros fields1; simpl.
  - intros [= <-]. exists []. split; [reflexivity|constructor].
  - destruct (Unmarshal_field ParseInt e f) as [[err|f1]| |] eqn:Hf; try discriminate.
    destruct (Unmarshal_fields ParseInt e fields) as [rest1 r] eqn:Hrest.
    intros [= <- ->].
    destruct (IH rest1 eq_refl) as (rest2 & Hrest2 & Hall).
    destruct (Unmarshal_field_again e f f1 Hf) as (f2 & Hf2 & Hsame & Happ).
    exists (f2 :: rest2). simpl. rewrite Hf2, Hrest2. split; [reflexivity|].
    constructor; [now split|assumption].
Qed.

(** X7. [Unmarshal] writes the struct in place and stops at the first
    field that fails: the fields before it are filled, the field and those
    after it are as they were. *)
Theorem Unmarshal_error_is_partial (e : Entry) (pre pre' post : list StructField)
    (f : StructField) (err : UnmarshalError) :
  Unmarshal ParseInt e (PointerToStruct pre) = (PointerToStruct pre', Ret None) ->
  Unmarshal_field ParseInt e f = Ret (inl err) ->
  Unmarshal ParseInt e (PointerToStruct (pre ++ f :: post)) =
  (PointerToStruct (pre' ++ f :: post), Ret (Some err)).
Proof.
  unfold Unmarshal.
  destruct (Unmarshal_fields ParseInt e pre) as [fs r] eqn:Hpre.
  intros [= -> ->] Hf.
  enough (Hgoal : Unmarshal_fields ParseInt e (pre ++ f :: post) =
                  (pre' ++ f :: post, Ret (Some err))) by now rewrite Hgoal.
  revert pre' Hpre. induction pre as [|g pre IH]; intros pre'; simpl.
  - intros [= <-]. simpl. now rewrite Hf.
  - destruct (Unmarshal_field ParseInt e g) as [[e1|g1]| |]; try discriminate.
    destruct (Unmarshal_fields ParseInt e pre) as [rest1 r] eqn:Hrest.
    intros [= <- ->]. now rewrite (IH rest1 eq_refl).
Qed.

(** X8. The errors and the panics of [Unmarshal].  An error is returned
    for a target that is not a pointer to a struct, for an exported field
    on which the type switch finds an [int] or an [int64] and whose
    attribute has a first value that is not an integer, and for an exported
    field on which the type switch finds none of its types and whose
    attribute has a value.  [Unmarshal] panics when an exported field
    tagged [dn] is not of kind string, and when an exported field of an
    interface type holds a value of a type of the switch and its attribute
    has a value (an integer, for an [int] or an [int64]): such a field
    enters the case of the type it holds, where [reflect] refuses to set
    it.  Every such interface field makes [Unmarshal] panic. *)
Theorem Unmarshal_failures (e : Entry) (i i' : UnmarshalTarget) :
  (forall err,
      Unmarshal ParseInt e i = (i', Ret (Some err)) ->
      match err with
      | ErrExpectedPointer kind => i = NotPointer kind
      | ErrExpectedStruct kind => i = PointerToOther kind
      | ErrParseInt first =>
          exists fields f rest,
            i = PointerToStruct fields /\ f ∈ fields /\ PkgPath f = "" /\
            (dynamicType (FieldVal f) = DynInt \/ dynamicType (FieldVal f) = DynInt64) /\
            GetAttributeValues e (readTag f).1 = first :: rest /\
            ParseInt first = None
      | ErrFieldType type =>
          exists fields f,
            i = PointerToStruct fields /\ f ∈ fields /\ PkgPath f = "" /\
            dynamicType (FieldVal f) = DynOther /\
            supportedType (FieldVal f) = false /\ typeName (FieldVal f) = type /\
            GetAttributeValues e (readTag f).1 <> []
      end) /\
  (Unmarshal ParseInt e i = (i', Panic) ->
   exists fields f,
     i = PointerToStruct fields /\ f ∈ fields /\ PkgPath f = "" /\
     (((readTag f).1 = "dn" /\ stringKind (FieldVal f) = false) \/
      (exists type dynamic first rest,
         (readTag f).1 <> "dn" /\
         FieldVal f = FVInterface type dynamic /\
         dynamic <> DynOther /\
         GetAttributeValues e (readTag f).1 = first :: rest /\
         (dynamic = DynInt \/ dynamic = DynInt64 -> ParseInt first <> None)))) /\
  (forall f type dynamic first rest,
      PkgPath f = "" ->
      (readTag f).1 <> "dn" ->
      FieldVal f = FVInterface type dynamic ->
      dynamic <> DynOther ->
      GetAttributeValues e (readTag f).1 = first :: rest ->
      (dynamic = DynInt \/ dynamic = DynInt64 -> ParseInt first <> None) ->
      Unmarshal ParseInt e (PointerToStruct [f]) = (PointerToStruct [f], Panic)).
Proof.
  assert (Hfield_err : forall f err,
             Unmarshal_field ParseInt e f = Ret (inl err) ->
             PkgPath f = "" /\
             match err with
             | ErrParseInt first =>
                 exists rest,
                   (dynamicType (FieldVal f) = DynInt \/
                    dynamicType (FieldVal f) = DynInt64) /\
                   GetAttributeValues e (readTag f).1 = first :: rest /\
                   ParseInt first = None
             | ErrFieldType type =>
                 dynamicType (FieldVal f) = DynOther /\
                 supportedType (FieldVal f) = false /\ typeName (FieldVal f) = type /\
                 GetAttributeValues e (readTag f).1 <> []
             | _ => False
             end).
  { intros f err. unfold Unmarshal_field.
    destruct (String.eqb_spec (PkgPath f) "") as [Hpkg|Hpkg]; simpl; [|discriminate].
    destruct (readTag f) as [fieldTag omit]. simpl.
    destruct (String.eqb fieldTag "dn").
    { destruct (FieldVal f); discriminate. }
    destruct (GetAttributeValues e fieldTag) as [|first rest]; [discriminate|].
    destruct (dynamicType (FieldVal f)) eqn:Hd;
      try (destruct (FieldVal f); discriminate).
    - destruct (ParseInt first) eqn:Hp; [destruct (FieldVal f); discriminate|].
      intros [= <-]. split; [assumption|]. exists rest. auto.
    - destruct (ParseInt first) eqn:Hp; [destruct (FieldVal f); discriminate|].
      intros [= <-]. split; [assumption|]. exists rest. auto.
    - intros [= <-]. split; [assumption|]. repeat split; [|discriminate].
      destruct (FieldVal f); simpl in Hd; try discriminate; reflexivity. }
  assert (Hfield_panic : forall f,
             Unmarshal_field ParseInt e f = Panic ->
             PkgPath f = "" /\
             (((readTag f).1 = "dn" /\ stringKind (FieldVal f) = false) \/
              (exists type dynamic first rest,
                 (readTag f).1 <> "dn" /\
                 FieldVal f = FVInterface type dynamic /\
                 dynamic <> DynOther /\
                 GetAttributeValues e (readTag f).1 = first :: rest /\
                 (dynamic = DynInt \/ dynamic = DynInt64 -> ParseInt first <> None)))).
  { intros f. unfold Unmarshal_field.
    destruct (String.eqb_spec (PkgPath f) "") as [Hpkg|Hpkg]; simpl; [|discriminate].
    destruct (readTag f) as [fieldTag omit]. simpl.
    destruct (String.eqb_spec fieldTag "dn") as [->|Hdn].
    { destruct (FieldVal f); try discriminate; intros _; split; auto. }
    destruct (GetAttributeValues e fieldTag) as [|first rest]; [discriminate|].
    destruct (FieldVal f) as [s|l|b|n|n|ty s|ty d|ty]; simpl; try discriminate;
      try (destruct (ParseInt first); discriminate).
    intros Hp. split; [assumption|]. right. exists ty, d, first, rest.
    split; [assumption|]. split; [reflexivity|]. split; [|split; [reflexivity|]].
    - intros ->. discriminate.
    - intros [-> | ->]; destruct (ParseInt first); discriminate. }
  assert (Hfields : forall fields fields' r,
             Unmarshal_fields ParseInt e fields = (fields', r) ->
             (forall err, r = Ret (Some err) ->
                exists f, f ∈ fields /\ Unmarshal_field ParseInt e f = Ret (inl err)) /\
             (r = Panic -> exists f, f ∈ fields /\ Unmarshal_field ParseInt e f = Panic)).
  { induction fields as [|f fields IH]; intros fields' r; simpl.
    - intros [= <- <-]. split; discriminate.
    - destruct (Unmarshal_field ParseInt e f) as [[err|f1]| |] eqn:Hf.
      + intros [= <- <-]. split; [|discriminate].
        intros err' [= <-]. exists f. split; [constructor|assumption].
      + destruct (Unmarshal_fields ParseInt e fields) as [rest1 r1] eqn:Hrest.
        intros [= <- <-]. destruct (IH rest1 r1 eq_refl) as [IHe IHp]. split.
        * intros err Hr. destruct (IHe err Hr) as (g & Hin & Hg).
          exists g. split; [now constructor|assumption].
        * intros Hr. destruct (IHp Hr) as (g & Hin & Hg).
          exists g. split; [now constructor|assumption].
      + intros [= <- <-]. split; [discriminate|].
        intros _. exists f. split; [constructor|assumption].
      + intros [= <- <-]. split; discriminate. }
  unfold Unmarshal. split; [|split].
  - intros err. destruct i as [kind|fields|kind].
    + now intros [= <- <-].
    + destruct (Unmarshal_fields ParseInt e fields) as [fields' r] eqn:Hrun.
      intros [= <- ->].
      destruct (proj1 (Hfields _ _ _ Hrun) err eq_refl) as (f & Hin & Hf).
      destruct (Hfield_err f err Hf) as [Hpkg Herr].
      destruct err as [kind|kind|first|type]; try contradiction.
      * destruct Herr as (rest & Hv & Hvals & Hp).
        now exists fields, f, rest.
      * destruct Herr as (Hd & Hs & Ht & Hvals). now exists fields, f.
    + now intros [= <- <-].
  - destruct i as [kind|fields|kind]; try discriminate.
    destruct (Unmarshal_fields ParseInt e fields) as [fields' r] eqn:Hrun.
    intros [= <- ->].
    destruct (proj2 (Hfields _ _ _ Hrun) eq_refl) as (f & Hin & Hf).
    destruct (Hfield_panic f Hf) as (Hpkg & Hcases).
    now exists fields, f.
  - intros f type dynamic first rest Hpkg Hdn Hv Hdyn Hvals Hint. simpl.
    enough (Hf : Unmarshal_field ParseInt e f = Panic) by now rewrite Hf.
    unfold Unmarshal_field. rewrite Hpkg. simpl.
    destruct (readTag f) as [fieldTag omit]. simpl in *.
    apply String.eqb_neq in Hdn. rewrite Hdn, Hvals, Hv. simpl.
    destruct dynamic; try reflexivity; try congruence;
      (destruct (ParseInt first); [reflexivity|exfalso; apply Hint; auto]).
Qed.
End UnmarshalFacts.

(** ** Buffered and streaming search side by side *)

Section SearchAndChannel.
Context `{Codec} `{Network}.

(** X9. A filter that does not compile: [Search] and [SearchWithChannel]
    return the error of the compiler; a MessageID is used up, nothing is
    written to the server, nothing is sent on the channel, and the channel
    is closed. *)
Theorem filter_error_sends_nothing w req c err :
  CompileFilter (Filter req) = inl err ->
  closed c = false ->
  exists w',
    Search w req = (w', Ret (None, Some err)) /\
    SearchWithChannel w req (Some c) =
      (w', Some {| queue := queue c; closed := true |}, Ret (Some err)) /\
    sent (conn w') = sent (conn w) /\
    heap w' = heap w /\
    messageID (conn w') = messageID (conn w) + 1.
Proof.
  intros Hfilter Hopen. eexists. split; [|split].
  - unfold Search, doRequest, appendTo. simpl. rewrite Hfilter. reflexivity.
  - unfold SearchWithChannel, SearchWithChannel_body, appendTo. simpl.
    rewrite Hfilter. unfold chan_close. rewrite Hopen. reflexivity.
  - repeat split.
Qed.

(** On a closed channel the loop changes nothing of the channel. *)
Lemma SearchWithChannel_loop_closed l h inbound ch h' ch' r :
  closed ch = true ->
  SearchWithChannel_loop l h inbound ch = (h', ch', r) ->
  ch' = ch.
Proof.
  intros Hclosed. induction inbound as [|[packet|e] rest IH]; simpl.
  - now intros [= _ <- _].
  - unfold chan_send. rewrite Hclosed.
    destruct (debugPacket l packet); [now intros [= _ <- _]|].
    destruct (Children packet !! 1%nat) as [op|]; [|now intros [= _ <- _]].
    destruct (Tag op =? ApplicationSearchResultEntry).
    { destruct (decodeEntry op); now intros [= _ <- _]. }
    destruct (Tag op =? ApplicationSearchResultDone).
    { destruct (GetLDAPError packet); [now intros [= _ <- _]|].
      destruct (length (Children packet) =? 3)%nat; [|now intros [= _ <- _]].
      destruct (Children packet !! 2%nat) as [cs|]; [|now intros [= _ <- _]].
      destruct (decodeControls h (Children cs) []) as [[h1 controls] [e|]];
        now intros [= _ <- _]. }
    destruct (Tag op =? ApplicationSearchResultReference); [|exact IH].
    destruct (decodeReferral op); now intros [= _ <- _].
  - now intros [= _ <- _].
Qed.

(** X10. [SearchWithChannel] on a channel that is already closed panics,
    whatever the server answers (the deferred [close] panics at the
    latest), and sends nothing on the channel. *)
Theorem SearchWithChannel_closed_channel_panics w req c :
  closed c = true ->
  exists w', SearchWithChannel w req (Some c) = (w', Some c, Panic).
Proof.
  intros Hclosed. unfold SearchWithChannel.
  destruct (SearchWithChannel_body w req c) as [[w1 c1] r] eqn:Hbody.
  assert (Hc : c1 = c).
  { revert Hbody. unfold SearchWithChannel_body.
    destruct (nextMessageID (conn w)) as [l1 msgID].
    destruct (appendTo (heap w) req msgID) as [[e|packet]| |];
      try now intros [= _ <- _].
    destruct (sendMessage l1 packet) as [l2 [e|msgCtx]]; [now intros [= _ <- _]|].
    destruct (SearchWithChannel_loop l2 (heap w) (responses msgCtx) c)
      as [[h3 ch3] r3] eqn:Hloop.
    intros [= _ <- _]. eapply SearchWithChannel_loop_closed; eassumption. }
  subst c1. unfold chan_close. rewrite Hclosed. now exists w1.
Qed.

(** The controls decoded do not depend on those already there. *)
Lemma decodeControls_acc h children acc :
  decodeControls h children acc =
  let '(h', controls, err) := decodeControls h children [] in (h', acc ++ controls, err).
Proof.
  revert h acc. induction children as [|c children IH]; intros h acc; simpl.
  - now rewrite app_nil_r.
  - destruct (DecodeControl h c) as [h1 [e|decoded]]; [now rewrite app_nil_r|].
    rewrite (IH h1 (acc ++ [decoded])), (IH h1 [decoded]).
    destruct (decodeControls h1 children []) as [[h' controls] err].
    now rewrite <- app_assoc.
Qed.

(** The two loops on the same inbound queue: same store, same error, and
    the records sent are the result cut in pieces. *)
Lemma stream_matches_buffer l h inbound result ch :
  closed ch = false ->
  match Search_loop l h inbound result with
  | (h', Ret (result', err)) =>
      exists pushed,
        SearchWithChannel_loop l h inbound ch =
          (h', {| queue := queue ch ++ pushed; closed := false |}, Ret err) /\
        Entries result' = Entries result ++ concat (Entries <$> pushed) /\
        Referrals result' = Referrals result ++ concat (Referrals <$> pushed) /\
        (err = None ->
         ResControls result' = ResControls result ++ concat (ResControls <$> pushed))
  | (h', Panic) => exists ch', SearchWithChannel_loop l h inbound ch = (h', ch', Panic)
  | (_, OutOfFuel) => False
  end.
Proof.
  assert (Hnil : forall (r : SearchResult) (c : Chan), closed c = false ->
             {| queue := queue c ++ []; closed := false |} = c /\
             Entries r = Entries r ++ concat (Entries <$> []) /\
             Referrals r = Referrals r ++ concat (Referrals <$> []) /\
             ResControls r = ResControls r ++ concat (ResControls <$> [])).
  { intros r [q cl] Hcl. simpl in *. subst cl. now rewrite !app_nil_r. }
  revert result ch. induction inbound as [|[packet|e] rest IH]; intros result ch Hopen; simpl.
  - destruct (Hnil result ch Hopen) as (Hc & HE & HR & HC).
    exists []. rewrite Hc. auto.
  - unfold ApplicationSearchResultEntry, ApplicationSearchResultDone,
      ApplicationSearchResultReference.
    unfold chan_send. rewrite Hopen.
    destruct (Hnil result ch Hopen) as (Hc & HE & HR & HC).
    destruct (debugPacket l packet); [exists []; rewrite Hc; auto|].
    destruct (Children packet !! 1%nat) as [op|]; [|now eauto].
    destruct (Tag op =? 4).
    { destruct (decodeEntry op) as [entry|]; [|now eauto].
      specialize (IH (addEntry result entry)
                    {| queue := queue ch ++ [{| Entries := [entry]; Referrals := [];
                                                ResControls := [] |}];
                       closed := false |} eq_refl).
      destruct (Search_loop l h rest (addEntry result entry)) as [h' [[result' err]| |]];
        [|exact IH|exact IH].
      destruct IH as (pushed & Hloop & HE' & HR' & HC'). simpl in *.
      eexists (_ :: pushed). rewrite Hloop, <- !app_assoc. simpl.
      split; [reflexivity|]. rewrite HE', HR', <- !app_assoc. simpl.
      repeat split. intros Herr. now rewrite (HC' Herr). }
    destruct (Tag op =? 5).
    { destruct (GetLDAPError packet); [exists []; rewrite Hc; auto|].
      destruct (length (Children packet) =? 3)%nat; [|exists []; rewrite Hc; auto].
      destruct (Children packet !! 2%nat) as [cs|]; [|now eauto].
      rewrite (decodeControls_acc h (Children cs) (ResControls result)).
      destruct (decodeControls h (Children cs) []) as [[h1 controls] [e|]].
      - exists []. rewrite Hc. simpl. repeat split; auto. discriminate.
      - eexists [_]. split; [reflexivity|]. simpl. rewrite !app_nil_r. auto. }
    destruct (Tag op =? 19); [|now apply IH].
    destruct (decodeReferral op) as [ref|]; [|now eauto].
    specialize (IH (addReferral result ref)
                  {| queue := queue ch ++ [{| Entries := []; Referrals := [ref];
                                              ResControls := [] |}];
                     closed := false |} eq_refl).
    destruct (Search_loop l h rest (addReferral result ref)) as [h' [[result' err]| |]];
      [|exact IH|exact IH].
    destruct IH as (pushed & Hloop & HE' & HR' & HC'). simpl in *.
    eexists (_ :: pushed). rewrite Hloop, <- !app_assoc. simpl.
    split; [reflexivity|]. rewrite HE', HR', <- !app_assoc. simpl.
    repeat split. intros Herr. now rewrite (HC' Herr).
  - destruct (Hnil result ch Hopen) as (Hc & HE & HR & HC).
    exists []. rewrite Hc. auto.
Qed.

(** X11. Whatever [Search] returns for a request, [SearchWithChannel]
    returns the same error for it on an open channel and leaves the same
    world; the entries, the referrals and (without error) the controls of
    the buffered result are those of the records sent on the channel, in
    the same order. *)
Theorem SearchWithChannel_matches_Search w req w1 result err c :
  Search w req = (w1, Ret (result, err)) ->
  closed c = false ->
  exists pushed,
    SearchWithChannel w req (Some c) =
      (w1, Some {| queue := queue c ++ pushed; closed := true |}, Ret err) /\
    (forall res, result = Some res ->
       Entries res = concat (Entries <$> pushed) /\
       Referrals res = concat (Referrals <$> pushed) /\
       (err = None -> ResControls res = concat (ResControls <$> pushed))).
Proof.
  intros HS Hopen. revert HS.
  unfold Search, doRequest, SearchWithChannel, SearchWithChannel_body.
  destruct (nextMessageID (conn w)) as [l1 msgID].
  destruct (appendTo (heap w) req msgID) as [[e|packet]| |]; try discriminate.
  { intros [= <- <- <-]. exists []. unfold chan_close. rewrite Hopen, app_nil_r.
    split; [reflexivity|discriminate]. }
  destruct (sendMessage l1 packet) as [l2 [e|msgCtx]]; simpl.
  { intros [= <- <- <-]. exists []. unfold chan_close. rewrite Hopen, app_nil_r.
    split; [reflexivity|discriminate]. }
  pose proof (stream_matches_buffer l2 (heap w) (responses msgCtx) emptyResult c Hopen)
    as Hloops.
  destruct (Search_loop l2 (heap w) (responses msgCtx) emptyResult)
    as [h2 [[res e]| |]]; try discriminate.
  intros [= <- <- <-]. destruct Hloops as (pushed & Hloop & HE & HR & HC).
  exists pushed. rewrite Hloop. split; [reflexivity|].
  intros res' [= <-]. auto.
Qed.
End SearchAndChannel.

Section IgnoredResponses.
Context `{Codec} `{Network}.

Lemma Search_loop_ignored l h packet rest result :
  ignoredPDU l packet = true ->
  Search_loop l h (GotPacket packet :: rest) result = Search_loop l h rest result.
Proof.
  unfold ignoredPDU, operation, ApplicationSearchResultEntry,
    ApplicationSearchResultDone, ApplicationSearchResultReference. simpl.
  destruct (debugPacket l packet); [discriminate|].
  destruct (Children packet !! 1%nat) as [op|]; [|discriminate].
  intros [[H4 H5]%andb_true_iff H19]%andb_true_iff.
  apply negb_true_iff in H4, H5, H19. now rewrite H4, H5, H19.
Qed.

Lemma SearchWithChannel_loop_ignored l h packet rest ch :
  ignoredPDU l packet = true ->
  SearchWithChannel_loop l h (GotPacket packet :: rest) ch =
  SearchWithChannel_loop l h rest ch.
Proof.
  unfold ignoredPDU, operation. simpl.
  destruct (debugPacket l packet); [discriminate|].
  destruct (Children packet !! 1%nat) as [op|]; [|discriminate].
  intros [[H4 H5]%andb_true_iff H19]%andb_true_iff.
  apply negb_true_iff in H4, H5, H19. now rewrite H4, H5, H19.
Qed.

(** X12. PDUs whose operation is none of SearchResultEntry,
    SearchResultDone and SearchResultReference (an IntermediateResponse,
    say) have no effect: both loops end the same way, with the same result
    and the same records sent, on the inbound queue and on the queue
    without these PDUs. *)
Theorem ignored_responses_have_no_effect l h inbound :
  (forall result,
      Search_loop l h inbound result =
      Search_loop l h (withoutIgnored l inbound) result) /\
  (forall ch,
      SearchWithChannel_loop l h inbound ch =
      SearchWithChannel_loop l h (withoutIgnored l inbound) ch).
Proof.
  split.
  - induction inbound as [|[packet|e] rest IH]; intros result; [reflexivity| |reflexivity].
    change (withoutIgnored l (GotPacket packet :: rest))
      with (if negb (ignoredPDU l packet)
            then GotPacket packet :: withoutIgnored l rest
            else withoutIgnored l rest).
    destruct (ignoredPDU l packet) eqn:Hig; cbn [negb].
    + rewrite Search_loop_ignored by assumption. apply IH.
    + simpl.
      destruct (debugPacket l packet); [reflexivity|].
      destruct (Children packet !! 1%nat) as [op|]; [|reflexivity].
      destruct (Tag op =? 4); [destruct (decodeEntry op); [apply IH|reflexivity]|].
      destruct (Tag op =? 5); [reflexivity|].
      destruct (Tag op =? 19); [destruct (decodeReferral op); [apply IH|reflexivity]|].
      apply IH.
  - induction inbound as [|[packet|e] rest IH]; intros ch; [reflexivity| |reflexivity].
    change (withoutIgnored l (GotPacket packet :: rest))
      with (if negb (ignoredPDU l packet)
            then GotPacket packet :: withoutIgnored l rest
            else withoutIgnored l rest).
    destruct (ignoredPDU l packet) eqn:Hig; cbn [negb].
    + rewrite SearchWithChannel_loop_ignored by assumption. apply IH.
    + simpl.
      destruct (debugPacket l packet); [reflexivity|].
      destruct (Children packet !! 1%nat) as [op|]; [|reflexivity].
      destruct (Tag op =? ApplicationSearchResultEntry).
      { destruct (decodeEntry op); [|reflexivity].
        destruct (chan_send ch _); [apply IH|reflexivity]. }
      destruct (Tag op =? ApplicationSearchResultDone); [reflexivity|].
      destruct (Tag op =? ApplicationSearchResultReference); [|apply IH].
      destruct (decodeReferral op); [|reflexivity].
      destruct (chan_send ch _); [apply IH|reflexivity].
Qed.
End IgnoredResponses.

(** ** What a search does to the world *)

Section WorldFacts.
Context `{Codec} `{Network}.

Lemma decodeControls_heap h children acc h' controls err :
  decodeControls h children acc = (h', controls, err) -> exists k, h' = h ++ k.
Proof.
  revert h acc. induction children as [|c children IH]; intros h acc; simpl.
  - intros [= <- _ _]. exists []. now rewrite app_nil_r.
  - unfold DecodeControl.
    destruct (decodeControlValue c) as [e|[cp|ty crit val]].
    + intros [= <- _ _]. exists []. now rewrite app_nil_r.
    + intros Hd. apply IH in Hd as [k ->]. exists ([cp] ++ k). now rewrite app_assoc.
    + apply IH.
Qed.

(** The loop of [Search] only allocates: the store it leaves extends the
    store it finds. *)
Lemma Search_loop_heap l h inbound result h' r :
  Search_loop l h inbound result = (h', r) -> exists k, h' = h ++ k.
Proof.
  assert (Hrefl : exists k, h = h ++ k) by (exists []; now rewrite app_nil_r).
  revert result. induction inbound as [|[packet|e] rest IH]; intros result; simpl.
  - now intros [= <- _].
  - destruct (debugPacket l packet); [now intros [= <- _]|].
    destruct (Children packet !! 1%nat) as [op|]; [|now intros [= <- _]].
    destruct (Tag op =? 4).
    { destruct (decodeEntry op); [apply IH|now intros [= <- _]]. }
    destruct (Tag op =? 5).
    { destruct (GetLDAPError packet); [now intros [= <- _]|].
      destruct (length (Children packet) =? 3)%nat; [|now intros [= <- _]].
      destruct (Children packet !! 2%nat) as [cs|]; [|now intros [= <- _]].
      destruct (decodeControls h (Children cs) (ResControls result))
        as [[h1 controls] err] eqn:Hd.
      intros [= <- _]. eapply decodeControls_heap, Hd. }
    destruct (Tag op =? 19); [|apply IH].
    destruct (decodeReferral op); [apply IH|now intros [= <- _]].
  - now intros [= <- _].
Qed.

(** One call of [Search]: the store is extended, one MessageID is used,
    and at most one envelope is written, the one [appendTo] builds from the
    request and the store as they are at the call. *)
Lemma Search_world w req w1 r :
  Search w req = (w1, r) ->
  (exists k, heap w1 = heap w ++ k) /\
  messageID (conn w1) = messageID (conn w) + 1 /\
  (sent (conn w1) = sent (conn w) \/
   exists env,
     sent (conn w1) = sent (conn w) ++ [env] /\
     appendTo (heap w) req (messageID (conn w)) = Ret (inr env)).
Proof.
  assert (Hrefl : exists k, heap w = heap w ++ k) by (exists []; now rewrite app_nil_r).
  unfold Search, doRequest, nextMessageID.
  destruct (appendTo (heap w) req (messageID (conn w))) as [[e|packet]| |] eqn:Happ;
    try (intros [= <- _]; simpl; now auto).
  unfold sendMessage. destruct (respond _) as [e|rs]; simpl.
  { intros [= <- _]. simpl. auto. }
  destruct (Search_loop _ _ rs emptyResult) as [h2 r2] eqn:Hloop.
  apply Search_loop_heap in Hloop. simpl in Hloop.
  destruct r2 as [[res e]| |]; intros [= <- _]; simpl;
    (split; [assumption|]); (split; [reflexivity|]); right; now exists packet.
Qed.

(** The envelope [appendTo] builds carries every control of the request,
    encoded from the store. *)
Lemma appendTo_carries h req msgID env c :
  appendTo h req msgID = Ret (inr env) ->
  c ∈ Controls req ->
  exists cs wire, envControls env = Some cs /\ encodeControl h c = Some wire /\ wire ∈ cs.
Proof.
  unfold appendTo. destruct (CompileFilter (Filter req)) as [e|filterPacket]; [discriminate|].
  intros Happ Hin.
  destruct (0 <? length (Controls req))%nat eqn:Hlen.
  - unfold encodeControls in Happ.
    destruct (mapM (encodeControl h) (Controls req)) as [cs|] eqn:Hm; [|discriminate].
    injection Happ as <-. simpl. apply mapM_Some_1 in Hm.
    destruct (proj1 (list_elem_of_lookup _ _) Hin) as [i Hi].
    destruct (Forall2_lookup_l _ _ _ _ _ Hm Hi) as (wire & Hw & Henc).
    exists cs, wire. repeat split; [assumption|]. eapply list_elem_of_lookup_2, Hw.
  - apply Nat.ltb_ge in Hlen. destruct (Controls req); [|simpl in Hlen; lia].
    now apply elem_of_nil in Hin.
Qed.

(** [FindControl] returns a control of the list. *)
Lemma FindControl_elem controls ty c :
  FindControl controls ty = Some c -> c ∈ controls /\ GetControlType c = ty.
Proof.
  induction controls as [|c0 controls IH]; simpl; [discriminate|].
  destruct (String.eqb_spec (GetControlType c0) ty) as [Heq|Hne].
  - intros [= <-]. split; [constructor|assumption].
  - intros Hf. destruct (IH Hf). split; [now constructor|assumption].
Qed.

Lemma FindControl_snoc controls ty c :
  FindControl controls ty = None ->
  GetControlType c = ty ->
  FindControl (controls ++ [c]) ty = Some c.
Proof.
  intros Hnone Hty. induction controls as [|c0 controls IH]; simpl in *.
  - apply String.eqb_eq in Hty. now rewrite Hty.
  - destruct (String.eqb (GetControlType c0) ty); [discriminate|]. now apply IH.
Qed.

(** What the paging loop does to the world: the envelopes it writes all
    carry the paging control with the size the control had; the control
    keeps this size; and it holds a cookie that is not empty if it held one
    before or if two envelopes were written. *)
Lemma SearchWithPaging_loop_world fuel w req pc acc c0 w' r :
  PControlPaging pc ∈ Controls req ->
  heap w !! pc = Some c0 ->
  SearchWithPaging_loop fuel w req pc acc = (w', r) ->
  exists envs c',
    sent (conn w') = sent (conn w) ++ envs /\
    Forall (carriesPagingSize (PagingSize c0)) envs /\
    heap w' !! pc = Some c' /\
    PagingSize c' = PagingSize c0 /\
    (Cookie c0 <> [] \/ (2 <= length envs)%nat -> Cookie c' <> []).
Proof.
  intros Hin. revert w acc c0.
  induction fuel as [|fuel IH]; intros w acc c0 Hpc; simpl.
  { intros [= <- _]. exists [], c0. rewrite app_nil_r. repeat split; [constructor|assumption|].
    intros [Hc|Hlen]; [assumption|simpl in Hlen; lia]. }
  destruct (Search w req) as [w1 rs] eqn:HS.
  destruct (Search_world _ _ _ _ HS) as ([k Hheap] & _ & Hsent).
  assert (Hpc1 : heap w1 !! pc = Some c0).
  { rewrite Hheap. now apply lookup_app_l_Some. }
  assert (Henvs : exists envs1,
             sent (conn w1) = sent (conn w) ++ envs1 /\
             Forall (carriesPagingSize (PagingSize c0)) envs1 /\
             (length envs1 <= 1)%nat).
  { destruct Hsent as [Hs|(env & Hs & Happ)].
    - exists []. rewrite app_nil_r. repeat split; [assumption|constructor|simpl; lia].
    - exists [env]. repeat split; [assumption| |simpl; lia].
      constructor; [|constructor].
      destruct (appendTo_carries _ _ _ _ _ Happ Hin) as (cs & wire & Hcs & Henc & Hw).
      simpl in Henc. rewrite Hpc in Henc. injection Henc as <-.
      now exists cs, (Cookie c0). }
  destruct Henvs as (envs1 & Hs1 & Hall1 & Hlen1).
  assert (Hstop : exists envs c',
             sent (conn w1) = sent (conn w) ++ envs /\
             Forall (carriesPagingSize (PagingSize c0)) envs /\
             heap w1 !! pc = Some c' /\
             PagingSize c' = PagingSize c0 /\
             (Cookie c0 <> [] \/ (2 <= length envs)%nat -> Cookie c' <> [])).
  { exists envs1, c0. repeat split; try assumption.
    intros [Hc|Hlen]; [assumption|lia]. }
  destruct rs as [[[result|] [err|]]| |]; try (intros [= <- _]; exact Hstop).
  destruct (FindControl (ResControls result) ControlTypePaging) as [[p|ty crit val]|];
    try (intros [= <- _]; exact Hstop).
  destruct (heap w1 !! p) as [c|]; [|intros [= <- _]; exact Hstop].
  destruct (length (Cookie c) =? 0)%nat eqn:Hlen; [intros [= <- _]; exact Hstop|].
  unfold SetCookie. rewrite Hpc1. intros Hloop.
  apply IH with (c0 := {| PagingSize := PagingSize c0; Cookie := Cookie c |}) in Hloop.
  - destruct Hloop as (envs2 & c' & Hs2 & Hall2 & Hpc' & Hsize & Hcookie).
    simpl in *. exists (envs1 ++ envs2), c'.
    rewrite Hs2, Hs1, <- app_assoc. repeat split; try assumption.
    + apply Forall_app. now split.
    + intros _. apply Hcookie. left. intros E. now rewrite E in Hlen.
  - simpl. apply list_lookup_insert_eq. now apply lookup_lt_Some in Hpc1.
Qed.
End WorldFacts.

(** ** The paged search and the world *)

Section PagingWorld.
Context `{Codec} `{Network}.

(** What [SearchWithPaging] does to the world once the paging control is
    in place. *)
Lemma SearchWithPaging_world fuel w req pagingSize w' req' r :
  SearchWithPaging fuel w req pagingSize = (w', req', r) ->
  (exists err, r = Ret (None, Some err) /\ w' = w /\ req' = req) \/
  (r = Panic /\ w' = w /\ req' = req /\
   exists p, FindControl (Controls req) ControlTypePaging = Some (PControlPaging p) /\
             heap w !! p = None) \/
  (exists h1 pc c0 envs c',
     pagingSetup (heap w) req pagingSize = Ret (inr (h1, req', pc)) /\
     FindControl (Controls req') ControlTypePaging = Some (PControlPaging pc) /\
     h1 !! pc = Some c0 /\ PagingSize c0 = pagingSize /\
     sent (conn w') = sent (conn w) ++ envs /\
     Forall (carriesPagingSize pagingSize) envs /\
     heap w' !! pc = Some c' /\ PagingSize c' = pagingSize /\
     (Cookie c0 <> [] \/ (2 <= length envs)%nat -> Cookie c' <> [])).
Proof.
  unfold SearchWithPaging.
  destruct (pagingSetup (heap w) req pagingSize) as [[err|[[h1 req1] pc]]| |] eqn:Hsetup.
  - intros [= <- <- <-]. left. now exists err.
  - assert (Hinv : FindControl (Controls req1) ControlTypePaging = Some (PControlPaging pc) /\
                   exists c0, h1 !! pc = Some c0 /\ PagingSize c0 = pagingSize).
    { revert Hsetup. unfold pagingSetup.
      destruct (FindControl (Controls req) ControlTypePaging) as [[p|ty crit val]|] eqn:HF.
      - destruct (heap w !! p) as [c|] eqn:Hp; [|discriminate].
        destruct (Z.eqb_spec (PagingSize c) pagingSize) as [Heq|Hne]; [|discriminate].
        simpl. intros [= <- <- <-]. split; [assumption|]. now exists c.
      - discriminate.
      - simpl. intros [= <- <- <-]. simpl. split.
        + now apply FindControl_snoc.
        + exists {| PagingSize := pagingSize; Cookie := [] |}. split; [|reflexivity].
          now apply list_lookup_middle. }
    destruct Hinv as (HF & c0 & Hpc & Hsize).
    destruct (SearchWithPaging_loop fuel {| conn := conn w; heap := h1 |} req1 pc emptyResult)
      as [w2 r2] eqn:Hloop.
    assert (Hin : PControlPaging pc ∈ Controls req1) by now apply FindControl_elem in HF.
    destruct (SearchWithPaging_loop_world fuel {| conn := conn w; heap := h1 |} req1 pc
                emptyResult c0 w2 r2 Hin Hpc Hloop)
      as (envs & c' & Hs & Hall & Hpc' & Hsize' & Hcookie).
    simpl in Hs. rewrite Hsize in *.
    assert (Hgoal : forall r0, (w2, req1, r0) = (w', req', r) ->
              exists h1' pc' c0' envs' c'',
                Ret (inr (h1, req1, pc)) = Ret (@inr error _ (h1', req', pc')) /\
                FindControl (Controls req') ControlTypePaging = Some (PControlPaging pc') /\
                h1' !! pc' = Some c0' /\ PagingSize c0' = pagingSize /\
                sent (conn w') = sent (conn w) ++ envs' /\
                Forall (carriesPagingSize pagingSize) envs' /\
                heap w' !! pc' = Some c'' /\ PagingSize c'' = pagingSize /\
                (Cookie c0' <> [] \/ (2 <= length envs')%nat -> Cookie c'' <> [])).
    { intros r0 [= <- <- _]. now exists h1, pc, c0, envs, c'. }
    destruct r2 as [[sr err|pc' sr]| |]; try (intros Heq; right; right; eapply Hgoal, Heq).
    apply SearchWithPaging_loop_break_nil in Hloop as ->. simpl.
    intros Heq; right; right; eapply Hgoal, Heq.
  - revert Hsetup. unfold pagingSetup.
    destruct (FindControl (Controls req) ControlTypePaging) as [[p|ty crit val]|] eqn:HF;
      try discriminate.
    destruct (heap w !! p) as [c|] eqn:Hp.
    + destruct (negb (PagingSize c =? pagingSize)); discriminate.
    + intros _ [= <- <- <-]. right. left. repeat split. now exists p.
  - revert Hsetup. unfold pagingSetup.
    destruct (FindControl (Controls req) ControlTypePaging) as [[p|ty crit val]|];
      try discriminate.
    destruct (heap w !! p) as [c|]; [|discriminate].
    destruct (negb (PagingSize c =? pagingSize)); discriminate.
Qed.

(** On the wire a control keeps its type. *)
Lemma encodeControl_type h c wire :
  encodeControl h c = Some wire -> wireControlType wire = GetControlType c.
Proof.
  destruct c as [p|ty crit val]; simpl.
  - destruct (h !! p); [|discriminate]. now intros [= <-].
  - now intros [= <-].
Qed.

(** The paging control [FindControl] finds in the request is the one a
    server finds in the envelope. *)
Lemma appendTo_paging h req msgID env pc c :
  appendTo h req msgID = Ret (inr env) ->
  FindControl (Controls req) ControlTypePaging = Some (PControlPaging pc) ->
  h !! pc = Some c ->
  pagingControlOf env = Some (WirePaging (PagingSize c) (Cookie c)).
Proof.
  unfold appendTo. destruct (CompileFilter (Filter req)) as [e|filterPacket]; [discriminate|].
  intros Happ HF Hpc.
  destruct (0 <? length (Controls req))%nat eqn:Hlen.
  2:{ apply Nat.ltb_ge in Hlen.
      destruct (Controls req); [discriminate HF|simpl in Hlen; lia]. }
  unfold encodeControls in Happ.
  destruct (mapM (encodeControl h) (Controls req)) as [cs|] eqn:Hm; [|discriminate].
  injection Happ as <-. unfold pagingControlOf. simpl. clear Hlen.
  apply mapM_Some_1 in Hm. revert HF.
  induction Hm as [|c0 wire controls cs Henc _ IH]; simpl; [discriminate|].
  rewrite (encodeControl_type _ _ _ Henc).
  destruct (String.eqb (GetControlType c0) ControlTypePaging); [|exact IH].
  intros [= ->]. simpl in Henc. rewrite Hpc in Henc. now injection Henc as <-.
Qed.

(** When the request holds one paging control only, so does the
    envelope. *)
Lemma appendTo_only h req msgID env pc c :
  appendTo h req msgID = Ret (inr env) ->
  (forall p, PControlPaging p ∈ Controls req -> p = pc) ->
  h !! pc = Some c ->
  onlyPagingSize (PagingSize c) env.
Proof.
  unfold appendTo. destruct (CompileFilter (Filter req)) as [e|filterPacket]; [discriminate|].
  intros Happ Honly Hpc cs size' cookie.
  destruct (0 <? length (Controls req))%nat.
  2:{ injection Happ as <-. discriminate. }
  unfold encodeControls in Happ.
  destruct (mapM (encodeControl h) (Controls req)) as [cs0|] eqn:Hm; [|discriminate].
  injection Happ as <-. simpl. intros [= <-] Hin.
  apply mapM_Some_1 in Hm.
  destruct (proj1 (list_elem_of_lookup _ _) Hin) as [i Hi].
  destruct (Forall2_lookup_r _ _ _ _ _ Hm Hi) as (control & Hc & Henc).
  destruct control as [p|ty crit val]; [|discriminate].
  assert (p = pc) as -> by (eapply Honly, list_elem_of_lookup_2, Hc).
  simpl in Henc. rewrite Hpc in Henc. now injection Henc as <- _.
Qed.

(** [FindControl] finds no control only when the list holds none of the
    type. *)
Lemma FindControl_None controls ty c :
  FindControl controls ty = None -> c ∈ controls -> GetControlType c <> ty.
Proof.
  induction controls as [|c0 controls IH]; simpl.
  - intros _ Hin. now apply elem_of_nil in Hin.
  - destruct (String.eqb_spec (GetControlType c0) ty) as [Heq|Hne]; [discriminate|].
    intros Hnone [->|Hin]%elem_of_cons; [assumption|now apply IH].
Qed.

(** Every envelope the paging loop writes is built by [appendTo] from the
    request and a store in which the paging control has the size it had
    at the start. *)
Lemma SearchWithPaging_loop_envelopes fuel w req pc acc c0 w' r :
  heap w !! pc = Some c0 ->
  SearchWithPaging_loop fuel w req pc acc = (w', r) ->
  exists envs,
    sent (conn w') = sent (conn w) ++ envs /\
    Forall (fun env => exists h msgID c,
                appendTo h req msgID = Ret (inr env) /\
                h !! pc = Some c /\ PagingSize c = PagingSize c0) envs.
Proof.
  revert w acc c0. induction fuel as [|fuel IH]; intros w acc c0 Hpc; simpl.
  { intros [= <- _]. exists []. rewrite app_nil_r. split; [reflexivity|constructor]. }
  destruct (Search w req) as [w1 rs] eqn:HS.
  destruct (Search_world _ _ _ _ HS) as ([k Hheap] & _ & Hsent).
  assert (Hpc1 : heap w1 !! pc = Some c0).
  { rewrite Hheap. now apply lookup_app_l_Some. }
  assert (Hstop : exists envs,
             sent (conn w1) = sent (conn w) ++ envs /\
             Forall (fun env => exists h msgID c,
                         appendTo h req msgID = Ret (inr env) /\
                         h !! pc = Some c /\ PagingSize c = PagingSize c0) envs).
  { destruct Hsent as [Hs|(env & Hs & Happ)].
    - exists []. rewrite app_nil_r. split; [assumption|constructor].
    - exists [env]. split; [assumption|]. constructor; [|constructor].
      now exists (heap w), (messageID (conn w)), c0. }
  destruct rs as [[[result|] [err|]]| |]; try (intros [= <- _]; exact Hstop).
  destruct (FindControl (ResControls result) ControlTypePaging) as [[p|ty crit val]|];
    try (intros [= <- _]; exact Hstop).
  destruct (heap w1 !! p) as [c|]; [|intros [= <- _]; exact Hstop].
  destruct (length (Cookie c) =? 0)%nat; [intros [= <- _]; exact Hstop|].
  unfold SetCookie. rewrite Hpc1. intros Hloop.
  apply IH with (c0 := {| PagingSize := PagingSize c0; Cookie := Cookie c |}) in Hloop.
  - destruct Hloop as (envs2 & Hs2 & Hall2). destruct Hstop as (envs1 & Hs1 & Hall1).
    simpl in *. exists (envs1 ++ envs2).
    rewrite Hs2, Hs1, <- app_assoc. split; [reflexivity|].
    apply Forall_app. now split.
  - simpl. apply list_lookup_insert_eq. now apply lookup_lt_Some in Hpc1.
Qed.

(** X13. Every search request [SearchWithPaging] writes has, as its paging
    control (the first control with the paging OID, the one a server
    finds), a paging control of the size the call asks for.  When the
    request came without a paging control, the one the call adds is the
    only one the requests carry: none carries a paging control of another
    size, so that, when the size asked for is not 0, none carries one of
    size 0. *)
Theorem SearchWithPaging_requests_carry_size fuel w req pagingSize w' req' r :
  SearchWithPaging fuel w req pagingSize = (w', req', r) ->
  exists envs,
    sent (conn w') = sent (conn w) ++ envs /\
    Forall (requestsPagingSize pagingSize) envs /\
    (FindControl (Controls req) ControlTypePaging = None ->
     Forall (onlyPagingSize pagingSize) envs).
Proof.
  intros Hrun. destruct (SearchWithPaging_world _ _ _ _ _ _ _ Hrun)
    as [(err & _ & -> & _)|[(_ & -> & _)|
        (h1 & pc & c0 & envs0 & c' & Hsetup & HF & Hpc & Hsize & _)]].
  - exists []. rewrite app_nil_r. split; [reflexivity|]. split; constructor.
  - exists []. rewrite app_nil_r. split; [reflexivity|]. split; constructor.
  - revert Hrun. unfold SearchWithPaging. rewrite Hsetup.
    destruct (SearchWithPaging_loop fuel {| conn := conn w; heap := h1 |} req' pc emptyResult)
      as [w2 r2] eqn:Hloop.
    destruct (SearchWithPaging_loop_envelopes fuel {| conn := conn w; heap := h1 |} req' pc
                emptyResult c0 w2 r2 Hpc Hloop) as (envs & Hs & Hall).
    simpl in Hs. rewrite Hsize in Hall.
    assert (Hw : w' = w2 -> exists envs1,
               sent (conn w') = sent (conn w) ++ envs1 /\
               Forall (requestsPagingSize pagingSize) envs1 /\
               (FindControl (Controls req) ControlTypePaging = None ->
                Forall (onlyPagingSize pagingSize) envs1)).
    { intros ->. exists envs. split; [assumption|]. split.
      - eapply Forall_impl; [exact Hall|].
        intros env (h & msgID & c & Happ & Hc & Hsz).
        exists (Cookie c). rewrite <- Hsz. eapply appendTo_paging; eassumption.
      - intros Hnone. eapply Forall_impl; [exact Hall|].
        intros env (h & msgID & c & Happ & Hc & Hsz).
        rewrite <- Hsz. eapply appendTo_only; [exact Happ| |exact Hc].
        intros p Hin. revert Hsetup Hin. unfold pagingSetup. rewrite Hnone. simpl.
        intros [= _ <- <-]. simpl. intros [Hin|Hin]%elem_of_app.
        + now apply (FindControl_None _ _ _ Hnone) in Hin.
        + apply list_elem_of_singleton in Hin. now injection Hin. }
    destruct r2 as [[sr err|pc' sr]| |]; try (intros Heq; apply Hw; congruence).
    apply SearchWithPaging_loop_break_nil in Hloop as ->. simpl.
    intros Heq. apply Hw. congruence.
Qed.

(** The envelopes written are never taken back. *)
Lemma SearchWithPaging_loop_sent fuel w req pc acc w' r :
  SearchWithPaging_loop fuel w req pc acc = (w', r) ->
  exists envs, sent (conn w') = sent (conn w) ++ envs.
Proof.
  revert w acc. induction fuel as [|fuel IH]; intros w acc; simpl.
  { intros [= <- _]. exists []. now rewrite app_nil_r. }
  destruct (Search w req) as [w1 rs] eqn:HS.
  assert (Hs1 : exists envs, sent (conn w1) = sent (conn w) ++ envs).
  { destruct (Search_world _ _ _ _ HS) as (_ & _ & [Hs|(env & Hs & _)]).
    - exists []. now rewrite app_nil_r.
    - now exists [env]. }
  destruct rs as [[[result|] [err|]]| |]; try (intros [= <- _]; exact Hs1).
  destruct (FindControl (ResControls result) ControlTypePaging) as [[p|ty crit val]|];
    try (intros [= <- _]; exact Hs1).
  destruct (heap w1 !! p) as [c|]; [|intros [= <- _]; exact Hs1].
  destruct (length (Cookie c) =? 0)%nat; [intros [= <- _]; exact Hs1|].
  destruct (SetCookie (heap w1) pc (Cookie c)) as [h2|]; [|intros [= <- _]; exact Hs1].
  intros Hloop. apply IH in Hloop as [envs2 Hs2]. destruct Hs1 as [envs1 Hs1].
  simpl in Hs2. exists (envs1 ++ envs2). now rewrite Hs2, Hs1, app_assoc.
Qed.

(** A [Search] that writes nothing returns no result. *)
Lemma Search_not_sent w req w1 r :
  Search w req = (w1, r) ->
  sent (conn w1) = sent (conn w) ->
  (exists err, r = Ret (None, Some err)) \/ r = Panic.
Proof.
  unfold Search, doRequest, nextMessageID.
  destruct (appendTo (heap w) req (messageID (conn w))) as [[e|packet]| |] eqn:Happ.
  - intros [= <- <-] _. now eauto.
  - unfold sendMessage. destruct (respond _) as [e|rs]; simpl.
    + intros [= <- <-] _. now eauto.
    + destruct (Search_loop _ _ rs emptyResult) as [h2 [[res e]| |]];
        intros [= <- <-]; simpl; intros Hs; apply (f_equal length) in Hs;
        rewrite length_app in Hs; simpl in Hs; lia.
  - intros [= <- <-] _. now right.
  - exfalso. revert Happ. unfold appendTo.
    destruct (CompileFilter (Filter req)); [discriminate|].
    destruct (0 <? length (Controls req))%nat; [|discriminate].
    destruct (encodeControls (heap w) (Controls req)); discriminate.
Qed.

(** After its first search, the loop only adds to what is written. *)
Lemma SearchWithPaging_loop_after_search fuel w req pc acc w1 rs w' r :
  Search w req = (w1, rs) ->
  SearchWithPaging_loop (S fuel) w req pc acc = (w', r) ->
  exists more, sent (conn w') = sent (conn w1) ++ more.
Proof.
  intros HS. simpl. rewrite HS.
  assert (Hrefl : exists more, sent (conn w1) = sent (conn w1) ++ more).
  { exists []. now rewrite app_nil_r. }
  destruct rs as [[[result|] [err|]]| |]; try (intros [= <- _]; exact Hrefl).
  destruct (FindControl (ResControls result) ControlTypePaging) as [[p|ty crit val]|];
    try (intros [= <- _]; exact Hrefl).
  destruct (heap w1 !! p) as [c|]; [|intros [= <- _]; exact Hrefl].
  destruct (length (Cookie c) =? 0)%nat; [intros [= <- _]; exact Hrefl|].
  destruct (SetCookie (heap w1) pc (Cookie c)) as [h2|]; [|intros [= <- _]; exact Hrefl].
  intros Hloop. now apply SearchWithPaging_loop_sent in Hloop.
Qed.

(** X14. After a page that returned a cookie that is not empty, the next
    request the paging loop writes carries this cookie in its paging
    control. *)
Theorem paging_loop_threads_cookie fuel w req pc acc w1 result cookie w' r envs env :
  PControlPaging pc ∈ Controls req ->
  Search w req = (w1, Ret (Some result, None)) ->
  returnedCookie (heap w1) result = Some cookie ->
  cookie <> [] ->
  SearchWithPaging_loop (S fuel) w req pc acc = (w', r) ->
  sent (conn w') = sent (conn w1) ++ envs ->
  head envs = Some env ->
  carriesCookie cookie env.
Proof.
  intros Hin HS Hc Hne. simpl. rewrite HS. revert Hc. unfold returnedCookie.
  assert (Hnil : forall l : list Envelope, l = l ++ envs -> head envs = Some env -> False).
  { intros l Hs. apply (f_equal length) in Hs. rewrite length_app in Hs.
    destruct envs; [discriminate|simpl in Hs; lia]. }
  destruct (FindControl (ResControls result) ControlTypePaging) as [[p|ty crit val]|];
    [|discriminate|intros [= <-]; congruence].
  destruct (heap w1 !! p) as [c|]; [|discriminate]. simpl. intros [= ->].
  destruct cookie as [|b cookie]; [congruence|]. simpl.
  unfold SetCookie. destruct (heap w1 !! pc) as [c1|] eqn:Hpc.
  2:{ intros [= <- _] Hs Hhd. exfalso. eapply Hnil; eassumption. }
  set (h2 := <[pc := {| PagingSize := PagingSize c1; Cookie := b :: cookie |}]> (heap w1)).
  destruct fuel as [|fuel].
  { simpl. intros [= <- _] Hs Hhd. exfalso. eapply Hnil; eassumption. }
  destruct (Search {| conn := conn w1; heap := h2 |} req) as [w3 r3] eqn:HS3.
  intros Hloop Hs Hhd.
  destruct (SearchWithPaging_loop_after_search _ _ _ _ _ _ _ _ _ HS3 Hloop) as [more Hmore].
  destruct (Search_world _ _ _ _ HS3) as (_ & _ & [Hs3|(env3 & Hs3 & Happ)]); simpl in Hs3.
  - exfalso. simpl in Hloop. rewrite HS3 in Hloop.
    destruct (Search_not_sent _ _ _ _ HS3 Hs3) as [[e ->]| ->];
      injection Hloop as <- _; rewrite Hs3 in Hs; eapply Hnil; eassumption.
  - rewrite Hmore, Hs3, <- app_assoc in Hs. apply app_inv_head in Hs. subst envs.
    simpl in Hhd. injection Hhd as <-.
    destruct (appendTo_carries _ _ _ _ _ Happ Hin) as (cs & wire & Hcs & Henc & Hw).
    assert (Hl : h2 !! pc = Some {| PagingSize := PagingSize c1; Cookie := b :: cookie |}).
    { apply list_lookup_insert_eq. now apply lookup_lt_Some in Hpc. }
    simpl in Henc. rewrite Hl in Henc. injection Henc as <-.
    now exists cs, (PagingSize c1).
Qed.

(** X15. [SearchWithPaging] leaves the paging control it added in the
    request: a later call on the same request with another page size is
    refused without a query. *)
Theorem SearchWithPaging_again_other_size fuel fuel2 w req pagingSize w' req' r size2 :
  FindControl (Controls req) ControlTypePaging = None ->
  SearchWithPaging fuel w req pagingSize = (w', req', r) ->
  size2 <> pagingSize ->
  SearchWithPaging fuel2 w' req' size2 =
  (w', req', Ret (None, Some (ErrPagingSizeConflict pagingSize size2))).
Proof.
  intros Hnone Hrun Hne. destruct (SearchWithPaging_world _ _ _ _ _ _ _ Hrun)
    as [(err & -> & _ & _)|[(_ & _ & _ & p & HF & _)|
        (h1 & pc & c0 & envs & c' & Hsetup & HF & _ & _ & _ & _ & Hpc' & Hsize & _)]].
  - exfalso. revert Hrun. unfold SearchWithPaging, pagingSetup. rewrite Hnone. simpl.
    destruct (SearchWithPaging_loop _ _ _ _ _) as [w2 [[sr e|pc' sr]| |]] eqn:Hloop;
      try discriminate.
    apply SearchWithPaging_loop_break_nil in Hloop as ->. discriminate.
  - congruence.
  - unfold SearchWithPaging, pagingSetup. rewrite HF, Hpc', Hsize.
    destruct (Z.eqb_spec pagingSize size2) as [Heq|_]; [congruence|]. reflexivity.
Qed.
End PagingWorld.

Section PagingResults.
Context `{Codec} `{Network}.

(** X16. [SearchWithPaging] does not reset the cookie: when it returns
    after having written two requests or more, the paging control of the
    request holds a cookie that is not empty (the last one a page returned),
    which a later search with this request would send. *)
Theorem SearchWithPaging_leaves_cookie fuel w req pagingSize w' req' r :
  SearchWithPaging fuel w req pagingSize = (w', req', r) ->
  (length (sent (conn w)) + 2 <= length (sent (conn w')))%nat ->
  exists pc c wire,
    FindControl (Controls req') ControlTypePaging = Some (PControlPaging pc) /\
    heap w' !! pc = Some c /\
    Cookie c <> [] /\
    encodeControl (heap w') (PControlPaging pc) = Some wire /\
    wire = WirePaging pagingSize (Cookie c).
Proof.
  intros Hrun Hlen. apply SearchWithPaging_world in Hrun
    as [(err & _ & -> & _)|[(_ & -> & _)|
        (h1 & pc & c0 & envs & c' & _ & HF & _ & _ & Hs & _ & Hpc' & Hsize & Hcookie)]];
    try lia.
  exists pc, c', (WirePaging pagingSize (Cookie c')). repeat split; try assumption.
  - apply Hcookie. right. rewrite Hs, length_app in Hlen. lia.
  - simpl. rewrite Hpc', Hsize. reflexivity.
Qed.

Lemma appendResult_assoc a b c :
  appendResult (appendResult a b) c = appendResult a (appendResult b c).
Proof. unfold appendResult. simpl. now rewrite <- !app_assoc. Qed.

Lemma appendResult_empty_r a : appendResult a emptyResult = a.
Proof. destruct a. unfold appendResult. simpl. now rewrite !app_nil_r. Qed.

Lemma appendResult_empty_l a : appendResult emptyResult a = a.
Proof. now destruct a. Qed.

Lemma SearchWithPaging_loop_acc fuel w req pc acc acc1 w' exit :
  SearchWithPaging_loop fuel w req pc acc1 = (w', Ret exit) ->
  SearchWithPaging_loop fuel w req pc (appendResult acc acc1) =
  (w', Ret (mapExit (appendResult acc) exit)).
Proof.
  revert w acc1. induction fuel as [|fuel IH]; intros w acc1; simpl; [discriminate|].
  destruct (Search w req) as [w1 [[[result|] [err|]]| |]]; try discriminate;
    try (now intros [= <- <-]).
  rewrite appendResult_assoc.
  destruct (FindControl (ResControls result) ControlTypePaging) as [[p|ty crit val]|];
    try discriminate; [|now intros [= <- <-]].
  destruct (heap w1 !! p) as [c|]; [|discriminate].
  destruct (length (Cookie c) =? 0)%nat; [now intros [= <- <-]|].
  destruct (SetCookie (heap w1) pc (Cookie c)) as [h2|]; [|discriminate].
  apply IH.
Qed.

(** X17. The paging loop keeps what is accumulated: started with results
    already accumulated, it requests the same pages, ends the same way and
    in the same world as started with none, and its result is what was
    accumulated followed by the results of the pages. *)
Theorem SearchWithPaging_loop_keeps_accumulated fuel w req pc acc w' exit :
  SearchWithPaging_loop fuel w req pc emptyResult = (w', Ret exit) ->
  SearchWithPaging_loop fuel w req pc acc = (w', Ret (mapExit (appendResult acc) exit)) /\
  Entries (exitResult (mapExit (appendResult acc) exit)) =
    Entries acc ++ Entries (exitResult exit) /\
  Referrals (exitResult (mapExit (appendResult acc) exit)) =
    Referrals acc ++ Referrals (exitResult exit) /\
  ResControls (exitResult (mapExit (appendResult acc) exit)) =
    ResControls acc ++ ResControls (exitResult exit).
Proof.
  intros Hloop. split.
  - apply (SearchWithPaging_loop_acc _ _ _ _ acc) in Hloop.
    now rewrite appendResult_empty_r in Hloop.
  - now destruct exit.
Qed.

(** X18. [Search] returns no result only together with an error, and then
    nothing was written; so every error the paging loop returns is the
    error of one of its searches, never its own "packet not received". *)
Theorem Search_without_result w req w1 err :
  (Search w req = (w1, Ret (None, err)) ->
   exists e, err = Some e /\ sent (conn w1) = sent (conn w) /\ heap w1 = heap w) /\
  (forall fuel pc acc searchResult e,
      SearchWithPaging_loop fuel w req pc acc = (w1, Ret (Returned searchResult e)) ->
      exists w0 r, Search w0 req = (w1, Ret (r, Some e))).
Proof.
  split.
  - unfold Search, doRequest, nextMessageID.
    destruct (appendTo (heap w) req (messageID (conn w))) as [[e|packet]| |];
      try discriminate.
    + intros [= <- <-]. now exists e.
    + unfold sendMessage. destruct (respond _) as [e|rs]; simpl.
      * intros [= <- <-]. now exists e.
      * destruct (Search_loop _ _ rs emptyResult) as [h2 [[res e]| |]]; discriminate.
  - intros fuel pc acc searchResult e Hloop.
    apply SearchWithPaging_loop_sound in Hloop.
    remember (Returned searchResult e) as exit eqn:Hexit.
    induction Hloop as [w acc w1 r err' HS|w acc w1 result HS Hc
                       |w acc w1 result cookie h2 w' exit HS Hc Hne Hset _ IH].
    + injection Hexit as _ <-. now exists w, r.
    + discriminate.
    + now apply IH.
Qed.
End PagingResults.

(** ** Paging by hand and [SearchWithPaging] *)

Section ManualPagingFacts.
Context `{Codec} `{Network}.

(** The loop of the example and the loop of [SearchWithPaging], started in
    the same world on the same request. *)
Lemma manualPaging_loop_matches fuel w searchBase filter attributes controls pc acc pages
    w' exit :
  SearchWithPaging_loop fuel w
    (NewSearchRequest searchBase ScopeWholeSubtree DerefAlways 0 0 false filter
       attributes controls) pc acc = (w', Ret exit) ->
  exists pages',
    manualPaging_loop fuel w searchBase filter attributes controls pc pages =
      (w', Ret match exit with
               | Returned _ err => Fatal (pages ++ pages') err
               | Broke _ _ => Finished (pages ++ pages')
               end) /\
    exitResult exit = foldl appendResult acc pages'.
Proof.
  revert w acc pages. induction fuel as [|fuel IH]; intros w acc pages; simpl;
    [discriminate|].
  destruct (Search w _) as [w1 [[[result|] [err|]]| |]] eqn:HS; try discriminate.
  - intros [= <- <-]. exists []. now rewrite app_nil_r.
  - destruct (FindControl (ResControls result) ControlTypePaging) as [[p|ty crit val]|];
      try discriminate.
    + destruct (heap w1 !! p) as [c|]; [|discriminate].
      destruct (length (Cookie c) =? 0)%nat; simpl.
      * intros [= <- <-]. now exists [result].
      * destruct (SetCookie (heap w1) pc (Cookie c)) as [h2|]; [|discriminate].
        intros Hloop.
        destruct (IH _ _ (pages ++ [result]) Hloop) as (pages' & Hman & Hres).
        exists (result :: pages'). rewrite Hman, <- app_assoc. now split.
    + intros [= <- <-]. now exists [result].
  - intros [= <- <-]. exists []. now rewrite app_nil_r.
  - now apply Search_result_or_error in HS.
Qed.

(** X19. Paging by hand as [ExampleControlPaging_manualPaging] does it and
    [SearchWithPaging] on the same request with the same page size: when
    [SearchWithPaging] returns, the example does the same searches, leaves
    the same world, stops on the same error if there is one, and the result
    of [SearchWithPaging] is the responses of the example put together. *)
Theorem manualPaging_matches_SearchWithPaging fuel w w' req' sr err :
  SearchWithPaging fuel w
    (NewSearchRequest "dc=example,dc=com" ScopeWholeSubtree DerefAlways 0 0 false
       "(objectClass=group)" [] []) 32 = (w', req', Ret (sr, err)) ->
  exists pages,
    manualPaging fuel w =
      (w', Ret match err with
               | Some e => Fatal pages e
               | None => Finished pages
               end) /\
    sr = Some (collect pages).
Proof.
  unfold SearchWithPaging, manualPaging, pagingSetup, NewControlPaging, collect. simpl.
  destruct (SearchWithPaging_loop fuel _ _ _ emptyResult) as [w2 [[res e|pc' res]| |]]
    eqn:Hloop; try discriminate.
  - intros [= <- <- <- <-].
    destruct (manualPaging_loop_matches _ _ _ _ _ _ _ _ [] _ _ Hloop)
      as (pages & Hman & Hres).
    exists pages. simpl in *. now rewrite Hman, Hres.
  - pose proof (SearchWithPaging_loop_break_nil _ _ _ _ _ _ _ _ Hloop) as ->. simpl.
    intros [= <- <- <- <-].
    destruct (manualPaging_loop_matches _ _ _ _ _ _ _ _ [] _ _ Hloop)
      as (pages & Hman & Hres).
    exists pages. simpl in *. now rewrite Hman, Hres.
Qed.
End ManualPagingFacts.

(** ** The shape of the records of a stream *)

Section RecordShapes.
Context `{Codec} `{Network}.

Lemma SearchWithChannel_loop_shape l h inbound ch h' ch' r :
  SearchWithChannel_loop l h inbound ch = (h', ch', r) ->
  exists items last,
    queue ch' = queue ch ++ items ++ last /\
    Forall itemRecord items /\
    (last = [] \/ (exists rec, last = [rec] /\ controlsRecord rec /\ r = Ret None)).
Proof.
  assert (Hsend : forall c v c', chan_send c v = Some c' -> queue c' = queue c ++ [v]).
  { intros c v c'. unfold chan_send. destruct (closed c); [discriminate|].
    now intros [= <-]. }
  assert (Hrefl : forall c : Chan, exists items last,
             queue c = queue c ++ items ++ last /\ Forall itemRecord items /\
             (last = [] \/
              (exists rec, last = [rec] /\ controlsRecord rec /\ r = Ret None))).
  { intros c. exists [], []. rewrite app_nil_r. repeat split; [constructor|now left]. }
  revert ch. induction inbound as [|[packet|e] rest IH]; intros ch; simpl.
  - intros [= <- <- <-]. apply Hrefl.
  - destruct (debugPacket l packet); [intros [= <- <- <-]; apply Hrefl|].
    destruct (Children packet !! 1%nat) as [op|]; [|intros [= <- <- <-]; apply Hrefl].
    destruct (Tag op =? ApplicationSearchResultEntry).
    { destruct (decodeEntry op) as [entry|]; [|intros [= <- <- <-]; apply Hrefl].
      destruct (chan_send ch _) as [ch1|] eqn:Hs; [|intros [= <- <- <-]; apply Hrefl].
      intros Hloop. apply IH in Hloop as (items & last & -> & Hall & Hlast).
      apply Hsend in Hs as ->. rewrite <- app_assoc.
      eexists (_ :: items), last. split; [reflexivity|]. split; [|assumption].
      constructor; [|assumption]. left. now eexists. }
    destruct (Tag op =? ApplicationSearchResultDone).
    { destruct (GetLDAPError packet); [intros [= <- <- <-]; apply Hrefl|].
      destruct (length (Children packet) =? 3)%nat; [|intros [= <- <- <-]; apply Hrefl].
      destruct (Children packet !! 2%nat) as [cs|]; [|intros [= <- <- <-]; apply Hrefl].
      destruct (decodeControls h (Children cs) []) as [[h1 controls] [e|]];
        [intros [= <- <- <-]; apply Hrefl|].
      destruct (chan_send ch _) as [ch1|] eqn:Hs; intros [= <- <- <-]; [|apply Hrefl].
      apply Hsend in Hs as ->. eexists [], [_]. split; [reflexivity|].
      split; [constructor|]. right. eexists. split; [reflexivity|].
      split; [now eexists|reflexivity]. }
    destruct (Tag op =? ApplicationSearchResultReference); [|apply IH].
    destruct (decodeReferral op) as [ref|]; [|intros [= <- <- <-]; apply Hrefl].
    destruct (chan_send ch _) as [ch1|] eqn:Hs; [|intros [= <- <- <-]; apply Hrefl].
    intros Hloop. apply IH in Hloop as (items & last & -> & Hall & Hlast).
    apply Hsend in Hs as ->. rewrite <- app_assoc.
    eexists (_ :: items), last. split; [reflexivity|]. split; [|assumption].
    constructor; [|assumption]. right. now eexists.
  - intros [= <- <- <-]. apply Hrefl.
Qed.

(** The loop does not close the channel, nor open it. *)
Lemma SearchWithChannel_loop_flag l h inbound ch h' ch' r :
  SearchWithChannel_loop l h inbound ch = (h', ch', r) -> closed ch' = closed ch.
Proof.
  assert (Hsend : forall c v c', chan_send c v = Some c' -> closed c' = closed c).
  { intros c v c'. unfold chan_send. destruct (closed c); [discriminate|].
    now intros [= <-]. }
  revert ch. induction inbound as [|[packet|e] rest IH]; intros ch; simpl.
  - now intros [= _ <- _].
  - destruct (debugPacket l packet); [now intros [= _ <- _]|].
    destruct (Children packet !! 1%nat) as [op|]; [|now intros [= _ <- _]].
    destruct (Tag op =? ApplicationSearchResultEntry).
    { destruct (decodeEntry op) as [entry|]; [|now intros [= _ <- _]].
      destruct (chan_send ch _) as [ch1|] eqn:Hs; [|now intros [= _ <- _]].
      intros Hloop. apply IH in Hloop. apply Hsend in Hs. congruence. }
    destruct (Tag op =? ApplicationSearchResultDone).
    { destruct (GetLDAPError packet); [now intros [= _ <- _]|].
      destruct (length (Children packet) =? 3)%nat; [|now intros [= _ <- _]].
      destruct (Children packet !! 2%nat) as [cs|]; [|now intros [= _ <- _]].
      destruct (decodeControls h (Children cs) []) as [[h1 controls] [e|]];
        [now intros [= _ <- _]|].
      destruct (chan_send ch _) as [ch1|] eqn:Hs; intros [= _ <- _]; [|reflexivity].
      now apply Hsend in Hs. }
    destruct (Tag op =? ApplicationSearchResultReference); [|apply IH].
    destruct (decodeReferral op) as [ref|]; [|now intros [= _ <- _]].
    destruct (chan_send ch _) as [ch1|] eqn:Hs; [|now intros [= _ <- _]].
    intros Hloop. apply IH in Hloop. apply Hsend in Hs. congruence.
  - now intros [= _ <- _].
Qed.

(** X20. Every record [SearchWithChannel] sends holds exactly one entry and
    nothing else, or exactly one referral and nothing else, except the last
    record of a search that ends without error, which may hold the controls
    of the SearchResultDone and nothing else. *)
Theorem SearchWithChannel_record_shapes w req c w' c' r :
  SearchWithChannel w req (Some c) = (w', Some c', r) ->
  exists items last,
    queue c' = queue c ++ items ++ last /\
    Forall itemRecord items /\
    (last = [] \/ (exists rec, last = [rec] /\ controlsRecord rec /\ r = Ret None)).
Proof.
  unfold SearchWithChannel.
  destruct (SearchWithChannel_body w req c) as [[w1 c1] r1] eqn:Hbody.
  assert (Hrefl : forall r0 : Res (option error), exists items last,
             queue c = queue c ++ items ++ last /\ Forall itemRecord items /\
             (last = [] \/
              (exists rec, last = [rec] /\ controlsRecord rec /\ r0 = Ret None))).
  { intros r0. exists [], []. rewrite app_nil_r. repeat split; [constructor|now left]. }
  assert (Hshape :
            (closed c1 = closed c) /\
            (closed c = true -> c1 = c) /\
            exists items last,
              queue c1 = queue c ++ items ++ last /\ Forall itemRecord items /\
              (last = [] \/
               (exists rec, last = [rec] /\ controlsRecord rec /\ r1 = Ret None))).
  { revert Hbody. unfold SearchWithChannel_body.
    destruct (nextMessageID (conn w)) as [l1 msgID].
    destruct (appendTo (heap w) req msgID) as [[e|packet]| |];
      try (intros [= _ <- <-]; repeat split; apply Hrefl).
    destruct (sendMessage l1 packet) as [l2 [e|msgCtx]];
      try (intros [= _ <- <-]; repeat split; apply Hrefl).
    destruct (SearchWithChannel_loop l2 (heap w) (responses msgCtx) c)
      as [[h3 ch3] r3] eqn:Hloop.
    intros [= _ <- <-]. split; [|split].
    - eapply SearchWithChannel_loop_flag, Hloop.
    - intros Hc. eapply SearchWithChannel_loop_closed; eassumption.
    - eapply SearchWithChannel_loop_shape, Hloop. }
  destruct Hshape as (Hflag & Hsame & items & last & Hq & Hall & Hlast).
  unfold chan_close. destruct (closed c1) eqn:Hclosed.
  - intros [= _ <- <-]. rewrite (Hsame (eq_sym Hflag)). apply Hrefl.
  - intros [= _ <- <-]. simpl. now exists items, last.
Qed.
End RecordShapes.

(** ** The further properties at work *)

Lemma NewEntry_lookup_witness :
  GetAttributeValues (NewEntry ["sn"; "mail"; "cn"] "cn=a,dc=x" Fixture.attributeMap) "mail"
    = ["a@x"] /\
  GetAttributeValues (NewEntry ["sn"; "mail"; "cn"] "cn=a,dc=x" Fixture.attributeMap) "uid"
    = [].
Proof.
  assert (Hiter : range_order Fixture.attributeMap ["sn"; "mail"; "cn"]).
  { unfold range_order. vm_compute. solve_Permutation. }
  exact (conj (proj1 (NewEntry_lookup "cn=a,dc=x" Fixture.attributeMap
                        ["sn"; "mail"; "cn"] "mail" Hiter))
              (proj1 (NewEntry_lookup "cn=a,dc=x" Fixture.attributeMap
                        ["sn"; "mail"; "cn"] "uid" Hiter))).
Defined.

Lemma delivered_entries_aligned_witness :
  exists w' result entry,
    @Search Fixture.codec Sample.streamOfThree Fixture.world0 (Fixture.request []) =
      (w', Ret (Some result, None)) /\
    Entries result = [entry] /\
    length (GetRawAttributeValues entry "cn") = length (GetAttributeValues entry "cn").
Proof.
  destruct (@delivered_entries_aligned Fixture.codec Sample.streamOfThree)
    as (_ & Hsearch & _).
  eexists _, _, _. split; [reflexivity|]. split; [reflexivity|].
  eapply (Hsearch Fixture.world0 (Fixture.request [])); [reflexivity|]. simpl. constructor.
Defined.

Lemma EqualFold_accessors_agree_witness :
  GetEqualFoldAttributeValues ascii_EqualFold Fixture.entryWithAttributes "mail" =
  GetAttributeValues Fixture.entryWithAttributes "mail".
Proof.
  assert (Hrefl : forall s, ascii_EqualFold s s = true).
  { induction s as [|a s IH]; simpl; [reflexivity|]. now rewrite Ascii.eqb_refl. }
  assert (Hsym : forall s t, ascii_EqualFold s t = ascii_EqualFold t s).
  { induction s as [|a s IH]; intros [|b t]; simpl; try reflexivity.
    now rewrite IH, Ascii.eqb_sym. }
  refine (proj1 (EqualFold_accessors_agree ascii_EqualFold Fixture.entryWithAttributes
                   "mail" Hrefl Hsym _)).
  repeat constructor; simpl; discriminate || reflexivity.
Defined.

Lemma readTag_first_piece_witness :
  occurs comma (readTag Sample.fieldID).1 = false /\
  ("id,omitempty" = (readTag Sample.fieldID).1 \/
   exists rest, "id,omitempty" = String.append (readTag Sample.fieldID).1 (String comma rest)) /\
  ((readTag Sample.fieldID).2 = true <->
   "id,omitempty" = String.append (readTag Sample.fieldID).1 ",omitempty").
Proof.
  exact (proj2 (readTag_first_piece Sample.fieldID) "id,omitempty" eq_refl).
Defined.

Lemma Unmarshal_absent_attributes_witness :
  Unmarshal Sample.parseInt Sample.nobody
    (PointerToStruct [Sample.fieldMemberOf; Sample.fieldID; Sample.fieldUAC]) =
  (PointerToStruct [Sample.fieldMemberOf; Sample.fieldID; Sample.fieldUAC], Ret None).
Proof.
  apply Unmarshal_absent_attributes.
  do 3 (constructor; [right; split; [discriminate|reflexivity]|]). constructor.
Defined.

Lemma Unmarshal_twice_appends_witness :
  exists fields2,
    Unmarshal Sample.parseInt Sample.user
      (PointerToStruct
         [Sample.field "DN" "dn" (FVString "cn=u,dc=x");
          Sample.field "MemberOf" "memberOf" (FVStrings ["g1"; "g2"])]) =
      (PointerToStruct fields2, Ret None) /\
    FieldVal <$> fields2 = [FVString "cn=u,dc=x"; FVStrings ["g1"; "g2"; "g1"; "g2"]].
Proof.
  destruct (Unmarshal_twice_appends Sample.parseInt Sample.user
              [Sample.fieldDN; Sample.fieldMemberOf]
              [Sample.field "DN" "dn" (FVString "cn=u,dc=x");
               Sample.field "MemberOf" "memberOf" (FVStrings ["g1"; "g2"])] eq_refl)
    as (fields2 & Hrun & _).
  exists fields2. split; [exact Hrun|].
  vm_compute in Hrun. injection Hrun as <-. reflexivity.
Defined.

Lemma Unmarshal_error_is_partial_witness :
  Unmarshal Sample.parseInt Sample.badUser
    (PointerToStruct [Sample.fieldDN; Sample.fieldUPN; Sample.fieldID; Sample.fieldData]) =
  (PointerToStruct
     [Sample.field "DN" "dn" (FVString "cn=u,dc=x");
      Sample.field "UserPrincipalName" "userPrincipalName" (FVString "u@x");
      Sample.fieldID; Sample.fieldData],
   Ret (Some (ErrParseInt "x7"))).
Proof.
  exact (Unmarshal_error_is_partial Sample.parseInt Sample.badUser
           [Sample.fieldDN; Sample.fieldUPN]
           [Sample.field "DN" "dn" (FVString "cn=u,dc=x");
            Sample.field "UserPrincipalName" "userPrincipalName" (FVString "u@x")]
           [Sample.fieldData] Sample.fieldID (ErrParseInt "x7") eq_refl eq_refl).
Defined.

(** A [uint32] field is refused with an error; an [int] field tagged [dn]
    and an [interface{}] field that holds a string make [Unmarshal]
    panic. *)
Lemma Unmarshal_failures_witness :
  (exists fields f,
      PointerToStruct [Sample.fieldDN; Sample.fieldUAC] = PointerToStruct fields /\
      f ∈ fields /\ PkgPath f = "" /\
      dynamicType (FieldVal f) = DynOther /\
      supportedType (FieldVal f) = false /\ typeName (FieldVal f) = "uint32" /\
      GetAttributeValues Sample.user (readTag f).1 <> []) /\
  (exists fields f,
      PointerToStruct [Sample.fieldCount] = PointerToStruct fields /\
      f ∈ fields /\ PkgPath f = "" /\
      (((readTag f).1 = "dn" /\ stringKind (FieldVal f) = false) \/
       (exists type dynamic first rest,
          (readTag f).1 <> "dn" /\
          FieldVal f = FVInterface type dynamic /\
          dynamic <> DynOther /\
          GetAttributeValues Sample.user (readTag f).1 = first :: rest /\
          (dynamic = DynInt \/ dynamic = DynInt64 -> Sample.parseInt first <> None)))) /\
  Unmarshal Sample.parseInt Sample.user (PointerToStruct [Sample.fieldAny]) =
    (PointerToStruct [Sample.fieldAny], Panic) /\
  Unmarshal Sample.parseInt Sample.user (PointerToStruct [Sample.fieldAnyInt]) =
    (PointerToStruct [Sample.fieldAnyInt], Panic).
Proof.
  split; [|split; [|split]].
  - exact (proj1 (Unmarshal_failures Sample.parseInt Sample.user
                    (PointerToStruct [Sample.fieldDN; Sample.fieldUAC]) _)
             (ErrFieldType "uint32") eq_refl).
  - exact (proj1 (proj2 (Unmarshal_failures Sample.parseInt Sample.user
                           (PointerToStruct [Sample.fieldCount]) _)) eq_refl).
  - refine (proj2 (proj2 (Unmarshal_failures Sample.parseInt Sample.user
                            (PointerToStruct []) (PointerToStruct [])))
              Sample.fieldAny "interface {}" DynString "u@x" [] eq_refl _ eq_refl _
              eq_refl _); [discriminate|discriminate|].
    intros [Hd|Hd]; discriminate Hd.
  - refine (proj2 (proj2 (Unmarshal_failures Sample.parseInt Sample.user
                            (PointerToStruct []) (PointerToStruct [])))
              Sample.fieldAnyInt "interface {}" DynInt "7" [] eq_refl _ eq_refl _
              eq_refl _); [discriminate|discriminate|].
    intros _. discriminate.
Defined.

Lemma filter_error_sends_nothing_witness :
  exists w',
    @Search Fixture.codec (Fixture.always []) Fixture.world0 Sample.emptyFilter =
      (w', Ret (None, Some (NewError ErrorFilterCompile "ldap: filter is empty"))) /\
    @SearchWithChannel Fixture.codec (Fixture.always []) Fixture.world0 Sample.emptyFilter
      (Some Fixture.openChan) =
      (w', Some {| queue := []; closed := true |},
       Ret (Some (NewError ErrorFilterCompile "ldap: filter is empty"))) /\
    sent (conn w') = sent (conn Fixture.world0) /\
    heap w' = heap Fixture.world0 /\
    messageID (conn w') = messageID (conn Fixture.world0) + 1.
Proof.
  exact (@filter_error_sends_nothing Fixture.codec (Fixture.always []) Fixture.world0
           Sample.emptyFilter Fixture.openChan _ eq_refl eq_refl).
Defined.

Lemma SearchWithChannel_closed_channel_panics_witness :
  exists w',
    @SearchWithChannel Fixture.codec Sample.streamOfThree Fixture.world0
      (Fixture.request []) (Some Sample.closedChan) = (w', Some Sample.closedChan, Panic).
Proof.
  exact (@SearchWithChannel_closed_channel_panics Fixture.codec Sample.streamOfThree
           Fixture.world0 (Fixture.request []) Sample.closedChan eq_refl).
Defined.

Lemma SearchWithChannel_matches_Search_witness :
  exists pushed w1,
    @SearchWithChannel Fixture.codec Sample.streamOfThree Fixture.world0
      (Fixture.request []) (Some Fixture.openChan) =
      (w1, Some {| queue := queue Fixture.openChan ++ pushed; closed := true |}, Ret None) /\
    length pushed = 3%nat.
Proof.
  destruct (@SearchWithChannel_matches_Search Fixture.codec Sample.streamOfThree
              Fixture.world0 (Fixture.request []) _ _ _ Fixture.openChan eq_refl eq_refl)
    as (pushed & Hrun & _).
  eexists pushed, _. split; [exact Hrun|].
  vm_compute in Hrun. injection Hrun as <-. reflexivity.
Defined.

Lemma ignored_responses_have_no_effect_witness :
  @Search_loop Fixture.codec Fixture.conn0 []
    [GotPacket Fixture.entryA; GotPacket Sample.intermediate;
     GotPacket (Fixture.donePDU 0)] emptyResult =
  @Search_loop Fixture.codec Fixture.conn0 []
    [GotPacket Fixture.entryA; GotPacket (Fixture.donePDU 0)] emptyResult.
Proof.
  exact (proj1 (@ignored_responses_have_no_effect Fixture.codec Fixture.conn0 []
                  [GotPacket Fixture.entryA; GotPacket Sample.intermediate;
                   GotPacket (Fixture.donePDU 0)]) emptyResult).
Defined.

Lemma SearchWithPaging_requests_carry_size_witness :
  exists envs,
    sent (conn (@SearchWithPaging Fixture.codec Fixture.twoPages 5 Fixture.world0
                  (Fixture.request []) 2).1.1) = sent (conn Fixture.world0) ++ envs /\
    Forall (requestsPagingSize 2) envs /\
    Forall (onlyPagingSize 2) envs /\
    length envs = 2%nat.
Proof.
  destruct (@SearchWithPaging_requests_carry_size Fixture.codec Fixture.twoPages 5
              Fixture.world0 (Fixture.request []) 2 _ _ _ eq_refl)
    as (envs & Hs & Hfirst & Honly).
  exists envs. split; [exact Hs|]. split; [exact Hfirst|]. split; [exact (Honly eq_refl)|].
  vm_compute in Hs. now subst envs.
Defined.

Lemma paging_loop_threads_cookie_witness :
  exists env,
    head (drop 1 (sent (conn (@SearchWithPaging_loop Fixture.codec Fixture.twoPages 5
                                Fixture.pagedWorld Fixture.pagedRequest 0%nat
                                emptyResult).1))) = Some env /\
    carriesCookie (String.list_byte_of_string "k1") env.
Proof.
  eexists. split; [reflexivity|].
  eapply (@paging_loop_threads_cookie Fixture.codec Fixture.twoPages 4
            Fixture.pagedWorld Fixture.pagedRequest 0%nat emptyResult).
  - constructor.
  - reflexivity.
  - reflexivity.
  - discriminate.
  - reflexivity.
  - reflexivity.
  - reflexivity.
Defined.

Lemma SearchWithPaging_again_other_size_witness :
  @SearchWithPaging Fixture.codec Fixture.twoPages 5
    (@SearchWithPaging Fixture.codec Fixture.twoPages 5 Fixture.world0
       (Fixture.request []) 2).1.1
    (@SearchWithPaging Fixture.codec Fixture.twoPages 5 Fixture.world0
       (Fixture.request []) 2).1.2
    5 =
  ((@SearchWithPaging Fixture.codec Fixture.twoPages 5 Fixture.world0
      (Fixture.request []) 2).1.1,
   (@SearchWithPaging Fixture.codec Fixture.twoPages 5 Fixture.world0
      (Fixture.request []) 2).1.2,
   Ret (None, Some (ErrPagingSizeConflict 2 5))).
Proof.
  refine (@SearchWithPaging_again_other_size Fixture.codec Fixture.twoPages 5 5
            Fixture.world0 (Fixture.request []) 2 _ _ _ 5 eq_refl eq_refl _).
  discriminate.
Defined.

Lemma SearchWithPaging_leaves_cookie_witness :
  exists pc c wire,
    FindControl
      (Controls (@SearchWithPaging Fixture.codec Fixture.twoPages 5 Fixture.world0
                   (Fixture.request []) 2).1.2)
      ControlTypePaging = Some (PControlPaging pc) /\
    heap (@SearchWithPaging Fixture.codec Fixture.twoPages 5 Fixture.world0
            (Fixture.request []) 2).1.1 !! pc = Some c /\
    Cookie c <> [] /\
    encodeControl
      (heap (@SearchWithPaging Fixture.codec Fixture.twoPages 5 Fixture.world0
               (Fixture.request []) 2).1.1) (PControlPaging pc) = Some wire /\
    wire = WirePaging 2 (Cookie c).
Proof.
  refine (@SearchWithPaging_leaves_cookie Fixture.codec Fixture.twoPages 5
            Fixture.world0 (Fixture.request []) 2 _ _ _ eq_refl _).
  vm_compute. lia.
Defined.

Lemma SearchWithPaging_loop_keeps_accumulated_witness :
  exists w' exit,
    @SearchWithPaging_loop Fixture.codec Fixture.twoPages 5 Fixture.pagedWorld
      Fixture.pagedRequest 0%nat (addReferral emptyResult "ldap://a.example/") =
      (w', Ret (mapExit (appendResult (addReferral emptyResult "ldap://a.example/")) exit)) /\
    length (Entries (exitResult exit)) = 3%nat.
Proof.
  eexists _, _. split.
  - refine (proj1 (@SearchWithPaging_loop_keeps_accumulated Fixture.codec Fixture.twoPages
                     5 Fixture.pagedWorld Fixture.pagedRequest 0%nat
                     (addReferral emptyResult "ldap://a.example/") _ _ _)).
    vm_compute. reflexivity.
  - reflexivity.
Defined.

Lemma Search_without_result_witness :
  exists w0 r,
    @Search Fixture.codec Fixture.failingSecondPage w0 Fixture.pagedRequest =
    ((@SearchWithPaging_loop Fixture.codec Fixture.failingSecondPage 5 Fixture.pagedWorld
        Fixture.pagedRequest 0%nat emptyResult).1,
     Ret (r, Some Fixture.readError)).
Proof.
  refine (proj2 (@Search_without_result Fixture.codec Fixture.failingSecondPage
                   Fixture.pagedWorld Fixture.pagedRequest _ None)
            5%nat 0%nat emptyResult _ Fixture.readError _).
  vm_compute. reflexivity.
Defined.

Lemma manualPaging_matches_SearchWithPaging_witness :
  exists pages w',
    @manualPaging Fixture.codec Fixture.twoPages 5 Fixture.world0 =
      (w', Ret (Finished pages)) /\
    length pages = 2%nat.
Proof.
  destruct (@manualPaging_matches_SearchWithPaging Fixture.codec Fixture.twoPages 5
              Fixture.world0 _ _ _ None eq_refl) as (pages & Hman & _).
  eexists pages, _. split; [exact Hman|].
  vm_compute in Hman. injection Hman as <-. reflexivity.
Defined.

Lemma SearchWithChannel_record_shapes_witness :
  exists w' c' items last,
    @SearchWithChannel Fixture.codec Sample.streamOfThree Fixture.world0
      (Fixture.request []) (Some Fixture.openChan) = (w', Some c', Ret None) /\
    queue c' = queue Fixture.openChan ++ items ++ last /\
    Forall itemRecord items /\
    (last = [] \/ (exists rec, last = [rec] /\ controlsRecord rec /\
                                 Ret None = Ret (@None error))).
Proof.
  eexists _, _.
  destruct (@SearchWithChannel_record_shapes Fixture.codec Sample.streamOfThree
              Fixture.world0 (Fixture.request []) Fixture.openChan _ _ _ eq_refl)
    as (items & last & Hq & Hall & Hlast).
  exists items, last. split; [reflexivity|]. now split.
Defined.
